(** * A leftist-heap priority queue ([sjtu::priority_queue]) and its
      exception-safety discipline

    The C++ class keeps a binary tree of heap-allocated [Node]s behind raw
    owning pointers and rewires the links of existing nodes in place.  The
    development below embeds it over an explicit store:

    - a [World] holds the live [Node] objects (address -> node), the live
      container objects (identity -> [priority_queue]), a log of the
      addresses handed to [delete], and an oracle deciding which of the
      upcoming [new] requests fail;
    - every member function is a computation [M A] in a state-and-exception
      monad whose outcomes are a normal return, a thrown C++ exception,
      undefined behaviour ([Fault]) or exhaustion of the recursion budget;
    - recursion through pointers ([mergeNodes], [copyTree], [deleteTree])
      is by a fuel argument which the public operations instantiate with a
      bound on the depth of any acyclic structure in the store. *)

From Stdlib Require Import ZArith Lia Sorted.
From stdpp Require Import gmap list sorting.
From Equations Require Import Equations.

Local Open Scope Z_scope.

Module sjtu.

(** Addresses of [Node] objects; [nullptr] is [None]. *)
Abbreviation addr := positive.
Abbreviation ptr := (option addr).
(** Identities of container objects (what [this == &other] compares). *)
Abbreviation qid := positive.

(** Modelled from the spec: exceptions.hpp is not part of the sources; the
    two exception classes the container throws are the "empty-container
    error" and the uniform "operation-failure error".  [bad_alloc] stands
    for a failure of [new Node(..)] (the allocator or the element's copy
    constructor), [compare_error] for whatever the predicate throws. *)
Inductive exn := container_is_empty | runtime_error | bad_alloc | compare_error.

(** Undefined behaviour. *)
Inductive fault :=
  | DoubleDelete (a : addr)   (* [delete] of a node that was already released *)
  | BadPointer (a : addr)     (* access through a pointer to no live node *)
  | BadObject (q : qid).      (* member call on a container that is not alive *)

(** [size_t] arithmetic wraps modulo 2^64. *)
Definition SIZE_MAX : Z := 2 ^ 64 - 1.
Definition wrap_size_t (z : Z) : Z := z mod 2 ^ 64.

Section priority_queue.

Context {T : Type}.

(** The predicate: [Some b] is a normal return, [None] a thrown exception. *)
Definition Compare := T → T → option bool.

(** [Compare()], the value-initialised predicate of the default constructor. *)
Variable Compare_default : Compare.

Record Node := mkNode {
  data : T;
  left : ptr;
  right : ptr;
  npl : Z;   (* int; see [npl_fits_int] for why it never leaves its range *)
}.

Record priority_queue := mkQueue {
  root : ptr;
  count : Z;
  cmp : Compare;
}.

Record World := mkWorld {
  nodes : gmap addr Node;
  queues : gmap qid priority_queue;
  released : list addr;
  new_ok : list bool;
}.

Inductive outcome (A : Type) :=
  | Ret (a : A) (w : World)
  | Throw (e : exn) (w : World)
  | Fault (f : fault)
  | OutOfFuel.
Arguments Ret {A} a w.
Arguments Throw {A} e w.
Arguments Fault {A} f.
Arguments OutOfFuel {A}.

Definition M (A : Type) : Type := World → outcome A.

#[global] Instance M_ret : MRet M := λ A a w, Ret a w.
#[global] Instance M_bind : MBind M := λ A B k c w,
  match c w with
  | Ret a w' => k a w'
  | Throw e w' => Throw e w'
  | Fault f => Fault f
  | OutOfFuel => OutOfFuel
  end.

Definition throw {A} (e : exn) : M A := λ w, Throw e w.
Definition out_of_fuel {A} : M A := λ _, OutOfFuel.

(** [try { body } catch (...) { handler }]. *)
Definition try_catch {A} (body : M A) (handler : M A) : M A := λ w,
  match body w with
  | Throw _ w' => handler w'
  | o => o
  end.

(** [try { body } catch (...) { cleanup; throw; }]. *)
Definition catch_rethrow {A} (body : M A) (cleanup : M unit) : M A := λ w,
  match body w with
  | Throw e w' => (cleanup ;; throw e) w'
  | o => o
  end.

(** ** Memory primitives *)

Definition set_nodes (m : gmap addr Node) (w : World) : World :=
  mkWorld m (queues w) (released w) (new_ok w).
Definition set_queues (qs : gmap qid priority_queue) (w : World) : World :=
  mkWorld (nodes w) qs (released w) (new_ok w).

(** Reading [*p]. *)
Definition deref (a : addr) : M Node := λ w,
  match nodes w !! a with
  | Some n => Ret n w
  | None => Fault (BadPointer a)
  end.

(** Writing one field of [*p]. *)
Definition update (a : addr) (f : Node → Node) : M unit := λ w,
  match nodes w !! a with
  | Some n => Ret () (set_nodes (<[a := f n]> (nodes w)) w)
  | None => Fault (BadPointer a)
  end.
Definition set_left (a : addr) (p : ptr) : M unit :=
  update a (λ n, mkNode (data n) p (right n) (npl n)).
Definition set_right (a : addr) (p : ptr) : M unit :=
  update a (λ n, mkNode (data n) (left n) p (npl n)).
Definition set_npl (a : addr) (z : Z) : M unit :=
  update a (λ n, mkNode (data n) (left n) (right n) z).

(** [new Node(d)]: the oracle may refuse the request, and so does an
    address space that already holds [SIZE_MAX] nodes; otherwise a node
    [{d, nullptr, nullptr, 0}] appears at an address that is not live. *)
Definition new_Node (d : T) : M addr := λ w,
  let granted := match new_ok w with [] => true | b :: _ => b end in
  let w1 := mkWorld (nodes w) (queues w) (released w) (tail (new_ok w)) in
  if granted && (Z.of_nat (size (nodes w)) <? SIZE_MAX)
  then let a := fresh (dom (nodes w)) in
       Ret a (set_nodes (<[a := mkNode d None None 0]> (nodes w)) w1)
  else Throw bad_alloc w1.

(** [delete p] for a non-null [p]. *)
Definition delete_Node (a : addr) : M unit := λ w,
  match nodes w !! a with
  | Some _ => Ret () (mkWorld (delete a (nodes w)) (queues w) (a :: released w) (new_ok w))
  | None => if bool_decide (a ∈ released w) then Fault (DoubleDelete a)
            else Fault (BadPointer a)
  end.

(** Access to the members of the container object [q]. *)
Definition this (q : qid) : M priority_queue := λ w,
  match queues w !! q with
  | Some pq => Ret pq w
  | None => Fault (BadObject q)
  end.
Definition assign_members (q : qid) (f : priority_queue → priority_queue) : M unit := λ w,
  match queues w !! q with
  | Some pq => Ret () (set_queues (<[q := f pq]> (queues w)) w)
  | None => Fault (BadObject q)
  end.
Definition set_root (q : qid) (p : ptr) : M unit :=
  assign_members q (λ pq, mkQueue p (count pq) (cmp pq)).
Definition set_count (q : qid) (c : Z) : M unit :=
  assign_members q (λ pq, mkQueue (root pq) c (cmp pq)).
Definition set_cmp (q : qid) (c : Compare) : M unit :=
  assign_members q (λ pq, mkQueue (root pq) (count pq) c).

(** Calling the predicate. *)
Definition call (c : Compare) (x y : T) : M bool := λ w,
  match c x y with
  | Some b => Ret b w
  | None => Throw compare_error w
  end.

(** Recursion budget: no acyclic pointer structure in [w] is deeper than
    the number of live nodes. *)
Definition with_fuel {A} (f : nat → M A) : M A := λ w, f (S (size (nodes w))) w.

(** ** Private helpers of the class *)

Definition getNpl (node : ptr) : M Z :=
  match node with
  | Some a => n ← deref a; mret (npl n)
  | None => mret (-1)
  end.

Fixpoint deleteTree (fuel : nat) (node : ptr) : M unit :=
  match fuel with
  | O => out_of_fuel
  | S fuel =>
    match node with
    | None => mret ()
    | Some a =>
      n ← deref a; deleteTree fuel (left n);;
      n ← deref a; deleteTree fuel (right n);;
      delete_Node a
    end
  end.

Fixpoint copyTree (fuel : nat) (node : ptr) : M ptr :=
  match fuel with
  | O => out_of_fuel
  | S fuel =>
    match node with
    | None => mret None
    | Some a =>
      n ← deref a;
      newNode ← new_Node (data n);
      n ← deref a; set_npl newNode (npl n);;
      catch_rethrow
        (n ← deref a; l ← copyTree fuel (left n); set_left newNode l;;
         catch_rethrow
           (n ← deref a; r ← copyTree fuel (right n); set_right newNode r)
           (nn ← deref newNode; deleteTree fuel (left nn);;
            delete_Node newNode))
        (delete_Node newNode);;
      mret (Some newNode)
    end
  end.

Fixpoint mergeNodes (fuel : nat) (less : Compare) (h1 h2 : ptr) : M ptr :=
  match fuel with
  | O => out_of_fuel
  | S fuel =>
    match h1, h2 with
    | None, _ => mret h2
    | _, None => mret h1
    | Some a1, Some a2 =>
      n1 ← deref a1; n2 ← deref a2;
      b ← call less (data n1) (data n2);
      let h1 := if (b : bool) then a2 else a1 in
      let h2 := if (b : bool) then a1 else a2 in
      n ← deref h1; r ← mergeNodes fuel less (right n) (Some h2);
      set_right h1 r;;
      n ← deref h1; nl ← getNpl (left n); nr ← getNpl (right n);
      (if nl <? nr
       then n ← deref h1;
            let temp := left n in
            set_left h1 (right n);; set_right h1 temp
       else mret ());;
      n ← deref h1; nr ← getNpl (right n);
      set_npl h1 (nr + 1);;
      mret (Some h1)
    end
  end.

(** ** Public member functions *)

(** A container object comes to life, with an identity of its own, once its
    constructor has run to completion; it dies when its destructor has. *)
Definition begin_lifetime (pq : priority_queue) : M qid := λ w,
  let q := fresh (dom (queues w)) in
  Ret q (set_queues (<[q := pq]> (queues w)) w).
Definition end_lifetime (q : qid) : M unit := λ w,
  Ret () (set_queues (delete q (queues w)) w).

(** [priority_queue()]. *)
Definition construct : M qid := begin_lifetime (mkQueue None 0 Compare_default).

(** [priority_queue(const priority_queue &other)]: if [copyTree] throws, the
    object never comes to life. *)
Definition copy_construct (other : qid) : M qid :=
  o ← this other;
  r ← match root o with
      | Some _ => with_fuel (λ fuel, copyTree fuel (root o))
      | None => mret None
      end;
  begin_lifetime (mkQueue r (count o) (cmp o)).

(** [~priority_queue()]. *)
Definition destroy (q : qid) : M unit :=
  pq ← this q;
  with_fuel (λ fuel, deleteTree fuel (root pq));;
  end_lifetime q.

(** [operator=]; the result is the identity of [*this]. *)
Definition assign (q other : qid) : M qid :=
  if decide (q = other) then mret q else
  o ← this other;
  newRoot ← match root o with
            | Some _ => with_fuel (λ fuel, copyTree fuel (root o))
            | None => mret None
            end;
  pq ← this q;
  with_fuel (λ fuel, deleteTree fuel (root pq));;
  set_root q newRoot;;
  o ← this other; set_count q (count o);;
  o ← this other; set_cmp q (cmp o);;
  mret q.

Definition top (q : qid) : M T :=
  pq ← this q;
  match root pq with
  | None => throw container_is_empty
  | Some a => n ← deref a; mret (data n)
  end.

Definition push (q : qid) (e : T) : M unit :=
  newNode ← new_Node e;
  pq ← this q;
  let oldRoot := root pq in
  let oldCount := count pq in
  try_catch
    (r ← with_fuel (λ fuel, mergeNodes fuel (cmp pq) (root pq) (Some newNode));
     set_root q r;;
     pq ← this q; set_count q (wrap_size_t (count pq + 1)))
    (delete_Node newNode;;
     set_root q oldRoot;;
     set_count q oldCount;;
     throw runtime_error).

Definition pop (q : qid) : M unit :=
  pq ← this q;
  match root pq with
  | None => throw container_is_empty
  | Some oldRoot =>
    n ← deref oldRoot;
    let l := left n in
    let r := right n in
    let oldCount := count pq in
    try_catch
      (m ← with_fuel (λ fuel, mergeNodes fuel (cmp pq) l r);
       set_root q m;;
       delete_Node oldRoot;;
       pq ← this q; set_count q (wrap_size_t (count pq - 1)))
      (set_root q (Some oldRoot);;
       set_count q oldCount;;
       throw runtime_error)
  end.

Definition size (q : qid) : M Z := pq ← this q; mret (count pq).

Definition empty (q : qid) : M bool := pq ← this q; mret (count pq =? 0).

Definition merge (q other : qid) : M unit :=
  if decide (q = other) then mret () else
  pq ← this q;
  o ← this other;
  let oldRoot := root pq in
  let otherOldRoot := root o in
  let oldCount := count pq in
  let otherOldCount := count o in
  try_catch
    (o ← this other;
     r ← with_fuel (λ fuel, mergeNodes fuel (cmp pq) (root pq) (root o));
     set_root q r;;
     pq ← this q; o ← this other; set_count q (wrap_size_t (count pq + count o));;
     set_root other None;;
     set_count other 0)
    (set_root q oldRoot;;
     set_root other otherOldRoot;;
     set_count q oldCount;;
     set_count other otherOldCount;;
     throw runtime_error).

End priority_queue.

Arguments Node : clear implicits.
Arguments priority_queue : clear implicits.
Arguments World : clear implicits.
Arguments outcome : clear implicits.
Arguments M : clear implicits.
Arguments Compare : clear implicits.
Arguments Ret {T A} a w.
Arguments Throw {T A} e w.
Arguments Fault {T A} f.
Arguments OutOfFuel {T A}.

(** * The functional model and the representation invariant *)

Section computations.

Context {T : Type}.

(** Computations that never throw, and computations that only read. *)
Definition no_throw {A} (c : M T A) : Prop := ∀ w e w', c w ≠ Throw e w'.
Definition read_only {A} (c : M T A) : Prop :=
  ∀ w, (∃ a, c w = Ret a w) ∨ (∃ f, c w = Fault f).

End computations.

Section functional_model.

Context {T : Type}.

(** The tree a container owns, without the addresses of its nodes. *)
Inductive shape :=
  | Nil
  | Fork (x : T) (n : Z) (l r : shape).

Fixpoint weight (s : shape) : nat :=
  match s with
  | Nil => O
  | Fork _ _ l r => S (weight l + weight r)
  end.

Fixpoint elements (s : shape) : list T :=
  match s with
  | Nil => []
  | Fork x _ l r => x :: elements l ++ elements r
  end.

(** What [getNpl] reads at the root of a tree. *)
Definition rank (s : shape) : Z :=
  match s with
  | Nil => -1
  | Fork _ n _ _ => n
  end.

(** The tail of [mergeNodes]: hang the merged subtree to the right of the
    winner, swap the children if the left one has the smaller npl, and
    store the npl of the (new) right child plus one. *)
Definition relink (x : T) (l r : shape) : shape :=
  if rank l <? rank r then Fork x (rank l + 1) r l else Fork x (rank r + 1) l r.

(** [mergeNodes] as a function on trees; [None] when the predicate throws. *)
Equations merge_shapes (less : Compare T) (s1 s2 : shape) : option shape
  by wf (weight s1 + weight s2)%nat Nat.lt :=
merge_shapes less Nil s2 := Some s2;
merge_shapes less (Fork x1 n1 l1 r1) Nil := Some (Fork x1 n1 l1 r1);
merge_shapes less (Fork x1 n1 l1 r1) (Fork x2 n2 l2 r2) with less x1 x2 := {
  | None => None
  | Some true => relink x2 l2 <$> merge_shapes less r2 (Fork x1 n1 l1 r1)
  | Some false => relink x1 l1 <$> merge_shapes less r1 (Fork x2 n2 l2 r2) }.
Next Obligation. simpl. lia. Qed.
Next Obligation. simpl. lia. Qed.

(** The elements a client removes by popping until the container is empty
    or a [pop] fails. *)
Fixpoint pop_sequence_upto (n : nat) (less : Compare T) (s : shape) : list T :=
  match n, s with
  | S n, Fork x _ l r =>
    match merge_shapes less l r with
    | Some s' => x :: pop_sequence_upto n less s'
    | None => []
    end
  | _, _ => []
  end.
Definition pop_sequence (less : Compare T) (s : shape) : list T :=
  pop_sequence_upto (weight s) less s.

(** The leftist property, on the stored npl fields. *)
Fixpoint leftist (s : shape) : Prop :=
  match s with
  | Nil => True
  | Fork _ n l r => rank r ≤ rank l ∧ n = rank r + 1 ∧ leftist l ∧ leftist r
  end.

(** The null path length proper: the number of edges to the nearest
    missing child. *)
Fixpoint null_path_length (s : shape) : Z :=
  match s with
  | Nil => -1
  | Fork _ _ l r => Z.min (null_path_length l) (null_path_length r) + 1
  end.

(** The heap property: no child compares greater than its parent. *)
Definition not_below (less : Compare T) (x : T) (s : shape) : Prop :=
  match s with
  | Nil => True
  | Fork y _ _ _ => less x y = Some false
  end.
Fixpoint heap_ordered (less : Compare T) (s : shape) : Prop :=
  match s with
  | Nil => True
  | Fork x _ l r =>
    not_below less x l ∧ not_below less x r ∧ heap_ordered less l ∧ heap_ordered less r
  end.

(** A predicate that never throws and is a strict weak ordering. *)
Record strict_weak_order (less : Compare T) : Prop := {
  swo_total x y : is_Some (less x y);
  swo_irrefl x : less x x = Some false;
  swo_trans x y z : less x y = Some true → less y z = Some true → less x z = Some true;
  swo_equiv_trans x y z :
    less x y = Some false → less y x = Some false →
    less y z = Some false → less z y = Some false →
    less x z = Some false ∧ less z x = Some false;
}.

(** ** Trees in the store *)

(** A tree together with the address of each of its nodes. *)
Inductive tree :=
  | Leaf
  | Br (a : addr) (x : T) (n : Z) (l r : tree).

Definition rootp (t : tree) : ptr :=
  match t with
  | Leaf => None
  | Br a _ _ _ _ => Some a
  end.

Fixpoint addrs (t : tree) : list addr :=
  match t with
  | Leaf => []
  | Br a _ _ l r => a :: addrs l ++ addrs r
  end.

Fixpoint shape_of (t : tree) : shape :=
  match t with
  | Leaf => Nil
  | Br _ x n l r => Fork x n (shape_of l) (shape_of r)
  end.

(** The store [m] holds every node of [t] at its address, linked as in [t]. *)
Fixpoint own (m : gmap addr (Node T)) (t : tree) : Prop :=
  match t with
  | Leaf => True
  | Br a x n l r =>
    m !! a = Some (mkNode x (rootp l) (rootp r) n) ∧ own m l ∧ own m r
  end.

(** What [mergeNodes] does once the recursive call has returned [r]. *)
Definition relink_nodes (h1 : addr) (r : ptr) : M T ptr :=
  set_right h1 r;;
  n ← deref h1; nl ← getNpl (left n); nr ← getNpl (right n);
  (if nl <? nr
   then n ← deref h1;
        let temp := left n in
        set_left h1 (right n);; set_right h1 temp
   else mret ());;
  n ← deref h1; nr ← getNpl (right n);
  set_npl h1 (nr + 1);;
  mret (Some h1).

(** What it means for one call of [mergeNodes] to compute [merge_shapes]:
    the result is a tree of the merged shape made of the very nodes of the
    two arguments, no other node is touched, and a throwing predicate
    surfaces before any write. *)
Definition mergeNodes_refines (fuel : nat) (less : Compare T) (t1 t2 : tree) (w : World T) : Prop :=
  match merge_shapes less (shape_of t1) (shape_of t2) with
  | None => mergeNodes fuel less (rootp t1) (rootp t2) w = Throw compare_error w
  | Some s =>
    ∃ t m', mergeNodes fuel less (rootp t1) (rootp t2) w = Ret (rootp t) (set_nodes m' w) ∧
            shape_of t = s ∧ own m' t ∧ addrs t ≡ₚ addrs t1 ++ addrs t2 ∧
            (∀ b, b ∉ addrs t1 ++ addrs t2 → m' !! b = nodes w !! b) ∧
            dom m' = dom (nodes w)
  end.

(** The nodes one can reach from a pointer by following child links. *)
Inductive reaches (m : gmap addr (Node T)) : ptr → addr → Prop :=
  | reaches_here a n : m !! a = Some n → reaches m (Some a) a
  | reaches_left a n b : m !! a = Some n → reaches m (left n) b → reaches m (Some a) b
  | reaches_right a n b : m !! a = Some n → reaches m (right n) b → reaches m (Some a) b.

(** [getNpl] as a pure read of the store. *)
Definition stored_npl (m : gmap addr (Node T)) (p : ptr) : Z :=
  match p with
  | None => -1
  | Some a => from_option npl (-1) (m !! a)
  end.

(** ** The representation invariant

    [layout] assigns to every live container the tree it owns.  The
    invariant says that each container's root and count describe its tree,
    that the store holds the tree, that no node has two owners, that every
    tree is leftist, and that every container carries the predicate it was
    constructed with. *)
Variable Compare_default : Compare T.

Abbreviation layout := (gmap qid tree).

Record represents (w : World T) (σ : layout) : Prop := {
  rep_capacity : Z.of_nat (base.size (nodes w)) ≤ SIZE_MAX;
  rep_dom : dom σ = dom (queues w);
  rep_root q pq t : queues w !! q = Some pq → σ !! q = Some t → root pq = rootp t;
  rep_count q pq t :
    queues w !! q = Some pq → σ !! q = Some t → count pq = Z.of_nat (weight (shape_of t));
  rep_cmp q pq : queues w !! q = Some pq → cmp pq = Compare_default;
  rep_own q t : σ !! q = Some t → own (nodes w) t;
  rep_nodup q t : σ !! q = Some t → NoDup (addrs t);
  rep_disjoint q1 q2 t1 t2 a :
    σ !! q1 = Some t1 → σ !! q2 = Some t2 → a ∈ addrs t1 → a ∈ addrs t2 → q1 = q2;
  rep_leftist q t : σ !! q = Some t → leftist (shape_of t);
}.

(** ** Clients *)

(** One call of a public member function. *)
Inductive request :=
  | Construct
  | CopyConstruct (other : qid)
  | Destroy (q : qid)
  | Assign (q other : qid)
  | Top (q : qid)
  | Push (q : qid) (e : T)
  | Pop (q : qid)
  | Size (q : qid)
  | Empty (q : qid)
  | Merge (q other : qid).

Definition perform (r : request) : M T () :=
  match r with
  | Construct => construct Compare_default;; mret ()
  | CopyConstruct other => copy_construct other;; mret ()
  | Destroy q => destroy q
  | Assign q other => assign q other;; mret ()
  | Top q => top q;; mret ()
  | Push q e => push q e
  | Pop q => pop q
  | Size q => size q;; mret ()
  | Empty q => empty q;; mret ()
  | Merge q other => merge q other
  end.

(** The states a program can bring about: it starts with no container and
    no node, calls member functions one after the other, and may catch
    what they throw and carry on. *)
Inductive reachable : World T → Prop :=
  | reachable_start oracle : reachable (mkWorld ∅ ∅ [] oracle)
  | reachable_return r w w' : reachable w → perform r w = Ret () w' → reachable w'
  | reachable_catch r w e w' : reachable w → perform r w = Throw e w' → reachable w'.

(** The shapes a container can take: the empty tree, and what [push],
    [pop] and [merge] make of shapes containers have taken. *)
Inductive built : shape → Prop :=
  | built_nil : built Nil
  | built_push s e s' :
    built s → merge_shapes Compare_default s (Fork e 0 Nil Nil) = Some s' → built s'
  | built_pop x n l r s :
    built (Fork x n l r) → merge_shapes Compare_default l r = Some s → built s
  | built_merge s1 s2 s :
    built s1 → built s2 → merge_shapes Compare_default s1 s2 = Some s → built s.

Definition invariant (w : World T) (σ : gmap qid (tree)) : Prop :=
  represents w σ ∧ ∀ q t, σ !! q = Some t → built (shape_of t).

(** The containers a call may modify. *)
Definition touched (rq : request) : list qid :=
  match rq with
  | Destroy q | Assign q _ | Push q _ | Pop q => [q]
  | Merge q other => [q; other]
  | Construct | CopyConstruct _ | Top _ | Size _ | Empty _ => []
  end.

(** [mutated q w w']: a client gets from [w] to [w'] by pushing to and
    popping from container [q], catching what these calls throw. *)
Inductive mutated (q : qid) : World T → World T → Prop :=
  | mutated_none w : mutated q w w
  | mutated_push w w1 w2 e :
    mutated q w w1 →
    push q e w1 = Ret () w2 ∨ (∃ ex, push q e w1 = Throw ex w2) →
    mutated q w w2
  | mutated_pop w w1 w2 :
    mutated q w w1 →
    pop q w1 = Ret () w2 ∨ (∃ ex, pop q w1 = Throw ex w2) →
    mutated q w w2.
(** The elements a container holds: those of the nodes of its tree. *)
Definition holds (w : World T) (q : qid) (xs : list T) : Prop :=
  ∃ pq t, queues w !! q = Some pq ∧ rootp t = root pq ∧ own (nodes w) t ∧
          xs = elements (shape_of t).

(** The count of every container is the number of nodes below its root. *)
Definition counted (w : World T) : Prop :=
  ∀ q pq, queues w !! q = Some pq →
    (count pq = 0 ↔ root pq = None) ∧
    (∃ ns, NoDup ns ∧ (∀ a, a ∈ ns ↔ reaches (nodes w) (root pq) a) ∧
           count pq = Z.of_nat (length ns)) ∧
    size q w = Ret (count pq) w ∧
    empty q w = Ret (bool_decide (count pq = 0)) w.
(** A client that pops until the container is empty or a [pop] fails, and
    returns what [top] showed before each successful [pop]. *)
Fixpoint drain_loop (fuel : nat) (q : qid) : M T (list T) :=
  match fuel with
  | O => out_of_fuel
  | S fuel =>
    e ← empty q;
    if (e : bool) then mret [] else
    x ← top q;
    popped ← try_catch (pop q;; mret true) (mret false);
    if (popped : bool) then xs ← drain_loop fuel q; mret (x :: xs) else mret []
  end.
Definition drain (q : qid) : M T (list T) := with_fuel (λ fuel, drain_loop fuel q).

(** Container [q] of [w'] is an independent deep clone of container
    [other] of [w]: a tree of other nodes with the same structure,
    elements and npl fields, the same count and predicate; [other] is as
    it was; draining either yields the same sequence; pushing to or
    popping from one leaves the tree and the members of the other alone. *)
Definition cloned (w : World T) (other q : qid) (w' : World T) : Prop :=
  ∃ t t',
    shape_of t' = shape_of t ∧
    (∃ po pq, queues w !! other = Some po ∧ queues w' !! other = Some po ∧
              queues w' !! q = Some pq ∧
              root po = rootp t ∧ root pq = rootp t' ∧ count pq = count po ∧
              cmp pq = cmp po) ∧
    own (nodes w) t ∧ own (nodes w') t ∧ own (nodes w') t' ∧
    (∀ a, a ∈ addrs t' → a ∉ addrs t) ∧
    (∃ xs w1 w2, drain q w' = Ret xs w1 ∧ drain other w' = Ret xs w2) ∧
    (∀ w'', mutated q w' w'' →
            own (nodes w'') t ∧ queues w'' !! other = queues w' !! other) ∧
    (∀ w'', mutated other w' w'' →
            own (nodes w'') t' ∧ queues w'' !! q = queues w' !! q).

End functional_model.

Arguments shape : clear implicits.
Arguments tree : clear implicits.
Arguments request : clear implicits.

(** * Clients and example states *)

Section clients.
Context {T : Type}.
Variable Compare_default : Compare T.
(** A client that makes one call after the other, as long as they return. *)
Fixpoint perform_all (rqs : list (request T)) : M T () :=
  match rqs with
  | [] => mret ()
  | rq :: rqs => perform Compare_default rq;; perform_all rqs
  end.
End clients.

(** [std::less<long>]. *)
Definition less_Z : Compare Z := λ x y, Some (x <? y).

(** A predicate that throws when asked about 13. *)
Definition less_unlucky : Compare Z :=
  λ x y, if (x =? 13) || (y =? 13) then None else Some (x <? y).

Definition start (oracle : list bool) : World Z := mkWorld ∅ ∅ [] oracle.

Definition world_after (less : Compare Z) (rqs : list (request Z)) (oracle : list bool) : World Z :=
  match perform_all less rqs (start oracle) with
  | Ret _ w => w
  | _ => start oracle
  end.

(** Two containers: the first is pushed 5, 3, 8, 1, the second 7, 2. *)
Definition example_program : list (request Z) :=
  [Construct; Construct; Push 1%positive 5; Push 1%positive 3; Push 1%positive 8;
   Push 1%positive 1; Push 2%positive 7; Push 2%positive 2].
Definition example_world : World Z := world_after less_Z example_program [].


(** The first container of [example_world] after a copy construction. *)
Definition copied_world : World Z :=
  match copy_construct 1%positive example_world with
  | Ret _ w => w
  | _ => example_world
  end.

(** A container holding 5 whose predicate throws on the next [push]. *)
Definition unlucky_world : World Z :=
  world_after less_unlucky [Construct; Push 1%positive 5] [].
Definition unlucky_world_after_push : World Z :=
  match push 1%positive 13 unlucky_world with
  | Throw _ w => w
  | _ => unlucky_world
  end.

(** A container of three nodes, in a store whose third allocation from now
    on fails. *)
Definition three_pushes : list (request Z) :=
  [Construct; Push 1%positive 8; Push 1%positive 5; Push 1%positive 1].
Definition third_copy_fails : list bool := [true; true; true; true; true; false].
Definition short_of_memory : World Z := world_after less_Z three_pushes third_copy_fails.

(** A predicate that throws when both of its arguments are below 6, and
    two containers, holding 8, 5, 3 and 2, built without such a comparison:
    the next [push] of 4, [pop] or [merge] makes one. *)
Definition less_shy : Compare Z :=
  λ x y, if (x <? 6) && (y <? 6) then None else Some (x <? y).
Definition shy_program : list (request Z) :=
  [Construct; Construct; Push 1%positive 8; Push 1%positive 5; Push 1%positive 3;
   Push 2%positive 2].
Definition shy_world : World Z := world_after less_shy shy_program [].
Definition shy_first : priority_queue Z := mkQueue (Some 1%positive) 3 less_shy.
Definition shy_second : priority_queue Z := mkQueue (Some 4%positive) 1 less_shy.
Definition shy_world_with_node : World Z :=
  match new_Node 4 shy_world with
  | Ret _ w => w
  | _ => shy_world
  end.

(** [short_of_memory] with a second, empty container. *)
Definition short_of_memory_pair : World Z :=
  world_after less_Z (three_pushes ++ [Construct]) third_copy_fails.

(** * Accounting for nodes *)

Section accounting_defs.
Context {T : Type}.

(** [w'] differs from [w] at most in the links and npl fields of nodes:
    the same nodes are alive and hold the same elements, the containers,
    the release log and the allocator are as they were. *)
Definition relinked (w w' : World T) : Prop :=
  queues w' = queues w ∧ released w' = released w ∧ new_ok w' = new_ok w ∧
  ∀ b, data <$> nodes w' !! b = data <$> nodes w !! b.

Definition relinks_only {A} (c : M T A) : Prop :=
  ∀ w a w', c w = Ret a w' → relinked w w'.

(** A computation that, when it returns, has released no node. *)
Definition keeps_log {A} (c : M T A) : Prop :=
  ∀ w a w', c w = Ret a w' → released w' = released w.

(** Node [a] belongs to the tree of some container. *)
Definition owned (σ : gmap qid (tree T)) (a : addr) : Prop :=
  ∃ q t, σ !! q = Some t ∧ a ∈ addrs t.

(** Every live node belongs to the tree of some container. *)
Definition tight (w : World T) (σ : gmap qid (tree T)) : Prop :=
  ∀ a, is_Some (nodes w !! a) → owned σ a.

(** The containers a call names. *)
Definition operands (rq : request T) : list qid :=
  match rq with
  | Construct => []
  | CopyConstruct other => [other]
  | Destroy q | Top q | Push q _ | Pop q | Size q | Empty q => [q]
  | Assign q other | Merge q other => [q; other]
  end.

(** The exceptions that leave each member function. *)
Definition may_throw (rq : request T) (e : exn) : bool :=
  match rq, e with
  | (Top _ | Pop _), container_is_empty => true
  | (Push _ _ | Pop _ | Merge _ _), runtime_error => true
  | (Push _ _ | CopyConstruct _ | Assign _ _), bad_alloc => true
  | _, _ => false
  end.

(** The calls that go through [copyTree]. *)
Definition copies (rq : request T) : bool :=
  match rq with
  | CopyConstruct _ | Assign _ _ => true
  | _ => false
  end.

(** The number of nodes on the path from the root that follows [left]. *)
Fixpoint left_spine (s : shape T) : nat :=
  match s with
  | Nil => 0
  | Fork _ _ l _ => S (left_spine l)
  end.

End accounting_defs.

(** The members of the two containers of [example_world]. *)
Definition first_queue : priority_queue Z := mkQueue (Some 3%positive) 4 less_Z.
Definition second_queue : priority_queue Z := mkQueue (Some 5%positive) 2 less_Z.

(** The members of the container of [short_of_memory]. *)
Definition short_queue : priority_queue Z := mkQueue (Some 1%positive) 3 less_Z.

(** [example_world] after one more call. *)
Definition pushed_world : World Z :=
  match push 1%positive 6 example_world with
  | Ret _ w => w
  | _ => example_world
  end.
Definition popped_world : World Z :=
  match pop 1%positive example_world with
  | Ret _ w => w
  | _ => example_world
  end.
Definition merged_world : World Z :=
  match merge 1%positive 2%positive example_world with
  | Ret _ w => w
  | _ => example_world
  end.
Definition assigned_world : World Z :=
  match assign 2%positive 1%positive example_world with
  | Ret _ w => w
  | _ => example_world
  end.
(** [example_world] after [mergeNodes] on the two roots. *)
Definition relinked_world : World Z :=
  match mergeNodes 7 less_Z (Some 3%positive) (Some 5%positive) example_world with
  | Ret _ w => w
  | _ => example_world
  end.

(** * Properties *)

(** ** Reasoning about computations in [M] *)

Section monad_facts.

Context {T : Type}.
Implicit Types (w : World T).

Lemma bind_unfold {A B} (c : M T A) (k : A → M T B) w :
  (c ≫= k) w = match c w with
               | Ret a w' => k a w'
               | Throw e w' => Throw e w'
               | Fault f => Fault f
               | OutOfFuel => OutOfFuel
               end.
Proof. reflexivity. Qed.

Lemma bind_ret {A B} (c : M T A) (k : A → M T B) w a w' :
  c w = Ret a w' → (c ≫= k) w = k a w'.
Proof. intros H. rewrite bind_unfold, H. reflexivity. Qed.

Lemma bind_throw {A B} (c : M T A) (k : A → M T B) w e w' :
  c w = Throw e w' → (c ≫= k) w = Throw e w'.
Proof. intros H. rewrite bind_unfold, H. reflexivity. Qed.

Lemma bind_throw_inv {A B} (c : M T A) (k : A → M T B) w e w' :
  (c ≫= k) w = Throw e w' →
  c w = Throw e w' ∨ ∃ a w1, c w = Ret a w1 ∧ k a w1 = Throw e w'.
Proof.
  rewrite bind_unfold. destruct (c w) as [a w1|e1 w1| |]; intros H; try discriminate.
  - right. eauto.
  - left. injection H as -> ->. reflexivity.
Qed.

Lemma bind_ret_inv {A B} (c : M T A) (k : A → M T B) w b w' :
  (c ≫= k) w = Ret b w' → ∃ a w1, c w = Ret a w1 ∧ k a w1 = Ret b w'.
Proof.
  rewrite bind_unfold. destruct (c w) as [a w1|e1 w1| |]; intros H; try discriminate.
  eauto.
Qed.

Lemma no_throw_bind {A B} (c : M T A) (k : A → M T B) :
  no_throw c → (∀ a, no_throw (k a)) → no_throw (c ≫= k).
Proof.
  intros Hc Hk w e w' H. apply bind_throw_inv in H as [H|(a & w1 & _ & H)].
  - exact (Hc _ _ _ H).
  - exact (Hk _ _ _ _ H).
Qed.

Lemma no_throw_ret {A} (a : A) : no_throw (mret a : M T A).
Proof. intros w e w' H. discriminate. Qed.

Lemma read_only_no_throw {A} (c : M T A) : read_only c → no_throw c.
Proof. intros Hc w e w' H. destruct (Hc w) as [[a Ha]|[f Hf]]; congruence. Qed.

Lemma read_only_deref a : read_only (deref (T:=T) a).
Proof. intros w. unfold deref. destruct (nodes w !! a); eauto. Qed.

Lemma read_only_this q : read_only (this (T:=T) q).
Proof. intros w. unfold this. destruct (queues w !! q); eauto. Qed.

Lemma read_only_getNpl p : read_only (getNpl (T:=T) p).
Proof.
  intros w. destruct p as [a|]; simpl; [|left; eexists; reflexivity].
  rewrite bind_unfold. unfold deref. destruct (nodes w !! a); eauto.
Qed.

Lemma no_throw_update a f : no_throw (update (T:=T) a f).
Proof. intros w e w'. unfold update. destruct (nodes w !! a); discriminate. Qed.

Lemma no_throw_delete_Node a : no_throw (delete_Node (T:=T) a).
Proof.
  intros w e w'. unfold delete_Node.
  destruct (nodes w !! a); [discriminate|]. case_bool_decide; discriminate.
Qed.

Lemma no_throw_assign_members q f : no_throw (assign_members (T:=T) q f).
Proof. intros w e w'. unfold assign_members. destruct (queues w !! q); discriminate. Qed.

Lemma deref_bind_throw {B} a (k : Node T → M T B) w e w' :
  (deref a ≫= k) w = Throw e w' →
  ∃ n, nodes w !! a = Some n ∧ k n w = Throw e w'.
Proof.
  rewrite bind_unfold. unfold deref. destruct (nodes w !! a) as [n|]; [|discriminate].
  eauto.
Qed.

Lemma this_bind_throw {B} q (k : priority_queue T → M T B) w e w' :
  (this q ≫= k) w = Throw e w' →
  ∃ pq, queues w !! q = Some pq ∧ k pq w = Throw e w'.
Proof.
  rewrite bind_unfold. unfold this. destruct (queues w !! q) as [pq|]; [|discriminate].
  eauto.
Qed.

Lemma call_bind_throw {B} (lt : Compare T) x y (k : bool → M T B) w e w' :
  (call lt x y ≫= k) w = Throw e w' →
  (lt x y = None ∧ e = compare_error ∧ w' = w) ∨
  (∃ b, lt x y = Some b ∧ k b w = Throw e w').
Proof.
  rewrite bind_unfold. unfold call. destruct (lt x y) as [b|]; [eauto|].
  intros [= <- <-]. left. done.
Qed.

End monad_facts.

Create HintDb no_throw.
#[export] Hint Resolve no_throw_ret no_throw_update no_throw_delete_Node
  no_throw_assign_members read_only_deref read_only_this read_only_getNpl
  read_only_no_throw : no_throw.

Ltac solve_no_throw :=
  repeat first
    [ apply no_throw_bind; [|intros ?]
    | match goal with |- no_throw (if ?b then _ else _) => destruct b end
    | progress unfold set_left, set_right, set_npl, set_root, set_count, set_cmp
    | solve [eauto with no_throw] ].

(** ** Failure of the predicate leaves the store as it was *)

Section rollback.

Context {T : Type}.
Implicit Types (w : World T) (lt : Compare T).

(** [mergeNodes] compares on the way down and rewires on the way back up, so
    a throwing comparison is always reached before the first write. *)
Lemma mergeNodes_throw fuel lt h1 h2 w e w' :
  mergeNodes fuel lt h1 h2 w = Throw e w' →
  w' = w ∧ e = compare_error ∧ ∃ x y, lt x y = None.
Proof.
  revert h1 h2 w. induction fuel as [|fuel IH]; intros h1 h2 w H; [discriminate|].
  simpl in H. destruct h1 as [a1|], h2 as [a2|]; try discriminate.
  apply deref_bind_throw in H as (n1 & _ & H).
  apply deref_bind_throw in H as (n2 & _ & H).
  apply call_bind_throw in H as [(Hlt & -> & ->)|(b & _ & H)]; [by eauto|].
  apply deref_bind_throw in H as (n & _ & H).
  apply bind_throw_inv in H as [H|(r & w1 & _ & H)]; [by eapply IH|].
  exfalso. revert H. generalize w1 e w'. change (no_throw (T:=T)
    (set_right (if b then a2 else a1) r;;
     n ← deref (if b then a2 else a1); nl ← getNpl (left n); nr ← getNpl (right n);
     (if nl <? nr
      then n ← deref (if b then a2 else a1);
           set_left (if b then a2 else a1) (right n);;
           set_right (if b then a2 else a1) (left n)
      else mret ());;
     n ← deref (if b then a2 else a1); nr ← getNpl (right n);
     set_npl (if b then a2 else a1) (nr + 1);; mret (Some (if b then a2 else a1)))).
  solve_no_throw.
Qed.


Lemma assign_members_bind {B} q f pq (k : () → M T B) w :
  queues w !! q = Some pq →
  (assign_members q f ≫= k) w = k () (set_queues (<[q := f pq]> (queues w)) w).
Proof. intros Hq. rewrite bind_unfold. unfold assign_members. by rewrite Hq. Qed.

Lemma try_catch_throw_inv {A} (body handler : M T A) w ex w' :
  try_catch body handler w = Throw ex w' →
  ∃ e0 w2, body w = Throw e0 w2 ∧ handler w2 = Throw ex w'.
Proof. unfold try_catch. destruct (body w); try discriminate. eauto. Qed.

Lemma with_fuel_mergeNodes_throw_inv {B} lt h1 h2 (k : ptr → M T B) w e w' :
  (∀ r, no_throw (k r)) →
  (with_fuel (λ fuel, mergeNodes fuel lt h1 h2) ≫= k) w = Throw e w' →
  w' = w ∧ ∃ x y, lt x y = None.
Proof.
  intros Hk H. apply bind_throw_inv in H as [H|(r & w1 & _ & H)].
  - apply mergeNodes_throw in H as (-> & _ & Hxy). done.
  - by apply Hk in H.
Qed.

Lemma queue_eta (pq : priority_queue T) : mkQueue (root pq) (count pq) (cmp pq) = pq.
Proof. by destruct pq. Qed.

Lemma push_throw q e w ex w' :
  push q e w = Throw ex w' →
  (ex = bad_alloc ∧ nodes w' = nodes w ∧ queues w' = queues w) ∨
  (ex = runtime_error ∧ nodes w' = nodes w ∧ queues w' = queues w ∧
   ∃ pq x y, queues w !! q = Some pq ∧ cmp pq x y = None).
Proof.
  unfold push. intros H.
  apply bind_throw_inv in H as [H|(a & w1 & Hnew & H)].
  { left. unfold new_Node in H. case_match; inversion H; subst; done. }
  right.
  assert (nodes w !! a = None ∧ queues w1 = queues w ∧
          ∃ n, nodes w1 = <[a := n]> (nodes w)) as (Hfresh & Hq1 & n & Hn1).
  { unfold new_Node in Hnew. case_match; inversion Hnew; subst; simpl.
    split; [|eauto]. apply not_elem_of_dom, is_fresh. }
  apply this_bind_throw in H as (pq & Hq & H).
  apply try_catch_throw_inv in H as (e0 & w2 & Hbody & H).
  apply with_fuel_mergeNodes_throw_inv in Hbody as [-> Hthrew]; [|intros r; solve_no_throw].
  rewrite bind_unfold in H. unfold delete_Node in H. rewrite Hn1, lookup_insert_eq in H.
  rewrite delete_insert_id in H by done.
  unfold set_root, set_count in H.
  erewrite assign_members_bind in H by (simpl; exact Hq).
  erewrite assign_members_bind in H by (simpl; apply lookup_insert_eq).
  injection H as <- <-. simpl. rewrite insert_insert_eq, queue_eta, insert_id by done.
  rewrite <- Hq1. destruct Hthrew as (x & y & Hxy). eauto 10.
Qed.
Lemma pop_throw q w ex w' :
  pop q w = Throw ex w' →
  (ex = container_is_empty ∧ w' = w) ∨
  (ex = runtime_error ∧ nodes w' = nodes w ∧ queues w' = queues w ∧
   ∃ pq x y, queues w !! q = Some pq ∧ cmp pq x y = None).
Proof.
  unfold pop. intros H. apply this_bind_throw in H as (pq & Hq & H).
  destruct (root pq) as [oldRoot|] eqn:Hroot.
  2:{ left. injection H as <- <-. done. }
  right. apply deref_bind_throw in H as (n & Hn & H).
  apply try_catch_throw_inv in H as (e0 & w2 & Hbody & H).
  apply with_fuel_mergeNodes_throw_inv in Hbody as [-> Hthrew]; [|intros r; solve_no_throw].
  unfold set_root, set_count in H.
  erewrite assign_members_bind in H by (simpl; exact Hq).
  erewrite assign_members_bind in H by (simpl; apply lookup_insert_eq).
  injection H as <- <-. simpl. rewrite insert_insert_eq, <- Hroot, queue_eta, insert_id by done.
  destruct Hthrew as (x & y & Hxy). eauto 10.
Qed.

Lemma merge_throw q other w ex w' :
  merge q other w = Throw ex w' →
  ex = runtime_error ∧ nodes w' = nodes w ∧ queues w' = queues w ∧
  ∃ pq x y, queues w !! q = Some pq ∧ cmp pq x y = None.
Proof.
  unfold merge. intros H. case_decide as Hne; [discriminate|].
  apply this_bind_throw in H as (pq & Hq & H).
  apply this_bind_throw in H as (o & Ho & H).
  apply try_catch_throw_inv in H as (e0 & w2 & Hbody & H).
  apply this_bind_throw in Hbody as (o' & _ & Hbody).
  apply with_fuel_mergeNodes_throw_inv in Hbody as [-> Hthrew]; [|intros r; solve_no_throw].
  unfold set_root, set_count in H.
  erewrite assign_members_bind in H by (simpl; exact Hq).
  erewrite assign_members_bind in H by (simpl; rewrite lookup_insert_ne by done; exact Ho).
  erewrite assign_members_bind in H
    by (simpl; rewrite lookup_insert_ne by done; apply lookup_insert_eq).
  erewrite assign_members_bind in H
    by (simpl; rewrite lookup_insert_ne by done; apply lookup_insert_eq).
  injection H as <- <-. simpl.
  rewrite !queue_eta.
  do 2 rewrite (insert_id (queues w) q pq), (insert_id (queues w) other o) by done.
  destruct Hthrew as (x & y & Hxy). eauto 10.
Qed.

End rollback.


(** ** The functional model *)

Section shapes.

Context {T : Type}.
Implicit Types (x y z : T) (s l r : shape T) (less : Compare T).

Lemma merge_shapes_fork less x1 n1 l1 r1 x2 n2 l2 r2 :
  merge_shapes less (Fork x1 n1 l1 r1) (Fork x2 n2 l2 r2) =
  match less x1 x2 with
  | None => None
  | Some true => relink x2 l2 <$> merge_shapes less r2 (Fork x1 n1 l1 r1)
  | Some false => relink x1 l1 <$> merge_shapes less r1 (Fork x2 n2 l2 r2)
  end.
Proof. simp merge_shapes. destruct (less x1 x2) as [[]|]; reflexivity. Qed.

Lemma merge_shapes_nil_r less s : merge_shapes less s Nil = Some s.
Proof. destruct s; by simp merge_shapes. Qed.

Lemma relink_elements x l r : elements (relink x l r) ≡ₚ x :: elements l ++ elements r.
Proof.
  unfold relink. case_match; simpl; solve_Permutation.
Qed.

Lemma relink_weight x l r : weight (relink x l r) = S (weight l + weight r).
Proof. unfold relink. case_match; simpl; lia. Qed.

Lemma merge_shapes_elements less s1 s2 s :
  merge_shapes less s1 s2 = Some s → elements s ≡ₚ elements s1 ++ elements s2.
Proof.
  revert s. funelim (merge_shapes less s1 s2); intros s.
  - intros [= <-]. done.
  - intros [= <-]. by rewrite app_nil_r.
  - intros Hs. apply fmap_Some in Hs as (s' & Hs' & ->).
    rewrite relink_elements, (H _ Hs'). simpl. solve_Permutation.
  - intros Hs. apply fmap_Some in Hs as (s' & Hs' & ->).
    rewrite relink_elements, (H _ Hs'). simpl. solve_Permutation.
  - discriminate.
Qed.

Lemma merge_shapes_weight less s1 s2 s :
  merge_shapes less s1 s2 = Some s → weight s = (weight s1 + weight s2)%nat.
Proof.
  intros H. apply merge_shapes_elements, Permutation_length in H.
  revert H. rewrite length_app.
  assert (∀ s', length (elements s') = weight s') as Hlen.
  { induction s'; simpl; rewrite ?length_app; lia. }
  by rewrite !Hlen.
Qed.

Lemma merge_shapes_total less s1 s2 :
  (∀ x y, is_Some (less x y)) → is_Some (merge_shapes less s1 s2).
Proof.
  intros Htot. funelim (merge_shapes less s1 s2); try done.
  - destruct (H Htot) as [s Hs]. rewrite Hs. done.
  - destruct (H Htot) as [s Hs]. rewrite Hs. done.
  - destruct (Htot x1 x2) as [b Hb]. congruence.
Qed.

(** *** The leftist property *)

Lemma relink_leftist x l r : leftist l → leftist r → leftist (relink x l r).
Proof.
  intros Hl Hr. unfold relink. destruct (Z.ltb_spec (rank l) (rank r)); simpl; split_and!; auto; lia.
Qed.

Lemma merge_shapes_leftist less s1 s2 s :
  leftist s1 → leftist s2 → merge_shapes less s1 s2 = Some s → leftist s.
Proof.
  revert s. funelim (merge_shapes less s1 s2); intros s Hs1 Hs2 Hs.
  - by injection Hs as <-.
  - by injection Hs as <-.
  - apply fmap_Some in Hs as (s' & Hs' & ->). simpl in Hs2.
    apply relink_leftist; [tauto|]. eapply H; [tauto|done|done].
  - apply fmap_Some in Hs as (s' & Hs' & ->). simpl in Hs1.
    apply relink_leftist; [tauto|]. eapply H; [tauto|done|done].
  - discriminate.
Qed.

(** In a leftist tree the stored npl is the null path length, and a tree
    of npl [k] has at least [2^(k+1) - 1] nodes. *)
Lemma leftist_rank_npl s : leftist s → rank s = null_path_length s.
Proof.
  induction s as [|x n l IHl r IHr]; simpl; [done|].
  intros (Hle & -> & Hl & Hr). rewrite <- IHl, <- IHr by done. lia.
Qed.

Lemma leftist_rank_weight s :
  leftist s → -1 ≤ rank s ∧ 2 ^ (rank s + 1) ≤ Z.of_nat (weight s) + 1.
Proof.
  induction s as [|x n l IHl r IHr]; simpl; [intros _; split; [lia|done]|].
  intros (Hle & -> & Hl & Hr).
  destruct (IHl Hl) as [Hl0 Hl1], (IHr Hr) as [Hr0 Hr1].
  split; [lia|].
  replace (rank r + 1 + 1) with (Z.succ (rank r + 1)) by lia.
  rewrite Z.pow_succ_r by lia.
  assert (2 ^ (rank r + 1) ≤ 2 ^ (rank l + 1)) by (apply Z.pow_le_mono_r; lia).
  lia.
Qed.

(** The npl of a tree that fits a [size_t] count fits an [int]. *)
Lemma npl_fits_int s :
  leftist s → Z.of_nat (weight s) ≤ SIZE_MAX → -1 ≤ rank s < 64.
Proof.
  intros Hs Hw. destruct (leftist_rank_weight s Hs) as [H0 H1]. split; [done|].
  destruct (Z.lt_ge_cases (rank s) 64) as [|Hge]; [done|exfalso].
  assert (2 ^ 65 ≤ 2 ^ (rank s + 1)) by (apply Z.pow_le_mono_r; lia).
  unfold SIZE_MAX in Hw. lia.
Qed.

(** *** The heap property *)

Section ordering.

Variable less : Compare T.
Hypothesis Hswo : strict_weak_order less.

Lemma swo_asym x y : less x y = Some true → less y x = Some false.
Proof.
  intros Hxy. destruct (swo_total _ Hswo y x) as [[] Hyx]; [|done].
  pose proof (swo_trans _ Hswo _ _ _ Hxy Hyx) as Hxx.
  rewrite (swo_irrefl _ Hswo) in Hxx. discriminate.
Qed.

(** "Not smaller than" is transitive. *)
Lemma swo_not_less_trans x y z :
  less x y = Some false → less y z = Some false → less x z = Some false.
Proof.
  intros Hxy Hyz. destruct (swo_total _ Hswo x z) as [[] Hxz]; [exfalso|done].
  destruct (swo_total _ Hswo y x) as [[] Hyx].
  { pose proof (swo_trans _ Hswo _ _ _ Hyx Hxz). congruence. }
  destruct (swo_total _ Hswo z y) as [[] Hzy].
  { pose proof (swo_trans _ Hswo _ _ _ Hxz Hzy). congruence. }
  destruct (swo_equiv_trans _ Hswo x y z); congruence.
Qed.

Lemma relink_not_below x y l r : not_below less x (relink y l r) ↔ less x y = Some false.
Proof. unfold relink. by case_match. Qed.

Lemma merge_shapes_not_below x s1 s2 s :
  not_below less x s1 → not_below less x s2 →
  merge_shapes less s1 s2 = Some s → not_below less x s.
Proof.
  intros H1 H2 Hs. destruct s1 as [|x1 n1 l1 r1].
  { rewrite merge_shapes_equation_1 in Hs. by injection Hs as <-. }
  destruct s2 as [|x2 n2 l2 r2].
  { rewrite merge_shapes_nil_r in Hs. by injection Hs as <-. }
  rewrite merge_shapes_fork in Hs. destruct (less x1 x2) as [[]|]; [| |done].
  - apply fmap_Some in Hs as (s' & _ & ->). by apply relink_not_below.
  - apply fmap_Some in Hs as (s' & _ & ->). by apply relink_not_below.
Qed.

Lemma relink_heap_ordered x l r :
  not_below less x l → not_below less x r → heap_ordered less l → heap_ordered less r →
  heap_ordered less (relink x l r).
Proof. intros. unfold relink. case_match; simpl; auto. Qed.

(** The root of a heap-ordered tree is a maximum of its elements. *)
Lemma heap_ordered_root x n l r y :
  heap_ordered less (Fork x n l r) → y ∈ elements (Fork x n l r) → less x y = Some false.
Proof.
  assert (∀ s x, not_below less x s → heap_ordered less s →
            ∀ y, y ∈ elements s → less x y = Some false) as Hall.
  { induction s as [|x' n' l' IHl r' IHr]; intros x0 Hx Hs y0 Hy; simpl in *.
    { by apply elem_of_nil in Hy. }
    destruct Hs as (Hl & Hr & Hhl & Hhr).
    apply elem_of_cons in Hy as [->|Hy]; [done|].
    apply elem_of_app in Hy as [Hy|Hy].
    - eapply swo_not_less_trans; [exact Hx|]. by apply IHl.
    - eapply swo_not_less_trans; [exact Hx|]. by apply IHr. }
  intros (Hl & Hr & Hhl & Hhr) Hy. simpl in Hy.
  apply elem_of_cons in Hy as [->|Hy]; [apply (swo_irrefl _ Hswo)|].
  apply elem_of_app in Hy as [Hy|Hy]; eauto.
Qed.

End ordering.

Lemma merge_shapes_heap_ordered less s1 s2 s :
  strict_weak_order less →
  heap_ordered less s1 → heap_ordered less s2 →
  merge_shapes less s1 s2 = Some s → heap_ordered less s.
Proof.
  intros Hswo. revert s. funelim (merge_shapes less s1 s2); intros s Hs1 Hs2 Hs.
  - by injection Hs as <-.
  - by injection Hs as <-.
  - apply fmap_Some in Hs as (s' & Hs' & ->).
    destruct Hs2 as (Hl & Hr & Hhl & Hhr).
    apply relink_heap_ordered; [done| |done|by eapply H].
    eapply merge_shapes_not_below; [done| |done]. simpl. by apply swo_asym.
  - apply fmap_Some in Hs as (s' & Hs' & ->).
    destruct Hs1 as (Hl & Hr & Hhl & Hhr).
    apply relink_heap_ordered; [done| |done|by eapply H].
    eapply merge_shapes_not_below; [done| |done]. done.
  - discriminate.
Qed.


(** *** Popping in order *)

Lemma elements_length s : length (elements s) = weight s.
Proof. induction s; simpl; rewrite ?length_app; lia. Qed.

Lemma pop_sequence_upto_sorted less n s :
  strict_weak_order less → heap_ordered less s → (weight s ≤ n)%nat →
  pop_sequence_upto n less s ≡ₚ elements s ∧
  StronglySorted (λ a b, less a b = Some false) (pop_sequence_upto n less s).
Proof.
  intros Hswo. revert s. induction n as [|n IH]; intros s Hs Hn.
  { destruct s; simpl in *; [|lia]. split; [done|constructor]. }
  destruct s as [|x k l r]; simpl; [split; [done|constructor]|].
  destruct (merge_shapes_total less l r (swo_total _ Hswo)) as [s' Hs']. rewrite Hs'.
  pose proof (merge_shapes_elements _ _ _ _ Hs') as Hperm.
  pose proof (merge_shapes_weight _ _ _ _ Hs') as Hw.
  destruct (IH s') as [IHp IHs].
  { destruct Hs as (_ & _ & Hl & Hr). by apply (merge_shapes_heap_ordered less l r). }
  { simpl in Hn. lia. }
  split; [by rewrite IHp, Hperm|].
  constructor; [done|]. apply Forall_forall. intros y Hy.
  apply (heap_ordered_root less Hswo x k l r); [done|].
  simpl. right. by rewrite <- Hperm, <- IHp.
Qed.

Lemma pop_sequence_sorted less s :
  strict_weak_order less → heap_ordered less s →
  pop_sequence less s ≡ₚ elements s ∧
  StronglySorted (λ a b, less a b = Some false) (pop_sequence less s).
Proof. intros ??. unfold pop_sequence. by apply pop_sequence_upto_sorted. Qed.

(** More fuel than nodes changes nothing. *)
Lemma pop_sequence_upto_enough less n s :
  (weight s ≤ n)%nat → pop_sequence_upto n less s = pop_sequence less s.
Proof.
  unfold pop_sequence. generalize (Nat.le_refl (weight s)).
  generalize (weight s) at 2 4 as m. revert s.
  induction n as [|n IH]; intros s m Hm Hn.
  { destruct s; [|simpl in Hn; lia]. by destruct m. }
  destruct s as [|x j l r]; [by destruct m|]. destruct m as [|m]; [simpl in Hm; lia|].
  simpl. destruct (merge_shapes less l r) as [s'|] eqn:Hs'; [|done]. f_equal.
  apply merge_shapes_weight in Hs'. simpl in Hm, Hn. apply IH; lia.
Qed.

End shapes.

(** ** Trees in the store *)

Section store.

Context {T : Type}.
Implicit Types (w : World T) (m : gmap addr (Node T)) (t l r : tree T) (less : Compare T).

Lemma deref_bind {B} a n (k : Node T → M T B) w :
  nodes w !! a = Some n → (deref a ≫= k) w = k n w.
Proof. intros H. rewrite bind_unfold. unfold deref. by rewrite H. Qed.

Lemma update_bind {B} a f n (k : () → M T B) w :
  nodes w !! a = Some n →
  (update a f ≫= k) w = k () (set_nodes (<[a := f n]> (nodes w)) w).
Proof. intros H. rewrite bind_unfold. unfold update. by rewrite H. Qed.

Lemma delete_Node_bind {B} a n (k : () → M T B) w :
  nodes w !! a = Some n →
  (delete_Node a ≫= k) w =
  k () (mkWorld (delete a (nodes w)) (queues w) (a :: released w) (new_ok w)).
Proof. intros H. rewrite bind_unfold. unfold delete_Node. by rewrite H. Qed.

Lemma this_bind {B} q pq (k : priority_queue T → M T B) w :
  queues w !! q = Some pq → (this q ≫= k) w = k pq w.
Proof. intros H. rewrite bind_unfold. unfold this. by rewrite H. Qed.

Lemma call_bind {B} less x y b (k : bool → M T B) w :
  less x y = Some b → (call less x y ≫= k) w = k b w.
Proof. intros H. rewrite bind_unfold. unfold call. by rewrite H. Qed.

Lemma bind_assoc {A B C} (c : M T A) (f : A → M T B) (g : B → M T C) w :
  ((c ≫= f) ≫= g) w = (c ≫= λ a, f a ≫= g) w.
Proof. rewrite !bind_unfold. by destruct (c w). Qed.

Lemma ret_bind {A B} (a : A) (k : A → M T B) w : (mret a ≫= k) w = k a w.
Proof. reflexivity. Qed.

Lemma world_eta w : set_nodes (nodes w) w = w.
Proof. by destruct w. Qed.

Lemma addrs_length t : length (addrs t) = weight (shape_of t).
Proof. induction t; simpl; rewrite ?length_app; lia. Qed.

Lemma own_frame m m' t :
  own m t → (∀ a, a ∈ addrs t → m' !! a = m !! a) → own m' t.
Proof.
  induction t as [|a x n l IHl r IHr]; simpl; [done|].
  intros (Ha & Hl & Hr) Hm. split_and!.
  - rewrite Hm; [done|]. left.
  - apply IHl; [done|]. intros b Hb. apply Hm. right. apply elem_of_app. by left.
  - apply IHr; [done|]. intros b Hb. apply Hm. right. apply elem_of_app. by right.
Qed.

Lemma own_insert m t a n : own m t → a ∉ addrs t → own (<[a := n]> m) t.
Proof.
  intros Ht Ha. eapply own_frame; [done|]. intros b Hb.
  apply lookup_insert_ne. by intros ->.
Qed.

Lemma own_lookup m t a : own m t → a ∈ addrs t → is_Some (m !! a).
Proof.
  induction t as [|a' x n l IHl r IHr]; simpl; [by intros _ ?%elem_of_nil|].
  intros (Ha & Hl & Hr) [->|[?|?]%elem_of_app]%elem_of_cons; eauto.
Qed.

Lemma own_stored_npl m t : own m t → stored_npl m (rootp t) = rank (shape_of t).
Proof. destruct t; simpl; [done|]. by intros (-> & _). Qed.

Lemma getNpl_bind {B} t (k : Z → M T B) w :
  own (nodes w) t → (getNpl (rootp t) ≫= k) w = k (rank (shape_of t)) w.
Proof.
  destruct t as [|a x n l r]; simpl; [done|]. intros (Ha & _).
  rewrite bind_unfold. by rewrite (deref_bind _ _ _ _ Ha).
Qed.

(** The tree below a pointer is determined by the store. *)
Lemma own_unique m t t' : own m t → own m t' → rootp t = rootp t' → t = t'.
Proof.
  revert t'. induction t as [|a x n l IHl r IHr]; intros [|a' x' n' l' r']; simpl; try done.
  intros (Ha & Hl & Hr) (Ha' & Hl' & Hr') [= <-].
  rewrite Ha in Ha'. injection Ha' as <- Hrl Hrr <-.
  by rewrite (IHl l'), (IHr r').
Qed.

Lemma own_reaches m t b : own m t → reaches m (rootp t) b ↔ b ∈ addrs t.
Proof.
  revert b. induction t as [|a x n l IHl r IHr]; intros b; simpl.
  { intros _. split; [inversion 1|by intros ?%elem_of_nil]. }
  intros (Ha & Hl & Hr). rewrite elem_of_cons, elem_of_app, <- IHl, <- IHr by done.
  split.
  - inversion 1 as [? n' Hn|? n' ? Hn Hreach|? n' ? Hn Hreach]; subst; auto;
      rewrite Ha in Hn; injection Hn as <-; simpl in Hreach; auto.
  - intros [->|[H|H]].
    + by eapply reaches_here.
    + by eapply reaches_left.
    + by eapply reaches_right.
Qed.

(** A tree without sharing has no more nodes than the store. *)
Lemma own_size m t :
  own m t → NoDup (addrs t) → (weight (shape_of t) ≤ base.size m)%nat.
Proof.
  intros Ht Hnd. rewrite <- addrs_length, <- size_dom.
  rewrite <- (size_list_to_set (C:=gset addr) (addrs t)) by done.
  apply subseteq_size. intros a Ha%elem_of_list_to_set.
  apply elem_of_dom. by eapply own_lookup.
Qed.

(** *** [mergeNodes] refines [merge_shapes] *)

Lemma mergeNodes_unfold fuel less a1 a2 :
  mergeNodes (S fuel) less (Some a1) (Some a2) =
  (n1 ← deref a1; n2 ← deref a2;
   b ← call less (data n1) (data n2);
   n ← deref (if (b : bool) then a2 else a1);
   r ← mergeNodes fuel less (right n) (Some (if (b : bool) then a1 else a2));
   relink_nodes (if (b : bool) then a2 else a1) r).
Proof. reflexivity. Qed.

Lemma relink_nodes_spec a x l r p0 n0 m w :
  m !! a = Some (mkNode x (rootp l) p0 n0) → own m l → own m r →
  a ∉ addrs l → a ∉ addrs r →
  ∃ t m', relink_nodes a (rootp r) (set_nodes m w) = Ret (rootp t) (set_nodes m' w) ∧
          shape_of t = relink x (shape_of l) (shape_of r) ∧
          own m' t ∧ addrs t ≡ₚ a :: addrs l ++ addrs r ∧
          (∀ b, b ≠ a → m' !! b = m !! b) ∧ dom m' = dom m.
Proof.
  intros Ha Hl Hr Hal Har. unfold relink_nodes, set_right, set_left, set_npl.
  erewrite update_bind by exact Ha. simpl.
  erewrite deref_bind by (simpl; apply lookup_insert_eq). simpl.
  rewrite (getNpl_bind l) by (by apply own_insert).
  rewrite (getNpl_bind r) by (by apply own_insert).
  unfold relink. destruct (rank (shape_of l) <? rank (shape_of r)) eqn:Hlt.
  - rewrite bind_assoc.
    erewrite deref_bind by (simpl; apply lookup_insert_eq). simpl.
    rewrite bind_assoc.
    erewrite update_bind by (simpl; apply lookup_insert_eq). simpl.
    erewrite update_bind by (simpl; apply lookup_insert_eq). simpl.
    erewrite deref_bind by (simpl; apply lookup_insert_eq). simpl.
    rewrite (getNpl_bind l) by (simpl; rewrite !insert_insert_eq; by apply own_insert).
    erewrite update_bind by (simpl; apply lookup_insert_eq). simpl.
    rewrite !insert_insert_eq.
    exists (Br a x (rank (shape_of l) + 1) r l), (<[a := mkNode x (rootp r) (rootp l) (rank (shape_of l) + 1)]> m).
    split_and!; [done|done| |solve_Permutation| |].
    + simpl. rewrite lookup_insert_eq. split_and!; [done|by apply own_insert..].
    + intros b Hb. by apply lookup_insert_ne.
    + by apply dom_insert_lookup_L.
  - rewrite ret_bind.
    erewrite deref_bind by (simpl; apply lookup_insert_eq). simpl.
    rewrite (getNpl_bind r) by (by apply own_insert).
    erewrite update_bind by (simpl; apply lookup_insert_eq). simpl.
    rewrite !insert_insert_eq.
    exists (Br a x (rank (shape_of r) + 1) l r), (<[a := mkNode x (rootp l) (rootp r) (rank (shape_of r) + 1)]> m).
    split_and!; [done|done| |done| |].
    + simpl. rewrite lookup_insert_eq. split_and!; [done|by apply own_insert..].
    + intros b Hb. by apply lookup_insert_ne.
    + by apply dom_insert_lookup_L.
Qed.

(** The winner [aw] takes the merge of its right subtree with the loser. *)
Lemma mergeNodes_winner fuel less aw xw nw lw rw tl w :
  mergeNodes_refines fuel less rw tl w →
  own (nodes w) (Br aw xw nw lw rw) → own (nodes w) tl →
  NoDup (aw :: addrs lw ++ addrs rw ++ addrs tl) →
  match relink xw (shape_of lw) <$> merge_shapes less (shape_of rw) (shape_of tl) with
  | None =>
    (r ← mergeNodes fuel less (rootp rw) (rootp tl); relink_nodes aw r) w =
    Throw compare_error w
  | Some s =>
    ∃ t m', (r ← mergeNodes fuel less (rootp rw) (rootp tl); relink_nodes aw r) w =
            Ret (rootp t) (set_nodes m' w) ∧
            shape_of t = s ∧ own m' t ∧
            addrs t ≡ₚ aw :: addrs lw ++ addrs rw ++ addrs tl ∧
            (∀ b, b ∉ aw :: addrs lw ++ addrs rw ++ addrs tl → m' !! b = nodes w !! b) ∧
            dom m' = dom (nodes w)
  end.
Proof.
  unfold mergeNodes_refines. intros Hrec (Haw & Hlw & Hrw) Htl Hnd.
  apply NoDup_cons in Hnd as [Haw' Hnd]. apply NoDup_app in Hnd as (_ & Hdisj & _).
  destruct (merge_shapes less (shape_of rw) (shape_of tl)) as [s'|]; simpl.
  2:{ by rewrite bind_unfold, Hrec. }
  destruct Hrec as (t' & m1 & Hrun & <- & Hown & Hperm & Hframe & Hdom).
  destruct (relink_nodes_spec aw xw lw t' (rootp rw) nw m1 w) as (t & m' & Hrun' & Hs & Ht & Hp & Hf & Hd).
  - rewrite Hframe; [done|]. intros Hin. apply Haw'. apply elem_of_app. by right.
  - eapply own_frame; [exact Hlw|]. intros b Hb. apply Hframe. by apply Hdisj.
  - done.
  - intros Hin. apply Haw'. apply elem_of_app. by left.
  - rewrite Hperm. intros Hin. apply Haw'. apply elem_of_app. by right.
  - exists t, m'. rewrite bind_unfold, Hrun. split_and!; [done|done|done| | |congruence].
    + by rewrite Hp, Hperm.
    + intros b Hb. rewrite Hf; [apply Hframe|].
      * intros Hin. apply Hb. right. apply elem_of_app. by right.
      * intros ->. apply Hb. left.
Qed.

Lemma mergeNodes_spec fuel less t1 t2 w :
  own (nodes w) t1 → own (nodes w) t2 → NoDup (addrs t1 ++ addrs t2) →
  (weight (shape_of t1) + weight (shape_of t2) < fuel)%nat →
  mergeNodes_refines fuel less t1 t2 w.
Proof.
  revert t1 t2 w. induction fuel as [|fuel IH]; intros t1 t2 w H1 H2 Hnd Hfuel; [lia|].
  unfold mergeNodes_refines. destruct t1 as [|a1 x1 n1 l1 r1].
  { simpl shape_of. rewrite merge_shapes_equation_1. exists t2, (nodes w).
    rewrite world_eta. by destruct t2. }
  destruct t2 as [|a2 x2 n2 l2 r2].
  { simpl shape_of. rewrite merge_shapes_nil_r. exists (Br a1 x1 n1 l1 r1), (nodes w).
    rewrite world_eta, app_nil_r. done. }
  pose proof H1 as (Ha1 & Hl1 & Hr1). pose proof H2 as (Ha2 & Hl2 & Hr2).
  change (rootp (Br a1 x1 n1 l1 r1)) with (Some a1).
  change (rootp (Br a2 x2 n2 l2 r2)) with (Some a2).
  rewrite mergeNodes_unfold. simpl shape_of. rewrite merge_shapes_fork.
  rewrite (deref_bind _ _ _ _ Ha1), (deref_bind _ _ _ _ Ha2). simpl data.
  simpl in Hfuel.
  destruct (less x1 x2) as [[]|] eqn:Hless.
  - (* the second root wins *)
    rewrite (call_bind _ _ _ _ _ _ Hless), (deref_bind _ _ _ _ Ha2). simpl right.
    assert (aw_perm : a2 :: addrs l2 ++ addrs r2 ++ addrs (Br a1 x1 n1 l1 r1) ≡ₚ
                      addrs (Br a1 x1 n1 l1 r1) ++ addrs (Br a2 x2 n2 l2 r2)).
    { simpl. solve_Permutation. }
    assert (NoDup (a2 :: addrs l2 ++ addrs r2 ++ addrs (Br a1 x1 n1 l1 r1))) as Hnd'.
    { by rewrite aw_perm. }
    pose proof (mergeNodes_winner fuel less a2 x2 n2 l2 r2 (Br a1 x1 n1 l1 r1) w) as Hw.
    simpl shape_of in Hw. simpl rootp in Hw.
    destruct (relink x2 (shape_of l2) <$> merge_shapes less (shape_of r2) (Fork x1 n1 (shape_of l1) (shape_of r1))) as [s|].
    + destruct Hw as (t & m' & Hrun & Hs & Hown & Hperm & Hframe & Hdom); [|done|done|done|].
      { apply (IH r2 (Br a1 x1 n1 l1 r1)); [done|done| |simpl; lia].
        apply NoDup_cons in Hnd' as [_ Hnd']. by apply NoDup_app in Hnd' as (_ & _ & ?). }
      exists t, m'. split_and!; [done|done|done| | |done].
      * by rewrite Hperm, aw_perm.
      * intros b Hb. apply Hframe. by rewrite aw_perm.
    + apply Hw; [|done|done|done].
      apply (IH r2 (Br a1 x1 n1 l1 r1)); [done|done| |simpl; lia].
      apply NoDup_cons in Hnd' as [_ Hnd']. by apply NoDup_app in Hnd' as (_ & _ & ?).
  - (* the first root stays on top *)
    rewrite (call_bind _ _ _ _ _ _ Hless), (deref_bind _ _ _ _ Ha1). simpl right.
    assert (aw_perm : a1 :: addrs l1 ++ addrs r1 ++ addrs (Br a2 x2 n2 l2 r2) ≡ₚ
                      addrs (Br a1 x1 n1 l1 r1) ++ addrs (Br a2 x2 n2 l2 r2)).
    { simpl. solve_Permutation. }
    assert (NoDup (a1 :: addrs l1 ++ addrs r1 ++ addrs (Br a2 x2 n2 l2 r2))) as Hnd'.
    { by rewrite aw_perm. }
    pose proof (mergeNodes_winner fuel less a1 x1 n1 l1 r1 (Br a2 x2 n2 l2 r2) w) as Hw.
    simpl shape_of in Hw. simpl rootp in Hw.
    destruct (relink x1 (shape_of l1) <$> merge_shapes less (shape_of r1) (Fork x2 n2 (shape_of l2) (shape_of r2))) as [s|].
    + destruct Hw as (t & m' & Hrun & Hs & Hown & Hperm & Hframe & Hdom); [|done|done|done|].
      { apply (IH r1 (Br a2 x2 n2 l2 r2)); [done|done| |simpl; lia].
        apply NoDup_cons in Hnd' as [_ Hnd']. by apply NoDup_app in Hnd' as (_ & _ & ?). }
      exists t, m'. split_and!; [done|done|done| | |done].
      * by rewrite Hperm, aw_perm.
      * intros b Hb. apply Hframe. by rewrite aw_perm.
    + apply Hw; [|done|done|done].
      apply (IH r1 (Br a2 x2 n2 l2 r2)); [done|done| |simpl; lia].
      apply NoDup_cons in Hnd' as [_ Hnd']. by apply NoDup_app in Hnd' as (_ & _ & ?).
  - by rewrite bind_unfold; unfold call; rewrite Hless.
Qed.

End store.

(** ** Teardown and deep copy *)

Section teardown_and_copy.

Context {T : Type}.
Implicit Types (w : World T) (m : gmap addr (Node T)) (t l r : tree T).

Lemma deleteTree_spec fuel t w :
  own (nodes w) t → NoDup (addrs t) → (weight (shape_of t) < fuel)%nat →
  ∃ w', deleteTree fuel (rootp t) w = Ret () w' ∧
        queues w' = queues w ∧ new_ok w' = new_ok w ∧
        (∀ a, a ∈ addrs t → nodes w' !! a = None) ∧
        (∀ a, a ∉ addrs t → nodes w' !! a = nodes w !! a).
Proof.
  revert t w. induction fuel as [|fuel IH]; intros t w Ht Hnd Hfuel; [lia|].
  destruct t as [|a x n l r]; simpl.
  { exists w. split_and!; try done. by intros a ?%elem_of_nil. }
  destruct Ht as (Ha & Hl & Hr). simpl in Hfuel.
  apply NoDup_cons in Hnd as [Hnotin Hnd]. apply NoDup_app in Hnd as (Hndl & Hdisj & Hndr).
  rewrite (deref_bind _ _ _ _ Ha). simpl left.
  destruct (IH l w) as (w1 & Hrun1 & Hq1 & Ho1 & Hgone1 & Hkeep1); [done|done|lia|].
  rewrite bind_unfold, Hrun1.
  assert (nodes w1 !! a = Some (mkNode x (rootp l) (rootp r) n)) as Ha1.
  { rewrite Hkeep1; [done|]. intros Hin. apply Hnotin, elem_of_app. by left. }
  rewrite (deref_bind _ _ _ _ Ha1). simpl right.
  destruct (IH r w1) as (w2 & Hrun2 & Hq2 & Ho2 & Hgone2 & Hkeep2); [|done|lia|].
  { eapply own_frame; [exact Hr|]. intros b Hb. apply Hkeep1. intros Hin. by apply (Hdisj b). }
  rewrite bind_unfold, Hrun2.
  assert (nodes w2 !! a = Some (mkNode x (rootp l) (rootp r) n)) as Ha2.
  { rewrite Hkeep2; [done|]. intros Hin. apply Hnotin, elem_of_app. by right. }
  unfold delete_Node. rewrite Ha2. eexists. split; [done|]. simpl.
  split_and!; [congruence|congruence| |].
  - intros b [->|[Hb|Hb]%elem_of_app]%elem_of_cons.
    + apply lookup_delete_eq.
    + destruct (decide (b = a)) as [->|Hne]; [apply lookup_delete_eq|].
      rewrite lookup_delete_ne by done.
      rewrite Hkeep2 by (intros Hin; by apply (Hdisj b)). by apply Hgone1.
    + destruct (decide (b = a)) as [->|Hne]; [apply lookup_delete_eq|].
      rewrite lookup_delete_ne by done. by apply Hgone2.
  - intros b Hb. rewrite not_elem_of_cons, not_elem_of_app in Hb.
    destruct Hb as (Hne & Hbl & Hbr).
    rewrite lookup_delete_ne by done. by rewrite Hkeep2, Hkeep1.
Qed.

Lemma bind_fault {A B} (c : M T A) (k : A → M T B) w f :
  c w = Fault f → (c ≫= k) w = Fault f.
Proof. intros H. by rewrite bind_unfold, H. Qed.

Lemma catch_rethrow_ret {A} (body : M T A) cleanup w a w' :
  body w = Ret a w' → catch_rethrow body cleanup w = Ret a w'.
Proof. intros H. unfold catch_rethrow. by rewrite H. Qed.

Lemma catch_rethrow_throw {A} (body : M T A) cleanup w e w' :
  body w = Throw e w' → catch_rethrow body cleanup w = (cleanup;; throw e) w'.
Proof. intros H. unfold catch_rethrow. by rewrite H. Qed.

Lemma catch_rethrow_fault {A} (body : M T A) cleanup w f :
  body w = Fault f → catch_rethrow body cleanup w = Fault f.
Proof. intros H. unfold catch_rethrow. by rewrite H. Qed.

Lemma new_Node_spec d w :
  (∃ w1, new_Node d w = Throw bad_alloc w1 ∧ nodes w1 = nodes w ∧ queues w1 = queues w) ∨
  (∃ a w1, new_Node d w = Ret a w1 ∧ nodes w !! a = None ∧
           nodes w1 = <[a := mkNode d None None 0]> (nodes w) ∧
           queues w1 = queues w ∧ released w1 = released w ∧
           Z.of_nat (base.size (nodes w)) < SIZE_MAX).
Proof.
  unfold new_Node.
  destruct (match new_ok w with [] => true | b :: _ => b end); simpl; [|left; eauto].
  destruct (Z.ltb_spec (Z.of_nat (base.size (nodes w))) SIZE_MAX); [|left; eauto].
  right. eexists _, _. split_and!; try done. apply not_elem_of_dom, is_fresh.
Qed.

Lemma copyTree_unfold fuel a :
  copyTree (S fuel) (Some a) =
  (n ← deref a;
   newNode ← new_Node (data n);
   n ← deref a; set_npl newNode (npl n);;
   catch_rethrow
     (n ← deref a; l ← copyTree fuel (left n); set_left newNode l;;
      catch_rethrow
        (n ← deref a; r ← copyTree fuel (right n); set_right newNode r)
        (nn ← deref newNode; deleteTree fuel (left nn);;
         delete_Node newNode))
     (delete_Node newNode);;
   mret (Some newNode) : M T ptr).
Proof. reflexivity. Qed.

Lemma copyTree_spec fuel t w :
  own (nodes w) t → (weight (shape_of t) < fuel)%nat →
  Z.of_nat (base.size (nodes w)) ≤ SIZE_MAX →
  (∃ t' w', copyTree fuel (rootp t) w = Ret (rootp t') w' ∧
            shape_of t' = shape_of t ∧ own (nodes w') t' ∧ NoDup (addrs t') ∧
            (∀ a, a ∈ addrs t' → nodes w !! a = None) ∧
            (∀ a, a ∉ addrs t' → nodes w' !! a = nodes w !! a) ∧
            queues w' = queues w ∧ Z.of_nat (base.size (nodes w')) ≤ SIZE_MAX) ∨
  (∃ w', copyTree fuel (rootp t) w = Throw bad_alloc w' ∧
         nodes w' = nodes w ∧ queues w' = queues w) ∨
  (∃ a, copyTree fuel (rootp t) w = Fault (DoubleDelete a)).
Proof.
  revert t w. induction fuel as [|fuel IH]; intros t w Ht Hfuel Hcap; [lia|].
  destruct t as [|a x n l r].
  { left. exists Leaf, w. simpl. split_and!; try done; [constructor|by intros ? ?%elem_of_nil]. }
  destruct Ht as (Ha & Hl & Hr). simpl in Hfuel.
  change (rootp (Br a x n l r)) with (Some a). rewrite copyTree_unfold.
  rewrite (deref_bind _ _ _ _ Ha). simpl data.
  destruct (new_Node_spec x w) as [(w1 & Hnew & Hn1 & Hq1)|(a' & w1 & Hnew & Hfresh & Hn1 & Hq1 & Hrel1 & Hroom)].
  { right; left. exists w1. by rewrite (bind_throw _ _ _ _ _ Hnew). }
  rewrite (bind_ret _ _ _ _ _ Hnew).
  assert (a ≠ a') as Hne by (intros ->; congruence).
  assert (∀ t0, own (nodes w) t0 → a' ∉ addrs t0) as Hout.
  { intros t0 Ht0 Hin. destruct (own_lookup _ _ _ Ht0 Hin) as [? ?]. congruence. }
  erewrite deref_bind by (rewrite Hn1, lookup_insert_ne by done; exact Ha). simpl npl.
  unfold set_npl. erewrite update_bind by (rewrite Hn1; apply lookup_insert_eq). simpl.
  rewrite Hn1, insert_insert_eq.
  set (m2 := <[a' := mkNode x None None n]> (nodes w)).
  set (w2 := set_nodes m2 w1).
  assert (nodes w2 !! a = Some (mkNode x (rootp l) (rootp r) n)) as Ha2.
  { simpl. unfold m2. by rewrite lookup_insert_ne. }
  assert (own m2 l ∧ own m2 r) as [Hl2 Hr2] by (split; apply own_insert; eauto).
  assert (Z.of_nat (base.size m2) ≤ SIZE_MAX) as Hcap2.
  { unfold m2. rewrite map_size_insert_None by done. lia. }
  destruct (IH l w2 Hl2 ltac:(lia) Hcap2) as
    [(l' & w3 & Hrun & Hshape & Hown & Hnd & Hnew3 & Hkeep3 & Hq3 & Hcap3)
    |[(w3 & Hrun & Hn3 & Hq3)|(b & Hrun)]].
  3:{ right; right. exists b. apply bind_fault, catch_rethrow_fault.
      rewrite (deref_bind _ _ _ _ Ha2). by apply bind_fault. }
  2:{ (* the left copy fails: the outer handler releases the new node *)
      right; left. rewrite bind_unfold.
      erewrite catch_rethrow_throw
        by (rewrite (deref_bind _ _ _ _ Ha2); apply bind_throw; exact Hrun).
      erewrite delete_Node_bind by (rewrite Hn3; simpl; apply lookup_insert_eq).
      eexists. split; [done|]. simpl. rewrite Hn3. simpl. unfold m2.
      rewrite delete_insert_id by done. simpl in Hq3. split; congruence. }
  (* the left copy is in place *)
  assert (a' ∉ addrs l') as Hal'.
  { intros Hin. apply Hnew3 in Hin. simpl in Hin. unfold m2 in Hin.
    by rewrite lookup_insert_eq in Hin. }
  assert (∀ b, b ∈ addrs l' → nodes w !! b = None) as Hnewl.
  { intros b Hb. pose proof (Hnew3 b Hb) as Hnone. simpl in Hnone. unfold m2 in Hnone.
    rewrite lookup_insert_ne in Hnone; [done|]. by intros <-. }
  assert (nodes w3 !! a' = Some (mkNode x None None n)) as Ha3.
  { rewrite Hkeep3 by done. simpl. unfold m2. apply lookup_insert_eq. }
  set (m4 := <[a' := mkNode x (rootp l') None n]> (nodes w3)).
  set (w4 := set_nodes m4 w3).
  assert (∀ t0, own (nodes w) t0 → own m4 t0) as Hold4.
  { intros t0 Ht0. apply own_insert; [|eauto]. eapply own_frame; [exact Ht0|].
    intros b Hb. rewrite Hkeep3.
    - simpl. unfold m2. apply lookup_insert_ne. intros <-. by apply (Hout t0).
    - intros Hin. apply Hnewl in Hin. destruct (own_lookup _ _ _ Ht0 Hb). congruence. }
  assert (nodes w4 !! a = Some (mkNode x (rootp l) (rootp r) n)) as Ha4.
  { pose proof (Hold4 (Br a x n l r)) as Hx. simpl in Hx. apply Hx. done. }
  assert (Z.of_nat (base.size m4) ≤ SIZE_MAX) as Hcap4.
  { unfold m4. rewrite map_size_insert_Some by done. done. }
  destruct (IH r w4 (Hold4 r Hr) ltac:(lia) Hcap4) as
    [(r' & w5 & Hrun5 & Hshape5 & Hown5 & Hnd5 & Hnew5 & Hkeep5 & Hq5 & Hcap5)
    |[(w5 & Hrun5 & Hn5 & Hq5)|(b & Hrun5)]].
  3:{ right; right. exists b. apply bind_fault, catch_rethrow_fault.
      rewrite (deref_bind _ _ _ _ Ha2). rewrite (bind_ret _ _ _ _ _ Hrun).
      unfold set_left. erewrite update_bind by exact Ha3. simpl.
      apply catch_rethrow_fault. fold m4. fold w4.
      rewrite (deref_bind _ _ _ _ Ha4). by apply bind_fault. }
  2:{ (* the right copy fails: the inner handler releases the left copy and
         the new node, and the outer handler releases the new node again *)
      right; right. exists a'. apply bind_fault.
      assert (own (nodes w5) l' ∧ nodes w5 !! a' = Some (mkNode x (rootp l') None n))
        as [Hl5 Ha5].
      { rewrite Hn5. simpl. split; [by apply own_insert|apply lookup_insert_eq]. }
      destruct (deleteTree_spec fuel l' w5) as (w6 & Hrun6 & Hq6 & Ho6 & Hgone6 & Hkeep6);
        [done|done|rewrite Hshape; lia|].
      erewrite catch_rethrow_throw.
      2:{ rewrite (deref_bind _ _ _ _ Ha2). rewrite (bind_ret _ _ _ _ _ Hrun).
          unfold set_left. erewrite update_bind by exact Ha3. simpl. fold m4. fold w4.
          erewrite catch_rethrow_throw
            by (rewrite (deref_bind _ _ _ _ Ha4); apply bind_throw; exact Hrun5).
          rewrite bind_assoc. rewrite (deref_bind _ _ _ _ Ha5). simpl left.
          rewrite bind_assoc. rewrite (bind_ret _ _ _ _ _ Hrun6).
          erewrite delete_Node_bind by (rewrite Hkeep6 by done; exact Ha5).
          reflexivity. }
      unfold delete_Node at 1. rewrite bind_unfold. simpl.
      rewrite lookup_delete_eq. rewrite bool_decide_eq_true_2 by left. done. }
  (* both copies are in place *)
  assert (∀ b, b ∈ addrs r' → m4 !! b = None) as Hnew5' by exact Hnew5.
  assert (a' ∉ addrs r') as Har'.
  { intros Hin. apply Hnew5' in Hin. unfold m4 in Hin. by rewrite lookup_insert_eq in Hin. }
  assert (own m4 l') as Hl4 by (by apply own_insert).
  assert (∀ b, b ∈ addrs l' → b ∉ addrs r') as Hdisj.
  { intros b Hb Hin. apply Hnew5' in Hin. destruct (own_lookup _ _ _ Hl4 Hb). congruence. }
  assert (nodes w5 !! a' = Some (mkNode x (rootp l') None n)) as Ha5.
  { rewrite Hkeep5 by done. simpl. unfold m4. apply lookup_insert_eq. }
  left. exists (Br a' x n l' r').
  eexists. split.
  { rewrite bind_unfold. erewrite catch_rethrow_ret; [reflexivity|].
    rewrite (deref_bind _ _ _ _ Ha2). rewrite (bind_ret _ _ _ _ _ Hrun).
    unfold set_left. erewrite update_bind by exact Ha3. simpl. fold m4. fold w4.
    apply catch_rethrow_ret.
    rewrite (deref_bind _ _ _ _ Ha4). rewrite (bind_ret _ _ _ _ _ Hrun5).
    unfold set_right, update. rewrite Ha5. reflexivity. }
  simpl. split_and!.
  - by rewrite Hshape, Hshape5.
  - apply lookup_insert_eq.
  - apply own_insert; [|done]. eapply own_frame; [exact Hl4|].
    intros b Hb. apply Hkeep5. by apply Hdisj.
  - by apply own_insert.
  - apply NoDup_cons. split; [by rewrite elem_of_app; intros [?|?]|].
    apply NoDup_app. done.
  - intros b [->|[Hb|Hb]%elem_of_app]%elem_of_cons; [done|by apply Hnewl|].
    pose proof (Hnew5' b Hb) as Hnone. unfold m4 in Hnone.
    rewrite lookup_insert_ne in Hnone by (by intros <-).
    rewrite Hkeep3 in Hnone.
    + simpl in Hnone. unfold m2 in Hnone.
      rewrite lookup_insert_ne in Hnone by (by intros <-). done.
    + intros Hin. by apply (Hdisj b).
  - intros b Hb. rewrite not_elem_of_cons, not_elem_of_app in Hb.
    destruct Hb as (Hb & Hbl & Hbr).
    rewrite lookup_insert_ne by done. rewrite Hkeep5 by done. simpl. unfold m4.
    rewrite lookup_insert_ne by done. rewrite Hkeep3 by done. simpl. unfold m2.
    by rewrite lookup_insert_ne.
  - rewrite Hq5. simpl. rewrite Hq3. simpl. done.
  - rewrite map_size_insert_Some by done. done.
Qed.

End teardown_and_copy.

(** ** The member functions and the representation invariant *)

Section operations.

Context {T : Type}.
Variable Compare_default : Compare T.
Implicit Types (w : World T) (m : gmap addr (Node T)) (t l r : tree T) (σ : gmap qid (tree T)).

Local Abbreviation represents := (represents Compare_default).

Lemma represents_ext w w' σ :
  nodes w' = nodes w → queues w' = queues w → represents w σ → represents w' σ.
Proof. intros Hn Hq [? ? ? ? ? ? ? ? ?]. split; rewrite ?Hn, ?Hq; eauto. Qed.

Lemma represents_live w σ q :
  represents w σ → is_Some (queues w !! q) ↔ is_Some (σ !! q).
Proof. intros H. by rewrite <- !elem_of_dom, (rep_dom _ _ _ H). Qed.

Lemma represents_weight w σ q t :
  represents w σ → σ !! q = Some t → Z.of_nat (weight (shape_of t)) ≤ SIZE_MAX.
Proof.
  intros H Hq. pose proof (rep_capacity _ _ _ H).
  pose proof (own_size _ _ (rep_own _ _ _ H _ _ Hq) (rep_nodup _ _ _ H _ _ Hq)). lia.
Qed.

(** Container [q] takes over, or comes to life with, the tree [t'], built
    from nodes no other container owns. *)
Lemma represents_update w σ q t' pq' w' :
  represents w σ →
  queues w' = <[q := pq']> (queues w) →
  root pq' = rootp t' → count pq' = Z.of_nat (weight (shape_of t')) →
  cmp pq' = Compare_default →
  own (nodes w') t' → NoDup (addrs t') → leftist (shape_of t') →
  Z.of_nat (base.size (nodes w')) ≤ SIZE_MAX →
  (∀ q0 t0, q0 ≠ q → σ !! q0 = Some t0 →
            own (nodes w') t0 ∧ ∀ b, b ∈ addrs t0 → b ∉ addrs t') →
  represents w' (<[q := t']> σ).
Proof.
  intros H Hq' Hroot Hcount Hcmp Hown Hnd Hleft Hcap Hother. split.
  - done.
  - rewrite Hq', !dom_insert_L, (rep_dom _ _ _ H). done.
  - intros q0 pq0 t0. rewrite Hq'. destruct (decide (q0 = q)) as [->|Hne].
    + rewrite !lookup_insert_eq. by intros [= <-] [= <-].
    + rewrite !lookup_insert_ne by done. apply (rep_root _ _ _ H).
  - intros q0 pq0 t0. rewrite Hq'. destruct (decide (q0 = q)) as [->|Hne].
    + rewrite !lookup_insert_eq. by intros [= <-] [= <-].
    + rewrite !lookup_insert_ne by done. apply (rep_count _ _ _ H).
  - intros q0 pq0. rewrite Hq'. destruct (decide (q0 = q)) as [->|Hne].
    + rewrite !lookup_insert_eq. by intros [= <-].
    + rewrite !lookup_insert_ne by done. apply (rep_cmp _ _ _ H).
  - intros q0 t0. destruct (decide (q0 = q)) as [->|Hne].
    + rewrite lookup_insert_eq. by intros [= <-].
    + rewrite lookup_insert_ne by done. intros Ht0. by apply (Hother q0).
  - intros q0 t0. destruct (decide (q0 = q)) as [->|Hne].
    + rewrite lookup_insert_eq. by intros [= <-].
    + rewrite lookup_insert_ne by done. apply (rep_nodup _ _ _ H).
  - intros q1 q2 t1 t2 b.
    destruct (decide (q1 = q)) as [->|Hne1], (decide (q2 = q)) as [->|Hne2]; [done|..].
    + rewrite lookup_insert_eq, lookup_insert_ne by done. intros [= <-] Ht2 Hb1 Hb2.
      by destruct (Hother q2 t2 Hne2 Ht2) as [_ Hd]; destruct (Hd b).
    + rewrite lookup_insert_eq, lookup_insert_ne by done. intros Ht1 [= <-] Hb1 Hb2.
      by destruct (Hother q1 t1 Hne1 Ht1) as [_ Hd]; destruct (Hd b).
    + rewrite !lookup_insert_ne by done. apply (rep_disjoint _ _ _ H).
  - intros q0 t0. destruct (decide (q0 = q)) as [->|Hne].
    + rewrite lookup_insert_eq. by intros [= <-].
    + rewrite lookup_insert_ne by done. apply (rep_leftist _ _ _ H).
Qed.

(** Container [q] dies. *)
Lemma represents_delete w σ q w' :
  represents w σ →
  queues w' = delete q (queues w) →
  Z.of_nat (base.size (nodes w')) ≤ SIZE_MAX →
  (∀ q0 t0, q0 ≠ q → σ !! q0 = Some t0 → own (nodes w') t0) →
  represents w' (delete q σ).
Proof.
  intros H Hq' Hcap Hother. split.
  - done.
  - rewrite Hq', !dom_delete_L, (rep_dom _ _ _ H). done.
  - intros q0 pq0 t0. rewrite Hq'. intros [? ?]%lookup_delete_Some [? ?]%lookup_delete_Some.
    by eapply (rep_root _ _ _ H).
  - intros q0 pq0 t0. rewrite Hq'. intros [? ?]%lookup_delete_Some [? ?]%lookup_delete_Some.
    by eapply (rep_count _ _ _ H).
  - intros q0 pq0. rewrite Hq'. intros [? ?]%lookup_delete_Some.
    by eapply (rep_cmp _ _ _ H).
  - intros q0 t0 [? ?]%lookup_delete_Some. by eapply Hother.
  - intros q0 t0 [? ?]%lookup_delete_Some. by eapply (rep_nodup _ _ _ H).
  - intros q1 q2 t1 t2 b [? ?]%lookup_delete_Some [? ?]%lookup_delete_Some.
    by eapply (rep_disjoint _ _ _ H).
  - intros q0 t0 [? ?]%lookup_delete_Some. by eapply (rep_leftist _ _ _ H).
Qed.

Lemma represents_queue w σ q t :
  represents w σ → σ !! q = Some t →
  ∃ pq, queues w !! q = Some pq ∧ root pq = rootp t ∧
        count pq = Z.of_nat (weight (shape_of t)) ∧ cmp pq = Compare_default.
Proof.
  intros H Hq. destruct (proj2 (represents_live _ _ q H)) as [pq Hpq]; [by eexists|].
  exists pq. split_and!; [done|..].
  - by eapply (rep_root _ _ _ H).
  - by eapply (rep_count _ _ _ H).
  - by eapply (rep_cmp _ _ _ H).
Qed.

Lemma try_catch_ret {A} (body handler : M T A) w a w' :
  body w = Ret a w' → try_catch body handler w = Ret a w'.
Proof. intros H. unfold try_catch. by rewrite H. Qed.

Lemma try_catch_throw {A} (body handler : M T A) w e w' :
  body w = Throw e w' → try_catch body handler w = handler w'.
Proof. intros H. unfold try_catch. by rewrite H. Qed.

Lemma wrap_size_t_small z : 0 ≤ z ≤ SIZE_MAX → wrap_size_t z = z.
Proof. unfold wrap_size_t, SIZE_MAX. intros. apply Z.mod_small. lia. Qed.

(** *** [top], [size], [empty] *)

Lemma top_spec w σ q t :
  represents w σ → σ !! q = Some t →
  match t with
  | Leaf => top q w = Throw container_is_empty w
  | Br a x n l r => top q w = Ret x w
  end.
Proof.
  intros H Hq. destruct (represents_queue _ _ _ _ H Hq) as (pq & Hpq & Hroot & _).
  unfold top. rewrite (this_bind _ _ _ _ Hpq), Hroot.
  destruct t as [|a x n l r]; simpl; [done|].
  destruct (rep_own _ _ _ H _ _ Hq) as (Ha & _). by rewrite (deref_bind _ _ _ _ Ha).
Qed.

Lemma size_spec w σ q t :
  represents w σ → σ !! q = Some t →
  size q w = Ret (Z.of_nat (weight (shape_of t))) w.
Proof.
  intros H Hq. destruct (represents_queue _ _ _ _ H Hq) as (pq & Hpq & _ & Hcount & _).
  unfold size. by rewrite (this_bind _ _ _ _ Hpq), Hcount.
Qed.

Lemma empty_spec w σ q t :
  represents w σ → σ !! q = Some t →
  empty q w = Ret (if t is Leaf then true else false) w.
Proof.
  intros H Hq. destruct (represents_queue _ _ _ _ H Hq) as (pq & Hpq & _ & Hcount & _).
  unfold empty. rewrite (this_bind _ _ _ _ Hpq), Hcount. by destruct t.
Qed.

(** *** [push] *)

Lemma push_spec w σ q t e :
  represents w σ → σ !! q = Some t →
  (∃ w', push q e w = Throw bad_alloc w' ∧ nodes w' = nodes w ∧ queues w' = queues w) ∨
  (∃ a, nodes w !! a = None ∧
     match merge_shapes Compare_default (shape_of t) (Fork e 0 Nil Nil) with
     | Some s =>
       ∃ t' w', push q e w = Ret () w' ∧ shape_of t' = s ∧
                addrs t' ≡ₚ addrs t ++ [a] ∧
                represents w' (<[q := t']> σ)
     | None =>
       ∃ w', push q e w = Throw runtime_error w' ∧
             nodes w' = nodes w ∧ queues w' = queues w
     end).
Proof.
  intros H Hq. destruct (represents_queue _ _ _ _ H Hq) as (pq & Hpq & Hroot & Hcount & Hcmp).
  unfold push.
  destruct (new_Node_spec e w) as [(w1 & Hnew & Hn1 & Hq1)|(a & w1 & Hnew & Hfresh & Hn1 & Hq1 & Hrel1 & Hroom)].
  { left. exists w1. by rewrite (bind_throw _ _ _ _ _ Hnew). }
  right. exists a. split; [done|]. rewrite (bind_ret _ _ _ _ _ Hnew).
  assert (queues w1 !! q = Some pq) as Hpq1 by (by rewrite Hq1).
  rewrite (this_bind _ _ _ _ Hpq1), Hroot, Hcmp.
  pose proof (rep_own _ _ _ H _ _ Hq) as Hown.
  pose proof (rep_nodup _ _ _ H _ _ Hq) as Hnd.
  assert (a ∉ addrs t) as Hat.
  { intros Hin. destruct (own_lookup _ _ _ Hown Hin). congruence. }
  set (t2 := Br a e 0 Leaf Leaf).
  assert (base.size (nodes w1) = S (base.size (nodes w))) as Hsize1.
  { rewrite Hn1. by apply map_size_insert_None. }
  assert (own (nodes w1) t) as Hown1 by (rewrite Hn1; by apply own_insert).
  assert (own (nodes w1) t2) as Hown2 by (simpl; rewrite Hn1, lookup_insert_eq; done).
  assert (NoDup (addrs t ++ addrs t2)) as Hnd2.
  { apply NoDup_app. split_and!; [done| |apply NoDup_singleton].
    by intros b Hb ->%list_elem_of_singleton. }
  pose proof (own_size _ _ Hown Hnd) as Hweight.
  pose proof (mergeNodes_spec (S (base.size (nodes w1))) Compare_default t t2 w1
                Hown1 Hown2 Hnd2 ltac:(simpl; lia)) as Hm.
  unfold mergeNodes_refines in Hm. change (shape_of t2) with (Fork e 0 (@Nil T) Nil) in Hm.
  destruct (merge_shapes Compare_default (shape_of t) (Fork e 0 Nil Nil)) as [s|] eqn:Hs.
  - destruct Hm as (t' & m' & Hrun & Hshape & Hown' & Hperm & Hframe & Hdom).
    assert (base.size m' = base.size (nodes w1)) as Hsize'.
    { by rewrite <- !size_dom, Hdom. }
    exists t'. eexists. split; [|split_and!; [done|done|]].
    + apply try_catch_ret. erewrite bind_ret by exact Hrun.
      unfold set_root, set_count.
      erewrite assign_members_bind by (simpl; exact Hpq1).
      erewrite this_bind by (simpl; apply lookup_insert_eq).
      unfold assign_members. simpl. rewrite lookup_insert_eq, insert_insert_eq.
      reflexivity.
    + eapply (represents_update w σ q t'); [exact H|simpl; rewrite Hq1; reflexivity|simpl..].
      * done.
      * rewrite Hcount, wrap_size_t_small by lia. subst s.
        apply merge_shapes_weight in Hs. rewrite Hs. simpl. lia.
      * done.
      * done.
      * by rewrite Hperm.
      * subst s. eapply merge_shapes_leftist; [| |exact Hs].
        -- by eapply (rep_leftist _ _ _ H).
        -- simpl. done.
      * lia.
      * intros q0 t0 Hne Hq0. split.
        -- eapply own_frame; [eapply (rep_own _ _ _ H); exact Hq0|].
           intros b Hb. rewrite Hframe.
           ++ rewrite Hn1. apply lookup_insert_ne. intros <-.
              destruct (own_lookup _ _ _ (rep_own _ _ _ H _ _ Hq0) Hb). congruence.
           ++ rewrite elem_of_app. intros [Hin|Hin%list_elem_of_singleton].
              ** by pose proof (rep_disjoint _ _ _ H _ _ _ _ _ Hq0 Hq Hb Hin).
              ** subst b. destruct (own_lookup _ _ _ (rep_own _ _ _ H _ _ Hq0) Hb). congruence.
        -- intros b Hb. rewrite Hperm, elem_of_app.
           intros [Hin|Hin%list_elem_of_singleton].
           ++ by pose proof (rep_disjoint _ _ _ H _ _ _ _ _ Hq0 Hq Hb Hin).
           ++ subst b. destruct (own_lookup _ _ _ (rep_own _ _ _ H _ _ Hq0) Hb). congruence.
  - eexists. split.
    + erewrite try_catch_throw by (apply bind_throw; exact Hm).
      erewrite delete_Node_bind by (rewrite Hn1; apply lookup_insert_eq).
      unfold set_root, set_count.
      erewrite assign_members_bind by (simpl; exact Hpq1).
      erewrite assign_members_bind by (simpl; apply lookup_insert_eq).
      reflexivity.
    + simpl. rewrite Hn1, delete_insert_id by done. split; [done|].
      rewrite insert_insert_eq, <- Hroot, queue_eta, insert_id by done. done.
Qed.

(** *** [pop] *)

Lemma pop_spec w σ q t :
  represents w σ → σ !! q = Some t →
  match t with
  | Leaf => pop q w = Throw container_is_empty w
  | Br a x n l r =>
    match merge_shapes Compare_default (shape_of l) (shape_of r) with
    | Some s =>
      ∃ t' w', pop q w = Ret () w' ∧ shape_of t' = s ∧
               addrs t' ≡ₚ addrs l ++ addrs r ∧
               represents w' (<[q := t']> σ)
    | None =>
      ∃ w', pop q w = Throw runtime_error w' ∧
            nodes w' = nodes w ∧ queues w' = queues w
    end
  end.
Proof.
  intros H Hq. destruct (represents_queue _ _ _ _ H Hq) as (pq & Hpq & Hroot & Hcount & Hcmp).
  unfold pop. rewrite (this_bind _ _ _ _ Hpq), Hroot.
  destruct t as [|a x n l r]; [done|]. change (rootp (Br a x n l r)) with (Some a).
  cbv iota.
  pose proof (rep_own _ _ _ H _ _ Hq) as (Ha & Hl & Hr).
  pose proof (rep_nodup _ _ _ H _ _ Hq) as Hnd.
  pose proof (own_size _ _ (rep_own _ _ _ H _ _ Hq) Hnd) as Hweight.
  pose proof (rep_capacity _ _ _ H) as Hcap.
  simpl in Hnd, Hweight, Hcount. apply NoDup_cons in Hnd as [Hnotin Hnd].
  rewrite (deref_bind _ _ _ _ Ha), Hcmp. simpl left. simpl right.
  pose proof (mergeNodes_spec (S (base.size (nodes w))) Compare_default l r w
                Hl Hr Hnd ltac:(lia)) as Hm.
  unfold mergeNodes_refines in Hm.
  destruct (merge_shapes Compare_default (shape_of l) (shape_of r)) as [s|] eqn:Hs.
  - destruct Hm as (t' & m' & Hrun & Hshape & Hown' & Hperm & Hframe & Hdom).
    assert (base.size m' = base.size (nodes w)) as Hsize'.
    { by rewrite <- !size_dom, Hdom. }
    assert (m' !! a = Some (mkNode x (rootp l) (rootp r) n)) as Ha'.
    { by rewrite Hframe. }
    assert (a ∉ addrs t') as Hat' by (by rewrite Hperm).
    exists t'. eexists. split; [|split_and!; [done|done|]].
    + apply try_catch_ret. erewrite bind_ret by exact Hrun.
      unfold set_root, set_count.
      erewrite assign_members_bind by (simpl; exact Hpq).
      erewrite delete_Node_bind by (simpl; exact Ha').
      erewrite this_bind by (simpl; apply lookup_insert_eq).
      unfold assign_members. simpl. rewrite lookup_insert_eq, insert_insert_eq.
      reflexivity.
    + eapply (represents_update w σ q t'); [exact H|simpl; reflexivity|simpl..].
      * done.
      * rewrite Hcount, wrap_size_t_small by lia. subst s.
        apply merge_shapes_weight in Hs. rewrite Hs. lia.
      * done.
      * eapply own_frame; [exact Hown'|]. intros b Hb.
        apply lookup_delete_ne. by intros <-.
      * by rewrite Hperm.
      * subst s. pose proof (rep_leftist _ _ _ H _ _ Hq) as (_ & _ & Hll & Hlr).
        eapply merge_shapes_leftist; [exact Hll|exact Hlr|exact Hs].
      * rewrite map_size_delete_Some by done. lia.
      * intros q0 t0 Hne Hq0.
        assert (∀ b, b ∈ addrs t0 → b ∉ a :: addrs l ++ addrs r) as Hdisj.
        { intros b Hb Hin.
          by pose proof (rep_disjoint _ _ _ H q0 q t0 (Br a x n l r) b Hq0 Hq Hb Hin). }
        split.
        -- eapply own_frame; [eapply (rep_own _ _ _ H); exact Hq0|].
           intros b Hb. destruct (proj1 (not_elem_of_cons _ _ _) (Hdisj b Hb)) as [Hba Hbt].
           rewrite lookup_delete_ne by done. by apply Hframe.
        -- intros b Hb. destruct (proj1 (not_elem_of_cons _ _ _) (Hdisj b Hb)) as [Hba Hbt].
           by rewrite Hperm.
  - eexists. split.
    + erewrite try_catch_throw by (apply bind_throw; exact Hm).
      unfold set_root, set_count.
      erewrite assign_members_bind by (simpl; exact Hpq).
      erewrite assign_members_bind by (simpl; apply lookup_insert_eq).
      reflexivity.
    + simpl. split; [done|].
      change (Some a) with (rootp (Br a x n l r)).
      rewrite insert_insert_eq, <- Hroot, queue_eta, insert_id by done. done.
Qed.

(** *** [merge] *)

Lemma merge_spec w σ q other t1 t2 :
  represents w σ → q ≠ other → σ !! q = Some t1 → σ !! other = Some t2 →
  match merge_shapes Compare_default (shape_of t1) (shape_of t2) with
  | Some s =>
    ∃ t' w', merge q other w = Ret () w' ∧ shape_of t' = s ∧
             addrs t' ≡ₚ addrs t1 ++ addrs t2 ∧
             represents w' (<[other := Leaf]> (<[q := t']> σ))
  | None =>
    ∃ w', merge q other w = Throw runtime_error w' ∧
          nodes w' = nodes w ∧ queues w' = queues w
  end.
Proof.
  intros H Hne Hq Ho.
  destruct (represents_queue _ _ _ _ H Hq) as (pq & Hpq & Hroot & Hcount & Hcmp).
  destruct (represents_queue _ _ _ _ H Ho) as (po & Hpo & Hroot2 & Hcount2 & Hcmp2).
  unfold merge. rewrite decide_False by done.
  rewrite (this_bind _ _ _ _ Hpq), (this_bind _ _ _ _ Hpo).
  pose proof (rep_own _ _ _ H _ _ Hq) as Hown1.
  pose proof (rep_own _ _ _ H _ _ Ho) as Hown2.
  assert (NoDup (addrs t1 ++ addrs t2)) as Hnd.
  { apply NoDup_app. split_and!; [by eapply (rep_nodup _ _ _ H)| |by eapply (rep_nodup _ _ _ H)].
    intros b Hb1 Hb2. by pose proof (rep_disjoint _ _ _ H _ _ _ _ _ Hq Ho Hb1 Hb2). }
  assert (weight (shape_of t1) + weight (shape_of t2) ≤ base.size (nodes w))%nat as Hweight.
  { rewrite <- !addrs_length, <- length_app, <- size_dom.
    rewrite <- (size_list_to_set (C:=gset addr) (addrs t1 ++ addrs t2)) by done.
    apply subseteq_size. intros b [Hb|Hb]%elem_of_list_to_set%elem_of_app;
      apply elem_of_dom; [by apply (own_lookup _ t1)|by apply (own_lookup _ t2)]. }
  pose proof (rep_capacity _ _ _ H) as Hcap.
  pose proof (mergeNodes_spec (S (base.size (nodes w))) Compare_default t1 t2 w
                Hown1 Hown2 Hnd ltac:(lia)) as Hm.
  unfold mergeNodes_refines in Hm.
  destruct (merge_shapes Compare_default (shape_of t1) (shape_of t2)) as [s|] eqn:Hs.
  - destruct Hm as (t' & m' & Hrun & Hshape & Hown' & Hperm & Hframe & Hdom).
    assert (base.size m' = base.size (nodes w)) as Hsize'.
    { by rewrite <- !size_dom, Hdom. }
    exists t'. eexists. split; [|split_and!; [done|done|]].
    + apply try_catch_ret. rewrite (this_bind _ _ _ _ Hpo), Hroot, Hroot2, Hcmp.
      erewrite bind_ret by exact Hrun.
      unfold set_root, set_count.
      erewrite assign_members_bind by (simpl; exact Hpq).
      erewrite this_bind by (simpl; apply lookup_insert_eq).
      erewrite this_bind by (simpl; rewrite lookup_insert_ne by done; exact Hpo).
      erewrite assign_members_bind by (simpl; apply lookup_insert_eq).
      erewrite assign_members_bind
        by (simpl; rewrite !lookup_insert_ne by done; exact Hpo).
      unfold assign_members. simpl. rewrite lookup_insert_eq.
      rewrite !insert_insert_eq. reflexivity.
    + rewrite (insert_insert_ne σ) by done.
      eapply (represents_update
                (set_queues (<[other := mkQueue None 0 (cmp po)]> (queues w)) w)
                (<[other := Leaf]> σ) q t').
      * eapply (represents_update w σ other Leaf); [exact H|reflexivity|simpl..]; try done.
        -- constructor.
        -- intros q0 t0 _ Hq0. split; [by eapply (rep_own _ _ _ H)|].
           by intros b _ ?%elem_of_nil.
      * simpl. rewrite insert_insert_ne by done. reflexivity.
      * done.
      * simpl. rewrite Hcount, Hcount2, wrap_size_t_small by lia. subst s.
        apply merge_shapes_weight in Hs. rewrite Hs. lia.
      * done.
      * done.
      * by rewrite Hperm.
      * subst s. eapply merge_shapes_leftist; [| |exact Hs]; by eapply (rep_leftist _ _ _ H).
      * simpl. lia.
      * intros q0 t0 Hne0. destruct (decide (q0 = other)) as [->|Hne1].
        { rewrite lookup_insert_eq. intros [= <-]. split; [done|].
          by intros b ?%elem_of_nil. }
        rewrite lookup_insert_ne by done. intros Hq0.
        assert (∀ b, b ∈ addrs t0 → b ∉ addrs t1 ++ addrs t2) as Hdisj.
        { intros b Hb [Hin|Hin]%elem_of_app.
          - by pose proof (rep_disjoint _ _ _ H _ _ _ _ _ Hq0 Hq Hb Hin).
          - by pose proof (rep_disjoint _ _ _ H _ _ _ _ _ Hq0 Ho Hb Hin). }
        split.
        -- eapply own_frame; [eapply (rep_own _ _ _ H); exact Hq0|].
           intros b Hb. simpl. by apply Hframe, Hdisj.
        -- intros b Hb. rewrite Hperm. by apply Hdisj.
  - eexists. split.
    + erewrite try_catch_throw
        by (rewrite (this_bind _ _ _ _ Hpo), Hroot, Hroot2, Hcmp; apply bind_throw; exact Hm).
      unfold set_root, set_count.
      erewrite assign_members_bind by (simpl; exact Hpq).
      erewrite assign_members_bind by (simpl; rewrite lookup_insert_ne by done; exact Hpo).
      erewrite assign_members_bind
        by (simpl; rewrite lookup_insert_ne by done; apply lookup_insert_eq).
      erewrite assign_members_bind
        by (simpl; rewrite lookup_insert_ne by done; apply lookup_insert_eq).
      reflexivity.
    + simpl. split; [done|]. rewrite !queue_eta.
      do 2 rewrite (insert_id (queues w) q pq), (insert_id (queues w) other po) by done.
      done.
Qed.

(** *** Construction, copy, assignment, destruction *)

Lemma construct_spec w σ :
  represents w σ →
  ∃ q w', construct Compare_default w = Ret q w' ∧ σ !! q = None ∧
          nodes w' = nodes w ∧ represents w' (<[q := Leaf]> σ).
Proof.
  intros H. eexists _, _. split; [reflexivity|].
  split; [|split; [done|]].
  - apply not_elem_of_dom. rewrite (rep_dom _ _ _ H). apply is_fresh.
  - eapply (represents_update w σ _ Leaf); [exact H|reflexivity|simpl..]; try done.
    + constructor.
    + apply (rep_capacity _ _ _ H).
    + intros q0 t0 _ Hq0. split; [by eapply (rep_own _ _ _ H)|].
      by intros b _ ?%elem_of_nil.
Qed.

Lemma subseteq_nodes_size m m' :
  (∀ b, m' !! b = None ∨ m' !! b = m !! b) → (base.size m' ≤ base.size m)%nat.
Proof.
  intros Hsub. apply map_subseteq_size, map_subseteq_spec. intros b n Hb.
  destruct (Hsub b) as [Hn|Hn]; congruence.
Qed.

(** The three ways a deep copy of the tree of [other] can end. *)
Lemma copy_root_spec w σ other t :
  represents w σ → σ !! other = Some t →
  let copy := match rootp t with
              | Some _ => with_fuel (λ fuel, copyTree fuel (rootp t))
              | None => mret None
              end in
  (∃ t' w', copy w = Ret (rootp t') w' ∧
            shape_of t' = shape_of t ∧ own (nodes w') t' ∧ NoDup (addrs t') ∧
            (∀ a, a ∈ addrs t' → nodes w !! a = None) ∧
            (∀ a, a ∉ addrs t' → nodes w' !! a = nodes w !! a) ∧
            queues w' = queues w ∧ Z.of_nat (base.size (nodes w')) ≤ SIZE_MAX) ∨
  (∃ w', copy w = Throw bad_alloc w' ∧ nodes w' = nodes w ∧ queues w' = queues w) ∨
  (∃ a, copy w = Fault (DoubleDelete a)).
Proof.
  intros H Ho copy.
  pose proof (rep_own _ _ _ H _ _ Ho) as Hown.
  pose proof (own_size _ _ Hown (rep_nodup _ _ _ H _ _ Ho)) as Hweight.
  pose proof (rep_capacity _ _ _ H) as Hcap.
  destruct (copyTree_spec (S (base.size (nodes w))) t w Hown ltac:(lia) Hcap) as [Hc|Hc].
  - left. destruct t; [|exact Hc]. exists Leaf, w. subst copy. simpl.
    split_and!; try done; [constructor|by intros ? ?%elem_of_nil].
  - right. destruct t; [|exact Hc]. destruct Hc as [(w' & Hc & _)|(a & Hc)]; discriminate.
Qed.

Lemma copy_construct_spec w σ other t :
  represents w σ → σ !! other = Some t →
  (∃ q t' w', copy_construct other w = Ret q w' ∧ σ !! q = None ∧
              shape_of t' = shape_of t ∧
              (∀ b, b ∈ addrs t' → nodes w !! b = None) ∧
              represents w' (<[q := t']> σ)) ∨
  (∃ w', copy_construct other w = Throw bad_alloc w' ∧
         nodes w' = nodes w ∧ queues w' = queues w) ∨
  (∃ a, copy_construct other w = Fault (DoubleDelete a)).
Proof.
  intros H Ho.
  destruct (represents_queue _ _ _ _ H Ho) as (po & Hpo & Hroot & Hcount & Hcmp).
  unfold copy_construct. rewrite (this_bind _ _ _ _ Hpo), Hroot.
  destruct (copy_root_spec w σ other t H Ho) as
    [(t' & w' & Hrun & Hshape & Hown & Hnd & Hnew & Hkeep & Hq' & Hcap')
    |[(w' & Hrun & Hn' & Hq')|(a & Hrun)]].
  - left. rewrite (bind_ret _ _ _ _ _ Hrun). unfold begin_lifetime.
    eexists _, t', _. split; [reflexivity|].
    assert (σ !! fresh (dom (queues w')) = None) as Hfresh.
    { apply not_elem_of_dom. rewrite (rep_dom _ _ _ H), <- Hq'. apply is_fresh. }
    split_and!; [done|done|done|].
    eapply (represents_update w σ _ t'); [exact H|simpl; rewrite Hq'; reflexivity|simpl..];
      try done.
    + by rewrite Hcount, Hshape.
    + rewrite Hshape. by eapply (rep_leftist _ _ _ H).
    + intros q0 t0 _ Hq0. pose proof (rep_own _ _ _ H _ _ Hq0) as Hown0.
      assert (∀ b, b ∈ addrs t0 → b ∉ addrs t') as Hdisj.
      { intros b Hb Hin. apply Hnew in Hin. destruct (own_lookup _ _ _ Hown0 Hb). congruence. }
      split; [|done]. eapply own_frame; [exact Hown0|]. intros b Hb. by apply Hkeep, Hdisj.
  - right; left. exists w'. by rewrite (bind_throw _ _ _ _ _ Hrun).
  - right; right. exists a. by rewrite (bind_fault _ _ _ _ Hrun).
Qed.

Lemma destroy_spec w σ q t :
  represents w σ → σ !! q = Some t →
  ∃ w', destroy q w = Ret () w' ∧ represents w' (delete q σ).
Proof.
  intros H Hq.
  destruct (represents_queue _ _ _ _ H Hq) as (pq & Hpq & Hroot & Hcount & Hcmp).
  pose proof (rep_own _ _ _ H _ _ Hq) as Hown.
  pose proof (rep_nodup _ _ _ H _ _ Hq) as Hnd.
  pose proof (own_size _ _ Hown Hnd) as Hweight.
  destruct (deleteTree_spec (S (base.size (nodes w))) t w Hown Hnd ltac:(lia))
    as (w1 & Hrun & Hq1 & _ & Hgone & Hkeep).
  unfold destroy. rewrite (this_bind _ _ _ _ Hpq), Hroot.
  erewrite bind_ret by exact Hrun. eexists. split; [reflexivity|].
  eapply (represents_delete w σ q); [exact H|simpl; by rewrite Hq1|simpl..].
  - pose proof (rep_capacity _ _ _ H).
    assert (base.size (nodes w1) ≤ base.size (nodes w))%nat; [|lia].
    apply subseteq_nodes_size. intros b.
    destruct (decide (b ∈ addrs t)); [left; by apply Hgone|right; by apply Hkeep].
  - intros q0 t0 Hne Hq0. eapply own_frame; [eapply (rep_own _ _ _ H); exact Hq0|].
    intros b Hb. apply Hkeep. intros Hin.
    by pose proof (rep_disjoint _ _ _ H _ _ _ _ _ Hq0 Hq Hb Hin).
Qed.

Lemma assign_self q w : assign q q w = Ret q w.
Proof. unfold assign. by rewrite decide_True. Qed.

Lemma merge_self q w : merge q q w = Ret () w.
Proof. unfold merge. by rewrite decide_True. Qed.

Lemma assign_spec w σ q other t1 t2 :
  represents w σ → q ≠ other → σ !! q = Some t1 → σ !! other = Some t2 →
  (∃ t' w', assign q other w = Ret q w' ∧
            shape_of t' = shape_of t2 ∧
            (∀ b, b ∈ addrs t' → nodes w !! b = None) ∧
            represents w' (<[q := t']> σ)) ∨
  (∃ w', assign q other w = Throw bad_alloc w' ∧
         nodes w' = nodes w ∧ queues w' = queues w) ∨
  (∃ a, assign q other w = Fault (DoubleDelete a)).
Proof.
  intros H Hne Hq Ho.
  destruct (represents_queue _ _ _ _ H Hq) as (pq & Hpq & Hroot & Hcount & Hcmp).
  destruct (represents_queue _ _ _ _ H Ho) as (po & Hpo & Hroot2 & Hcount2 & Hcmp2).
  unfold assign. rewrite decide_False by done. rewrite (this_bind _ _ _ _ Hpo), Hroot2.
  destruct (copy_root_spec w σ other t2 H Ho) as
    [(t' & w3 & Hrun & Hshape & Hown & Hnd & Hnew & Hkeep & Hq3 & Hcap3)
    |[(w3 & Hrun & Hn3 & Hq3)|(a & Hrun)]].
  3:{ right; right. exists a. by rewrite (bind_fault _ _ _ _ Hrun). }
  2:{ right; left. exists w3. by rewrite (bind_throw _ _ _ _ _ Hrun). }
  left. rewrite (bind_ret _ _ _ _ _ Hrun).
  assert (∀ q0 t0, σ !! q0 = Some t0 →
            own (nodes w3) t0 ∧ ∀ b, b ∈ addrs t0 → b ∉ addrs t') as Hold.
  { intros q0 t0 Hq0. pose proof (rep_own _ _ _ H _ _ Hq0) as Hown0.
    assert (∀ b, b ∈ addrs t0 → b ∉ addrs t') as Hdisj.
    { intros b Hb Hin. apply Hnew in Hin. destruct (own_lookup _ _ _ Hown0 Hb). congruence. }
    split; [|done]. eapply own_frame; [exact Hown0|]. intros b Hb. by apply Hkeep, Hdisj. }
  destruct (Hold q t1 Hq) as [Hown1 Hdisj1].
  pose proof (rep_nodup _ _ _ H _ _ Hq) as Hnd1.
  pose proof (own_size _ _ Hown1 Hnd1) as Hweight.
  destruct (deleteTree_spec (S (base.size (nodes w3))) t1 w3 Hown1 Hnd1 ltac:(lia))
    as (w4 & Hrun4 & Hq4 & _ & Hgone & Hkeep4).
  erewrite this_bind by (rewrite Hq3; exact Hpq). rewrite Hroot.
  erewrite bind_ret by exact Hrun4.
  unfold set_root, set_count, set_cmp.
  erewrite assign_members_bind by (rewrite Hq4, Hq3; exact Hpq).
  erewrite this_bind by (simpl; rewrite lookup_insert_ne, Hq4, Hq3 by done; exact Hpo).
  erewrite assign_members_bind by (simpl; apply lookup_insert_eq).
  erewrite this_bind
    by (simpl; rewrite !lookup_insert_ne, Hq4, Hq3 by done; exact Hpo).
  erewrite assign_members_bind by (simpl; apply lookup_insert_eq).
  exists t'. eexists. split; [reflexivity|]. split_and!; [done|done|].
  eapply (represents_update w σ q t'); [exact H| |simpl..].
  - simpl. rewrite !insert_insert_eq, Hq4, Hq3. reflexivity.
  - done.
  - by rewrite Hcount2, Hshape.
  - done.
  - eapply own_frame; [exact Hown|]. intros b Hb. apply Hkeep4. intros Hin.
    by apply (Hdisj1 b).
  - done.
  - rewrite Hshape. by eapply (rep_leftist _ _ _ H).
  - assert (base.size (nodes w4) ≤ base.size (nodes w3))%nat; [|lia].
    apply subseteq_nodes_size. intros b.
    destruct (decide (b ∈ addrs t1)); [left; by apply Hgone|right; by apply Hkeep4].
  - intros q0 t0 Hne0 Hq0. destruct (Hold q0 t0 Hq0) as [Hown0 Hdisj0].
    split; [|done]. eapply own_frame; [exact Hown0|]. intros b Hb. apply Hkeep4.
    intros Hin. by pose proof (rep_disjoint _ _ _ H _ _ _ _ _ Hq0 Hq Hb Hin).
Qed.

End operations.

(** ** A predicate failure is rolled back *)

Section predicate_failure.

Context {T : Type}.
Implicit Types (w : World T).

Lemma new_Node_ret d w a w' :
  new_Node d w = Ret a w' →
  a = fresh (dom (nodes w)) ∧ nodes w !! a = None ∧
  Z.of_nat (base.size (nodes w)) < SIZE_MAX ∧
  w' = mkWorld (<[a := mkNode d None None 0]> (nodes w)) (queues w) (released w)
         (tail (new_ok w)).
Proof.
  unfold new_Node. case_match eqn:Hok; [|discriminate]. intros [= <- <-].
  apply andb_prop in Hok as [_ Hlt%Z.ltb_lt].
  split_and!; [done| |done|done]. apply not_elem_of_dom, is_fresh.
Qed.

Lemma with_fuel_mergeNodes_throw less (h1 h2 : ptr) w ex w2 :
  with_fuel (λ fuel, mergeNodes fuel less h1 h2) w = Throw ex w2 →
  w2 = w ∧ ex = compare_error ∧ ∃ x y, less x y = None.
Proof. unfold with_fuel. apply mergeNodes_throw. Qed.

(** [push]: the handler releases the new node and puts root and count back. *)
Lemma push_rolls_back q e w a w1 pq ex w2 :
  new_Node e w = Ret a w1 → queues w !! q = Some pq →
  with_fuel (λ fuel, mergeNodes fuel (cmp pq) (root pq) (Some a)) w1 = Throw ex w2 →
  ∃ w', push q e w = Throw runtime_error w' ∧ nodes w' = nodes w ∧ queues w' = queues w.
Proof.
  intros Hnew Hq Hmerge.
  pose proof Hnew as (-> & Hfresh & _ & ->)%new_Node_ret.
  apply with_fuel_mergeNodes_throw in Hmerge as Hw2. destruct Hw2 as (-> & _).
  unfold push. rewrite (bind_ret _ _ _ _ _ Hnew).
  erewrite this_bind by (simpl; exact Hq).
  erewrite try_catch_throw by (apply bind_throw; exact Hmerge).
  erewrite delete_Node_bind by (simpl; apply lookup_insert_eq).
  unfold set_root, set_count.
  erewrite assign_members_bind by (simpl; exact Hq).
  erewrite assign_members_bind by (simpl; apply lookup_insert_eq).
  eexists. split; [reflexivity|]. simpl.
  rewrite delete_insert_id by done. by rewrite insert_insert_eq, queue_eta, insert_id.
Qed.

(** [pop]: nothing has been released when the merge of the two subtrees
    fails; the handler puts root and count back. *)
Lemma pop_rolls_back q w pq a n ex w2 :
  queues w !! q = Some pq → root pq = Some a → nodes w !! a = Some n →
  with_fuel (λ fuel, mergeNodes fuel (cmp pq) (left n) (right n)) w = Throw ex w2 →
  ∃ w', pop q w = Throw runtime_error w' ∧ nodes w' = nodes w ∧ queues w' = queues w.
Proof.
  intros Hq Hroot Hn Hmerge.
  apply with_fuel_mergeNodes_throw in Hmerge as Hw2. destruct Hw2 as (-> & _).
  unfold pop. rewrite (this_bind _ _ _ _ Hq), Hroot. rewrite (deref_bind _ _ _ _ Hn).
  erewrite try_catch_throw by (apply bind_throw; exact Hmerge).
  unfold set_root, set_count.
  erewrite assign_members_bind by exact Hq.
  erewrite assign_members_bind by (simpl; apply lookup_insert_eq).
  eexists. split; [reflexivity|]. simpl. split; [done|].
  by rewrite insert_insert_eq, <- Hroot, queue_eta, insert_id.
Qed.

(** [merge]: the handler puts root and count of both containers back. *)
Lemma merge_rolls_back q other w pq po ex w2 :
  q ≠ other → queues w !! q = Some pq → queues w !! other = Some po →
  with_fuel (λ fuel, mergeNodes fuel (cmp pq) (root pq) (root po)) w = Throw ex w2 →
  ∃ w', merge q other w = Throw runtime_error w' ∧
        nodes w' = nodes w ∧ queues w' = queues w.
Proof.
  intros Hne Hq Ho Hmerge.
  apply with_fuel_mergeNodes_throw in Hmerge as Hw2. destruct Hw2 as (-> & _).
  unfold merge. rewrite decide_False by done.
  rewrite (this_bind _ _ _ _ Hq), (this_bind _ _ _ _ Ho).
  erewrite try_catch_throw
    by (rewrite (this_bind _ _ _ _ Ho); apply bind_throw; exact Hmerge).
  unfold set_root, set_count.
  erewrite assign_members_bind by exact Hq.
  erewrite assign_members_bind by (simpl; rewrite lookup_insert_ne by done; exact Ho).
  erewrite assign_members_bind
    by (simpl; rewrite lookup_insert_ne by done; apply lookup_insert_eq).
  erewrite assign_members_bind
    by (simpl; rewrite lookup_insert_ne by done; apply lookup_insert_eq).
  eexists. split; [reflexivity|]. simpl. split; [done|].
  rewrite !queue_eta.
  by do 2 rewrite (insert_id (queues w) q pq), (insert_id (queues w) other po) by done.
Qed.

(** C1. A predicate that throws during the [mergeNodes] of [push], [pop] or
    [merge] (any store, any predicate): the call ends in [runtime_error],
    not in the predicate's own exception, and every node (element, links,
    npl) and every container (root, count), [other] included, is exactly
    as before the call.  Conversely, whatever these three throw they leave
    nodes and containers as they were, they never pass the predicate's
    exception on, and [runtime_error] from them means that the predicate
    threw. *)
Theorem C1_predicate_failure_rolls_back q other e w :
  (∀ a w1 pq ex w2,
     new_Node e w = Ret a w1 → queues w !! q = Some pq →
     with_fuel (λ fuel, mergeNodes fuel (cmp pq) (root pq) (Some a)) w1 = Throw ex w2 →
     (ex = compare_error ∧ ∃ x y, cmp pq x y = None) ∧
     ∃ w', push q e w = Throw runtime_error w' ∧
           nodes w' = nodes w ∧ queues w' = queues w) ∧
  (∀ pq a n ex w2,
     queues w !! q = Some pq → root pq = Some a → nodes w !! a = Some n →
     with_fuel (λ fuel, mergeNodes fuel (cmp pq) (left n) (right n)) w = Throw ex w2 →
     (ex = compare_error ∧ ∃ x y, cmp pq x y = None) ∧
     ∃ w', pop q w = Throw runtime_error w' ∧
           nodes w' = nodes w ∧ queues w' = queues w) ∧
  (∀ pq po ex w2,
     q ≠ other → queues w !! q = Some pq → queues w !! other = Some po →
     with_fuel (λ fuel, mergeNodes fuel (cmp pq) (root pq) (root po)) w = Throw ex w2 →
     (ex = compare_error ∧ ∃ x y, cmp pq x y = None) ∧
     ∃ w', merge q other w = Throw runtime_error w' ∧
           nodes w' = nodes w ∧ queues w' = queues w) ∧
  (∀ ex w',
     push q e w = Throw ex w' ∨ pop q w = Throw ex w' ∨ merge q other w = Throw ex w' →
     ex ≠ compare_error ∧ nodes w' = nodes w ∧ queues w' = queues w ∧
     (ex = runtime_error → ∃ pq x y, queues w !! q = Some pq ∧ cmp pq x y = None)).
Proof.
  split_and!.
  - intros a w1 pq ex w2 Hnew Hq Hmerge. split.
    + by apply with_fuel_mergeNodes_throw in Hmerge as (_ & ? & ?).
    + by eapply push_rolls_back.
  - intros pq a n ex w2 Hq Hroot Hn Hmerge. split.
    + by apply with_fuel_mergeNodes_throw in Hmerge as (_ & ? & ?).
    + by eapply pop_rolls_back.
  - intros pq po ex w2 Hne Hq Ho Hmerge. split.
    + by apply with_fuel_mergeNodes_throw in Hmerge as (_ & ? & ?).
    + by eapply merge_rolls_back.
  - intros ex w' [H|[H|H]].
    + apply push_throw in H as [(-> & ? & ?)|(-> & ? & ? & ?)]; by split_and!.
    + apply pop_throw in H as [(-> & ->)|(-> & ? & ? & ?)]; by split_and!.
    + apply merge_throw in H as (-> & ? & ? & ?); by split_and!.
Qed.

End predicate_failure.

(** ** Copies that succeed *)

Section granted_requests.

Context {T : Type}.
Variable Compare_default : Compare T.
Implicit Types (w : World T) (t l r : tree T) (σ : gmap qid (tree T)).

Local Abbreviation represents := (represents Compare_default).

Lemma own_mono (m m' : gmap addr (Node T)) t :
  own m t → (∀ b n, m !! b = Some n → m' !! b = Some n) → own m' t.
Proof.
  intros Ht Hm. eapply own_frame; [exact Ht|]. intros a Ha.
  destruct (own_lookup _ _ _ Ht Ha) as [n Hn]. rewrite Hn. by apply Hm.
Qed.

Lemma new_Node_granted (d : T) w :
  Forall (eq true) (new_ok w) → Z.of_nat (base.size (nodes w)) < SIZE_MAX →
  new_Node d w =
  Ret (fresh (dom (nodes w)))
      (mkWorld (<[fresh (dom (nodes w)) := mkNode d None None 0]> (nodes w))
               (queues w) (released w) (tail (new_ok w))).
Proof.
  intros Hok Hcap. unfold new_Node.
  assert (match new_ok w with [] => true | b :: _ => b end = true) as ->.
  { destruct Hok; done. }
  by rewrite (proj2 (Z.ltb_lt _ _) Hcap).
Qed.

(** With an allocator that grants every request and room for the clone,
    [copyTree] returns; the nodes that were alive are as they were. *)
Lemma copyTree_granted fuel t w :
  own (nodes w) t → (weight (shape_of t) < fuel)%nat →
  Z.of_nat (base.size (nodes w)) + Z.of_nat (weight (shape_of t)) ≤ SIZE_MAX →
  Forall (eq true) (new_ok w) →
  ∃ p w', copyTree fuel (rootp t) w = Ret p w' ∧
          (∀ b n, nodes w !! b = Some n → nodes w' !! b = Some n) ∧
          Z.of_nat (base.size (nodes w')) ≤
            Z.of_nat (base.size (nodes w)) + Z.of_nat (weight (shape_of t)) ∧
          Forall (eq true) (new_ok w').
Proof.
  revert t w. induction fuel as [|fuel IH]; intros t w Ht Hfuel Hcap Hok; [lia|].
  destruct t as [|a x n l r].
  { exists None, w. simpl. split_and!; [done|done|lia|done]. }
  destruct Ht as (Ha & Hl & Hr). simpl in Hfuel, Hcap.
  change (rootp (Br a x n l r)) with (Some a). rewrite copyTree_unfold.
  rewrite (deref_bind _ _ _ _ Ha). simpl data.
  set (c := fresh (dom (nodes w))).
  assert (nodes w !! c = None) as Hc by apply not_elem_of_dom, is_fresh.
  assert (a ≠ c) as Hac by (intros ->; congruence).
  rewrite (bind_ret _ _ _ _ _ (new_Node_granted x w Hok ltac:(lia))). fold c.
  erewrite deref_bind by (simpl; rewrite lookup_insert_ne by done; exact Ha).
  unfold set_npl, set_left, set_right. simpl npl.
  erewrite update_bind by (simpl; apply lookup_insert_eq).
  simpl. rewrite insert_insert_eq.
  set (w2 := set_nodes _ _).
  assert (∀ b n0, nodes w !! b = Some n0 → nodes w2 !! b = Some n0) as Hmono2.
  { intros b n0 Hb. simpl. rewrite lookup_insert_ne; [done|]. intros <-. congruence. }
  assert (base.size (nodes w2) = S (base.size (nodes w))) as Hsize2.
  { simpl. by rewrite map_size_insert_None. }
  destruct (IH l w2) as (pl & w3 & Hrun3 & Hmono3 & Hsize3 & Hok3).
  { by eapply own_mono. } { lia. } { lia. }
  { simpl. destruct Hok; [constructor|done]. }
  assert (nodes w3 !! c = Some (mkNode x None None n)) as Hc3.
  { apply Hmono3. simpl. apply lookup_insert_eq. }
  set (w4 := set_nodes (<[c := mkNode x pl None n]> (nodes w3)) w3).
  assert (∀ b n0, nodes w !! b = Some n0 → nodes w4 !! b = Some n0) as Hmono4.
  { intros b n0 Hb. simpl. rewrite lookup_insert_ne; [by apply Hmono3, Hmono2|].
    intros <-. congruence. }
  assert (base.size (nodes w4) = base.size (nodes w3)) as Hsize4.
  { simpl. by rewrite map_size_insert_Some. }
  destruct (IH r w4) as (pr & w5 & Hrun5 & Hmono5 & Hsize5 & Hok5).
  { by eapply own_mono. } { lia. } { lia. } { done. }
  assert (nodes w5 !! c = Some (mkNode x pl None n)) as Hc5.
  { apply Hmono5. simpl. apply lookup_insert_eq. }
  set (w6 := set_nodes (<[c := mkNode x pl pr n]> (nodes w5)) w5).
  exists (Some c), w6. split_and!.
  - erewrite bind_ret; [reflexivity|]. apply catch_rethrow_ret.
    erewrite deref_bind by (by apply Hmono2). simpl left.
    rewrite (bind_ret _ _ _ _ _ Hrun3).
    erewrite update_bind by exact Hc3. simpl. fold w4.
    apply catch_rethrow_ret.
    erewrite deref_bind by (by apply Hmono4). simpl right.
    rewrite (bind_ret _ _ _ _ _ Hrun5).
    unfold update. by rewrite Hc5.
  - intros b n0 Hb. simpl. rewrite lookup_insert_ne; [by apply Hmono5, Hmono4|].
    intros <-. congruence.
  - simpl. rewrite map_size_insert_Some by done. lia.
  - done.
Qed.

(** Once the clone is there, the rest of copy assignment returns. *)
Lemma assign_returns_after_copy w σ q other t1 t2 (p : ptr) w1 :
  represents w σ → q ≠ other → σ !! q = Some t1 → σ !! other = Some t2 →
  match rootp t2 with
  | Some _ => with_fuel (λ fuel, copyTree fuel (rootp t2))
  | None => mret None
  end w = Ret p w1 →
  ∃ w', assign q other w = Ret q w'.
Proof.
  intros H Hne Hq Ho Hcopy.
  destruct (represents_queue _ _ _ _ _ H Hq) as (pq & Hpq & Hroot & _).
  destruct (represents_queue _ _ _ _ _ H Ho) as (po & Hpo & Hroot2 & _).
  unfold assign. rewrite decide_False by done. rewrite (this_bind _ _ _ _ Hpo), Hroot2.
  destruct (copy_root_spec _ w σ other t2 H Ho) as
    [(t' & w3 & Hrun & Hshape & Hown' & Hnd & Hnew & Hkeep & Hq3 & Hcap3)
    |[(w3 & Hrun & _)|(a & Hrun)]]; [|congruence..].
  rewrite (bind_ret _ _ _ _ _ Hrun).
  pose proof (rep_own _ _ _ H _ _ Hq) as Hown0.
  assert (own (nodes w3) t1) as Hown1.
  { eapply own_frame; [exact Hown0|]. intros b Hb. apply Hkeep. intros Hin.
    apply Hnew in Hin. destruct (own_lookup _ _ _ Hown0 Hb). congruence. }
  pose proof (rep_nodup _ _ _ H _ _ Hq) as Hnd1.
  pose proof (own_size _ _ Hown1 Hnd1) as Hweight1.
  destruct (deleteTree_spec (S (base.size (nodes w3))) t1 w3 Hown1 Hnd1 ltac:(lia))
    as (w4 & Hrun4 & Hq4 & _).
  erewrite this_bind by (rewrite Hq3; exact Hpq). rewrite Hroot.
  erewrite bind_ret by exact Hrun4.
  unfold set_root, set_count, set_cmp.
  erewrite assign_members_bind by (rewrite Hq4, Hq3; exact Hpq).
  erewrite this_bind by (simpl; rewrite lookup_insert_ne, Hq4, Hq3 by done; exact Hpo).
  erewrite assign_members_bind by (simpl; apply lookup_insert_eq).
  erewrite this_bind
    by (simpl; rewrite !lookup_insert_ne, Hq4, Hq3 by done; exact Hpo).
  erewrite assign_members_bind by (simpl; apply lookup_insert_eq).
  by eexists.
Qed.

(** With every request granted and room for the clone, both copies
    return. *)
Lemma copies_return w σ other t :
  represents w σ → σ !! other = Some t →
  Forall (eq true) (new_ok w) →
  Z.of_nat (base.size (nodes w)) + Z.of_nat (weight (shape_of t)) ≤ SIZE_MAX →
  (∃ q w', copy_construct other w = Ret q w') ∧
  (∀ q, is_Some (queues w !! q) → ∃ w', assign q other w = Ret q w').
Proof.
  intros H Ho Hok Hcap.
  destruct (represents_queue _ _ _ _ _ H Ho) as (po & Hpo & Hroot2 & _).
  pose proof (rep_own _ _ _ H _ _ Ho) as Hown.
  pose proof (own_size _ _ Hown (rep_nodup _ _ _ H _ _ Ho)) as Hweight.
  assert (∃ p w1, match rootp t with
                  | Some _ => with_fuel (λ fuel, copyTree fuel (rootp t))
                  | None => mret None
                  end w = Ret p w1) as (p & w1 & Hcopy).
  { destruct (copyTree_granted (S (base.size (nodes w))) t w Hown ltac:(lia) Hcap Hok)
      as (p & w1 & Hcopy & _).
    destruct t; [by exists None, w|]. by exists p, w1. }
  split.
  - unfold copy_construct. rewrite (this_bind _ _ _ _ Hpo), Hroot2.
    rewrite (bind_ret _ _ _ _ _ Hcopy). by eexists _, _.
  - intros q [pq Hpq]. destruct (decide (q = other)) as [->|Hne].
    { exists w. apply assign_self. }
    destruct (proj1 (represents_live _ _ _ q H)) as [t1 Hq]; [by eexists|].
    by eapply assign_returns_after_copy.
Qed.

End granted_requests.

(** ** Every reachable state is represented *)

Section reachability.

Context {T : Type}.
Variable Compare_default : Compare T.
Implicit Types (w : World T) (t l r : tree T) (σ : gmap qid (tree T)).

Local Abbreviation represents := (represents Compare_default).
Local Abbreviation invariant := (invariant Compare_default).
Local Abbreviation built := (built Compare_default).

Lemma this_dead {B} q (k : priority_queue T → M T B) w :
  queues w !! q = None → (this q ≫= k) w = Fault (BadObject q).
Proof. intros H. rewrite bind_unfold. unfold this. by rewrite H. Qed.

Lemma represents_dead w σ q : represents w σ → σ !! q = None → queues w !! q = None.
Proof.
  intros H Hq. apply eq_None_not_Some. rewrite (represents_live _ _ _ _ H), Hq.
  by intros [? ?].
Qed.

Lemma invariant_ext w w' σ :
  nodes w' = nodes w → queues w' = queues w → invariant w σ → invariant w' σ.
Proof. intros Hn Hq [H Hb]. split; [by eapply represents_ext|done]. Qed.

Lemma invariant_insert w w' σ q t' :
  invariant w σ → represents w' (<[q := t']> σ) → built (shape_of t') →
  invariant w' (<[q := t']> σ).
Proof.
  intros [_ Hb] H' Ht'. split; [done|]. intros q0 t0.
  destruct (decide (q0 = q)) as [->|Hne].
  - rewrite lookup_insert_eq. by intros [= <-].
  - rewrite lookup_insert_ne by done. apply Hb.
Qed.

Lemma untouched_insert σ q t' (qs : list qid) :
  q ∈ qs ∨ σ !! q = None →
  ∀ q1 t1, q1 ∉ qs → σ !! q1 = Some t1 → <[q := t']> σ !! q1 = Some t1.
Proof.
  intros Hq q1 t1 Hq1 Ht1. rewrite lookup_insert_ne; [done|].
  intros <-. destruct Hq; [done|congruence].
Qed.

(** A call that returns or throws leaves the invariant in place, and the
    trees of the containers it does not touch where they were. *)
Lemma perform_invariant rq w σ :
  invariant w σ →
  (∀ w', perform Compare_default rq w = Ret () w' →
         ∃ σ', invariant w' σ' ∧
               ∀ q1 t1, q1 ∉ touched rq → σ !! q1 = Some t1 → σ' !! q1 = Some t1) ∧
  (∀ e w', perform Compare_default rq w = Throw e w' → invariant w' σ).
Proof.
  intros Hinv. pose proof Hinv as [H Hb].
  destruct rq as [|other|q|q other|q|q e|q|q|q|q other]; simpl.
  - (* Construct *)
    destruct (construct_spec _ w σ H) as (q & w1 & Hrun & Hfresh & Hn & H1).
    rewrite (bind_ret _ _ _ _ _ Hrun). split; [|discriminate].
    intros w' [= <-]. exists (<[q := Leaf]> σ).
    split; [apply (invariant_insert w); [done..|constructor]|apply untouched_insert; auto].
  - (* CopyConstruct *)
    destruct (σ !! other) as [t|] eqn:Ho.
    2:{ unfold copy_construct. rewrite bind_assoc.
        rewrite (this_dead _ _ _ (represents_dead _ _ _ H Ho)). split; discriminate. }
    destruct (copy_construct_spec _ w σ other t H Ho) as
      [(q & t' & w1 & Hrun & Hfresh & Hshape & _ & H1)|[(w1 & Hrun & Hn & Hq)|(a & Hrun)]].
    + rewrite (bind_ret _ _ _ _ _ Hrun). split; [|discriminate].
      intros w' [= <-]. exists (<[q := t']> σ).
      split; [|apply untouched_insert; auto].
      apply (invariant_insert w); [done..|]. rewrite Hshape. by eapply Hb.
    + rewrite (bind_throw _ _ _ _ _ Hrun). split; [discriminate|].
      intros e w' [= <- <-]. by eapply invariant_ext.
    + rewrite (bind_fault _ _ _ _ Hrun). split; discriminate.
  - (* Destroy *)
    destruct (σ !! q) as [t|] eqn:Hq.
    2:{ unfold destroy. rewrite (this_dead _ _ _ (represents_dead _ _ _ H Hq)).
        split; discriminate. }
    destruct (destroy_spec _ w σ q t H Hq) as (w1 & Hrun & H1).
    rewrite Hrun. split; [|discriminate]. intros w' [= <-]. exists (delete q σ).
    split; [split; [done|]|].
    + intros q0 t0 [_ Hq0]%lookup_delete_Some. by eapply Hb.
    + intros q1 t1 Hq1 Ht1. rewrite lookup_delete_ne; [done|].
      intros <-. apply Hq1. left.
  - (* Assign *)
    destruct (decide (q = other)) as [<-|Hne].
    { rewrite (bind_ret _ _ _ _ _ (assign_self q w)). split; [|discriminate].
      intros w' [= <-]. by exists σ. }
    destruct (σ !! other) as [t2|] eqn:Ho.
    2:{ unfold assign. rewrite decide_False by done. rewrite bind_assoc.
        rewrite (this_dead _ _ _ (represents_dead _ _ _ H Ho)). split; discriminate. }
    destruct (σ !! q) as [t1|] eqn:Hq.
    + destruct (assign_spec _ w σ q other t1 t2 H Hne Hq Ho) as
        [(t' & w1 & Hrun & Hshape & _ & H1)|[(w1 & Hrun & Hn & Hq1)|(a & Hrun)]].
      * rewrite (bind_ret _ _ _ _ _ Hrun). split; [|discriminate].
        intros w' [= <-]. exists (<[q := t']> σ).
        split; [|apply untouched_insert; left; left].
        apply (invariant_insert w); [done..|]. rewrite Hshape. by eapply Hb.
      * rewrite (bind_throw _ _ _ _ _ Hrun). split; [discriminate|].
        intros e w' [= <- <-]. by eapply invariant_ext.
      * rewrite (bind_fault _ _ _ _ Hrun). split; discriminate.
    + (* the copy is made, then [*this] turns out not to be alive *)
      destruct (represents_queue _ _ _ _ _ H Ho) as (po & Hpo & Hroot2 & _).
      unfold assign. rewrite decide_False by done. rewrite bind_assoc.
      rewrite (this_bind _ _ _ _ Hpo), Hroot2. rewrite bind_assoc.
      destruct (copy_root_spec _ w σ other t2 H Ho) as
        [(t' & w3 & Hrun & _ & _ & _ & _ & _ & Hq3 & _)
        |[(w3 & Hrun & Hn3 & Hq3)|(a & Hrun)]].
      * rewrite (bind_ret _ _ _ _ _ Hrun). rewrite bind_assoc.
        rewrite this_dead by (rewrite Hq3; by eapply represents_dead).
        split; discriminate.
      * rewrite (bind_throw _ _ _ _ _ Hrun). split; [discriminate|].
        intros e w' [= <- <-]. by eapply invariant_ext.
      * rewrite (bind_fault _ _ _ _ Hrun). split; discriminate.
  - (* Top *)
    destruct (σ !! q) as [t|] eqn:Hq.
    2:{ unfold top. rewrite bind_assoc.
        rewrite (this_dead _ _ _ (represents_dead _ _ _ H Hq)). split; discriminate. }
    pose proof (top_spec _ w σ q t H Hq) as Hrun. destruct t.
    + rewrite (bind_throw _ _ _ _ _ Hrun). split; [discriminate|]. by intros e w' [= <- <-].
    + rewrite (bind_ret _ _ _ _ _ Hrun). split; [|discriminate]. intros w' [= <-]. by exists σ.
  - (* Push *)
    destruct (σ !! q) as [t|] eqn:Hq.
    2:{ unfold push.
        destruct (new_Node_spec e w) as [(w1 & Hnew & Hn1 & Hq1)|(a & w1 & Hnew & _ & _ & Hq1 & _)].
        - rewrite (bind_throw _ _ _ _ _ Hnew). split; [discriminate|].
          intros e' w' [= <- <-]. by eapply invariant_ext.
        - rewrite (bind_ret _ _ _ _ _ Hnew).
          rewrite this_dead by (rewrite Hq1; by eapply represents_dead).
          split; discriminate. }
    destruct (push_spec _ w σ q t e H Hq) as [(w1 & Hrun & Hn & Hq1)|(a & _ & Hpush)].
    { rewrite Hrun. split; [discriminate|]. intros e' w' [= <- <-]. by eapply invariant_ext. }
    destruct (merge_shapes Compare_default (shape_of t) (Fork e 0 Nil Nil)) as [s|] eqn:Hs.
    + destruct Hpush as (t' & w1 & Hrun & Hshape & _ & H1). rewrite Hrun.
      split; [|discriminate]. intros w' [= <-]. exists (<[q := t']> σ).
      split; [|apply untouched_insert; left; left].
      apply (invariant_insert w); [done..|]. rewrite Hshape.
      eapply built_push; [|exact Hs]. by eapply Hb.
    + destruct Hpush as (w1 & Hrun & Hn & Hq1). rewrite Hrun. split; [discriminate|].
      intros e' w' [= <- <-]. by eapply invariant_ext.
  - (* Pop *)
    destruct (σ !! q) as [t|] eqn:Hq.
    2:{ unfold pop. rewrite (this_dead _ _ _ (represents_dead _ _ _ H Hq)). split; discriminate. }
    pose proof (pop_spec _ w σ q t H Hq) as Hpop. destruct t as [|a x n l r].
    { rewrite Hpop. split; [discriminate|]. by intros e' w' [= <- <-]. }
    destruct (merge_shapes Compare_default (shape_of l) (shape_of r)) as [s|] eqn:Hs.
    + destruct Hpop as (t' & w1 & Hrun & Hshape & _ & H1). rewrite Hrun.
      split; [|discriminate]. intros w' [= <-]. exists (<[q := t']> σ).
      split; [|apply untouched_insert; left; left].
      apply (invariant_insert w); [done..|]. rewrite Hshape.
      eapply built_pop; [|exact Hs]. apply (Hb q (Br a x n l r) Hq).
    + destruct Hpop as (w1 & Hrun & Hn & Hq1). rewrite Hrun. split; [discriminate|].
      intros e' w' [= <- <-]. by eapply invariant_ext.
  - (* Size *)
    destruct (σ !! q) as [t|] eqn:Hq.
    2:{ unfold size. rewrite bind_assoc.
        rewrite (this_dead _ _ _ (represents_dead _ _ _ H Hq)). split; discriminate. }
    rewrite (bind_ret _ _ _ _ _ (size_spec _ w σ q t H Hq)). split; [|discriminate].
    intros w' [= <-]. by exists σ.
  - (* Empty *)
    destruct (σ !! q) as [t|] eqn:Hq.
    2:{ unfold empty. rewrite bind_assoc.
        rewrite (this_dead _ _ _ (represents_dead _ _ _ H Hq)). split; discriminate. }
    rewrite (bind_ret _ _ _ _ _ (empty_spec _ w σ q t H Hq)). split; [|discriminate].
    intros w' [= <-]. by exists σ.
  - (* Merge *)
    destruct (decide (q = other)) as [<-|Hne].
    { rewrite merge_self. split; [|discriminate]. intros w' [= <-]. by exists σ. }
    destruct (σ !! q) as [t1|] eqn:Hq.
    2:{ unfold merge. rewrite decide_False by done.
        rewrite (this_dead _ _ _ (represents_dead _ _ _ H Hq)). split; discriminate. }
    destruct (σ !! other) as [t2|] eqn:Ho.
    2:{ unfold merge. rewrite decide_False by done.
        destruct (represents_queue _ _ _ _ _ H Hq) as (pq & Hpq & _).
        rewrite (this_bind _ _ _ _ Hpq).
        rewrite (this_dead _ _ _ (represents_dead _ _ _ H Ho)). split; discriminate. }
    pose proof (merge_spec _ w σ q other t1 t2 H Hne Hq Ho) as Hmerge.
    destruct (merge_shapes Compare_default (shape_of t1) (shape_of t2)) as [s|] eqn:Hs.
    + destruct Hmerge as (t' & w1 & Hrun & Hshape & _ & H1). rewrite Hrun.
      split; [|discriminate]. intros w' [= <-]. exists (<[other := Leaf]> (<[q := t']> σ)).
      split; [split; [done|]|].
      * intros q0 t0.
        destruct (decide (q0 = other)) as [->|Hne0].
        { rewrite lookup_insert_eq. intros [= <-]. constructor. }
        rewrite lookup_insert_ne by done.
        destruct (decide (q0 = q)) as [->|Hne1].
        { rewrite lookup_insert_eq. intros [= <-]. rewrite Hshape.
          eapply built_merge; [| |exact Hs]; by eapply Hb. }
        rewrite lookup_insert_ne by done. apply Hb.
      * intros q1 t0 Hq1 Ht0. simpl in Hq1.
        rewrite !lookup_insert_ne; [done|intros <-; apply Hq1; left
                                   |intros <-; apply Hq1; right; left].
    + destruct Hmerge as (w1 & Hrun & Hn & Hq1). rewrite Hrun. split; [discriminate|].
      intros e' w' [= <- <-]. by eapply invariant_ext.
Qed.

(** The invariant holds in every state a program can bring about. *)
Lemma reachable_invariant w : reachable Compare_default w → ∃ σ, invariant w σ.
Proof.
  induction 1 as [oracle|rq w w' _ [σ IH] Hrun|rq w e w' _ [σ IH] Hrun].
  - exists ∅. split; [split|]; simpl; try done; by intros; simplify_map_eq.
  - destruct (proj1 (perform_invariant rq w σ IH) w' Hrun) as (σ' & H' & _). by exists σ'.
  - exists σ. by apply (perform_invariant rq w σ IH) with e.
Qed.

(** What the invariant gives for built shapes. *)
Lemma built_heap_ordered s :
  strict_weak_order Compare_default → built s → heap_ordered Compare_default s.
Proof.
  intros Hswo. induction 1 as [|s e s' _ IH Hs|x n l r s _ IH Hs|s1 s2 s _ IH1 _ IH2 Hs].
  - done.
  - eapply merge_shapes_heap_ordered; [done|exact IH| |exact Hs]. simpl. done.
  - destruct IH as (_ & _ & Hl & Hr).
    eapply merge_shapes_heap_ordered; [done|exact Hl|exact Hr|exact Hs].
  - eapply merge_shapes_heap_ordered; [done|exact IH1|exact IH2|exact Hs].
Qed.

End reachability.

(** ** What clients observe *)

Section observations.

Context {T : Type}.
Variable Compare_default : Compare T.
Implicit Types (w : World T) (t l r : tree T) (σ : gmap qid (tree T)).

Local Abbreviation represents := (represents Compare_default).
Local Abbreviation invariant := (invariant Compare_default).
Local Abbreviation built := (built Compare_default).
Local Abbreviation reachable := (reachable Compare_default).

Lemma represents_holds w σ q t :
  represents w σ → σ !! q = Some t → holds w q (elements (shape_of t)).
Proof.
  intros H Hq. destruct (represents_queue _ _ _ _ _ H Hq) as (pq & Hpq & Hroot & _).
  exists pq, t. split_and!; [done|done| |done]. by eapply (rep_own _ _ _ H).
Qed.

Lemma holds_represents w σ q xs :
  represents w σ → holds w q xs →
  ∃ t, σ !! q = Some t ∧ xs = elements (shape_of t).
Proof.
  intros H (pq & t0 & Hpq & Hroot & Hown & ->).
  destruct (proj1 (represents_live _ _ _ q H)) as [t Hq]; [by eexists|].
  exists t. split; [done|]. f_equal. f_equal.
  apply (own_unique (nodes w)); [done|by eapply (rep_own _ _ _ H)|].
  rewrite Hroot. by eapply (rep_root _ _ _ H).
Qed.

Lemma holds_unique w q xs ys : holds w q xs → holds w q ys → xs = ys.
Proof.
  intros (pq & t & Hpq & Hroot & Hown & ->) (pq' & t' & Hpq' & Hroot' & Hown' & ->).
  rewrite Hpq in Hpq'. injection Hpq' as <-.
  by rewrite (own_unique (nodes w) t t') by congruence.
Qed.

(** [drain] removes exactly the [pop_sequence] of the tree. *)
Lemma drain_loop_spec fuel w σ q t :
  represents w σ → σ !! q = Some t → (weight (shape_of t) < fuel)%nat →
  ∃ w' t', drain_loop fuel q w = Ret (pop_sequence Compare_default (shape_of t)) w' ∧
           represents w' (<[q := t']> σ) ∧
           ((∀ x y, is_Some (Compare_default x y)) → t' = Leaf).
Proof.
  revert w σ t. induction fuel as [|fuel IH]; intros w σ t H Hq Hfuel; [lia|].
  simpl. rewrite (bind_ret _ _ _ _ _ (empty_spec _ w σ q t H Hq)).
  destruct t as [|a x n l r].
  { exists w, Leaf. split; [done|]. by rewrite insert_id. }
  pose proof (top_spec _ w σ q _ H Hq) as Htop. simpl in Htop.
  rewrite (bind_ret _ _ _ _ _ Htop).
  pose proof (pop_spec _ w σ q _ H Hq) as Hpop. simpl in Hpop, Hfuel.
  unfold pop_sequence. simpl.
  destruct (merge_shapes Compare_default (shape_of l) (shape_of r)) as [s|] eqn:Hs.
  - destruct Hpop as (t1 & w1 & Hrun & Hshape & _ & H1).
    erewrite bind_ret by (apply try_catch_ret; erewrite bind_ret by exact Hrun; reflexivity).
    pose proof (merge_shapes_weight _ _ _ _ Hs) as Hw.
    destruct (IH w1 (<[q := t1]> σ) t1 H1 (lookup_insert_eq _ _ _)) as (w2 & t2 & Hrun2 & H2 & Hleaf).
    { rewrite Hshape. lia. }
    rewrite (bind_ret _ _ _ _ _ Hrun2). exists w2, t2. split_and!; [|by rewrite insert_insert_eq in H2|done].
    simpl. rewrite Hshape, <- Hw. reflexivity.
  - destruct Hpop as (w1 & Hrun & Hn & Hq1).
    erewrite bind_ret
      by (erewrite try_catch_throw by (apply bind_throw; exact Hrun); reflexivity).
    exists w1, (Br a x n l r). split_and!; [done| |].
    + rewrite insert_id by done. by eapply represents_ext.
    + intros Htot. destruct (merge_shapes_total Compare_default (shape_of l) (shape_of r) Htot).
      congruence.
Qed.

Lemma drain_spec w σ q t :
  represents w σ → σ !! q = Some t →
  ∃ w' t', drain q w = Ret (pop_sequence Compare_default (shape_of t)) w' ∧
           represents w' (<[q := t']> σ) ∧
           ((∀ x y, is_Some (Compare_default x y)) → t' = Leaf).
Proof.
  intros H Hq. apply drain_loop_spec; [done..|].
  pose proof (own_size _ _ (rep_own _ _ _ H _ _ Hq) (rep_nodup _ _ _ H _ _ Hq)). lia.
Qed.

(** What the elements of a container become under [push] and [pop]. *)
Lemma push_holds w q e xs w' :
  reachable w → holds w q xs → push q e w = Ret () w' →
  ∃ ys, holds w' q ys ∧ ys ≡ₚ e :: xs.
Proof.
  intros [σ [H _]]%reachable_invariant Hxs Hrun.
  destruct (holds_represents _ _ _ _ H Hxs) as (t & Hq & ->).
  destruct (push_spec _ w σ q t e H Hq) as [(w1 & Hrun1 & _)|(a & _ & Hpush)]; [congruence|].
  destruct (merge_shapes Compare_default (shape_of t) (Fork e 0 Nil Nil)) as [s|] eqn:Hs.
  2:{ destruct Hpush as (w1 & Hrun1 & _). congruence. }
  destruct Hpush as (t' & w1 & Hrun1 & Hshape & _ & H1).
  rewrite Hrun in Hrun1. injection Hrun1 as <-.
  exists (elements (shape_of t')). split.
  - eapply represents_holds; [exact H1|apply lookup_insert_eq].
  - rewrite Hshape, (merge_shapes_elements _ _ _ _ Hs). simpl. solve_Permutation.
Qed.

Lemma pop_holds w q xs w' :
  reachable w → holds w q xs → pop q w = Ret () w' →
  ∃ x ys, top q w = Ret x w ∧ holds w' q ys ∧ xs ≡ₚ x :: ys.
Proof.
  intros [σ [H _]]%reachable_invariant Hxs Hrun.
  destruct (holds_represents _ _ _ _ H Hxs) as (t & Hq & ->).
  pose proof (pop_spec _ w σ q t H Hq) as Hpop.
  pose proof (top_spec _ w σ q t H Hq) as Htop.
  destruct t as [|a x n l r]; [congruence|].
  destruct (merge_shapes Compare_default (shape_of l) (shape_of r)) as [s|] eqn:Hs.
  2:{ destruct Hpop as (w1 & Hrun1 & _). congruence. }
  destruct Hpop as (t' & w1 & Hrun1 & Hshape & _ & H1).
  rewrite Hrun in Hrun1. injection Hrun1 as <-.
  exists x, (elements (shape_of t')). split_and!; [done| |].
  - eapply represents_holds; [exact H1|apply lookup_insert_eq].
  - rewrite Hshape, (merge_shapes_elements _ _ _ _ Hs). done.
Qed.

(** C2. Under a strict weak ordering that does not throw, in every state a
    program can reach, [top] of a non-empty container returns one of the
    elements it holds, and none of them compares greater; popping until the
    container is empty removes exactly the elements it held, each not
    greater than the one before, and leaves the container empty. *)
Theorem C2_top_is_maximum_and_pops_descend w q xs :
  strict_weak_order Compare_default → reachable w → holds w q xs →
  (xs ≠ [] →
   ∃ x, top q w = Ret x w ∧ x ∈ xs ∧ ∀ y, y ∈ xs → Compare_default x y = Some false) ∧
  (∃ ys w', drain q w = Ret ys w' ∧ ys ≡ₚ xs ∧
            StronglySorted (λ a b, Compare_default a b = Some false) ys ∧
            holds w' q [] ∧ empty q w' = Ret true w' ∧
            top q w' = Throw container_is_empty w' ∧
            pop q w' = Throw container_is_empty w').
Proof.
  intros Hswo [σ [H Hb]]%reachable_invariant Hxs.
  destruct (holds_represents _ _ _ _ H Hxs) as (t & Hq & ->).
  pose proof (built_heap_ordered _ _ Hswo (Hb q t Hq)) as Hheap.
  split.
  - intros Hne. pose proof (top_spec _ w σ q t H Hq) as Htop.
    destruct t as [|a x n l r]; [done|]. exists x. split_and!; [done|left|].
    intros y Hy. by eapply (heap_ordered_root Compare_default Hswo).
  - destruct (drain_spec w σ q t H Hq) as (w' & t' & Hrun & H' & Hleaf).
    rewrite (Hleaf (swo_total _ Hswo)) in H'.
    destruct (pop_sequence_sorted Compare_default (shape_of t) Hswo Hheap) as [Hperm Hsorted].
    exists (pop_sequence Compare_default (shape_of t)), w'.
    pose proof (lookup_insert_eq σ q (@Leaf T)) as Hq'.
    split_and!; [done|done|done|..].
    + apply (represents_holds _ _ _ _ H' Hq').
    + apply (empty_spec _ _ _ _ _ H' Hq').
    + apply (top_spec _ _ _ _ _ H' Hq').
    + apply (pop_spec _ _ _ _ _ H' Hq').
Qed.

(** C3. [merge] of two distinct containers that returns leaves the receiver
    with the elements of both and the sum of their sizes, and leaves
    [other] with no root and count 0; a predicate that never throws makes it
    return.  [merge] of a container with itself returns at once, the whole
    store as it was. *)
Theorem C3_merge_unites_and_empties_other w q other xs ys :
  reachable w → holds w q xs → holds w other ys →
  (q = other → merge q other w = Ret () w) ∧
  (q ≠ other →
   size q w = Ret (Z.of_nat (length xs)) w ∧
   size other w = Ret (Z.of_nat (length ys)) w ∧
   ((∀ x y, is_Some (Compare_default x y)) → ∃ w', merge q other w = Ret () w') ∧
   ∀ w', merge q other w = Ret () w' →
     size q w' = Ret (Z.of_nat (length xs + length ys)) w' ∧
     (∃ zs, holds w' q zs ∧ zs ≡ₚ xs ++ ys) ∧
     (∃ po, queues w' !! other = Some po ∧ root po = None ∧ count po = 0) ∧
     holds w' other [] ∧ size other w' = Ret 0 w' ∧ empty other w' = Ret true w').
Proof.
  intros [σ [H _]]%reachable_invariant Hxs Hys. split.
  { intros <-. apply merge_self. }
  intros Hne.
  destruct (holds_represents _ _ _ _ H Hxs) as (t1 & Hq & ->).
  destruct (holds_represents _ _ _ _ H Hys) as (t2 & Ho & ->).
  rewrite !elements_length.
  pose proof (merge_spec _ w σ q other t1 t2 H Hne Hq Ho) as Hmerge.
  split_and!; [by apply (size_spec Compare_default w σ)
              |by apply (size_spec Compare_default w σ)| |].
  - intros Htot.
    destruct (merge_shapes_total Compare_default (shape_of t1) (shape_of t2) Htot) as [s Hs].
    rewrite Hs in Hmerge. destruct Hmerge as (t' & w' & Hrun & _). by exists w'.
  - intros w' Hrun.
    destruct (merge_shapes Compare_default (shape_of t1) (shape_of t2)) as [s|] eqn:Hs.
    2:{ destruct Hmerge as (w1 & Hrun1 & _). congruence. }
    destruct Hmerge as (t' & w1 & Hrun1 & Hshape & _ & H1).
    rewrite Hrun in Hrun1. injection Hrun1 as <-.
    assert (<[other := Leaf]> (<[q := t']> σ) !! q = Some t') as Hq'.
    { by rewrite lookup_insert_ne, lookup_insert_eq. }
    pose proof (lookup_insert_eq (<[q := t']> σ) other (@Leaf T)) as Ho'.
    split_and!.
    + rewrite (size_spec _ _ _ _ _ H1 Hq'), Hshape, (merge_shapes_weight _ _ _ _ Hs). done.
    + exists (elements (shape_of t')). split; [by eapply represents_holds|].
      rewrite Hshape. by apply merge_shapes_elements in Hs.
    + destruct (represents_queue _ _ _ _ _ H1 Ho') as (po & Hpo & Hroot & Hcount & _).
      by exists po.
    + apply (represents_holds _ _ _ _ H1 Ho').
    + apply (size_spec _ _ _ _ _ H1 Ho').
    + apply (empty_spec _ _ _ _ _ H1 Ho').
Qed.

(** C5. [top] and [pop] throw [container_is_empty] exactly when the
    container holds no element, and then the whole store is as it was; in
    particular a [pop] that fails because the predicate threw does not
    throw [container_is_empty].  [top] of a non-empty container returns the
    element stored in the root node and changes nothing. *)
Theorem C5_empty_error_iff_no_element w q xs :
  reachable w → holds w q xs →
  ((∃ w', top q w = Throw container_is_empty w') ↔ xs = []) ∧
  ((∃ w', pop q w = Throw container_is_empty w') ↔ xs = []) ∧
  (∀ e w', top q w = Throw e w' → e = container_is_empty ∧ w' = w) ∧
  (∀ w', pop q w = Throw container_is_empty w' → w' = w) ∧
  (xs ≠ [] → ∃ pq a n, queues w !! q = Some pq ∧ root pq = Some a ∧
                        nodes w !! a = Some n ∧ top q w = Ret (data n) w).
Proof.
  intros [σ [H _]]%reachable_invariant Hxs.
  destruct (holds_represents _ _ _ _ H Hxs) as (t & Hq & ->).
  pose proof (top_spec _ w σ q t H Hq) as Htop.
  pose proof (pop_spec _ w σ q t H Hq) as Hpop.
  destruct (represents_queue _ _ _ _ _ H Hq) as (pq & Hpq & Hroot & _).
  destruct t as [|a x n l r]; simpl.
  - split_and!; [by split; eauto|by split; eauto| | |done].
    + intros e w'. rewrite Htop. by intros [= <- <-].
    + intros w'. rewrite Hpop. by intros [= <-].
  - assert (∀ w', pop q w ≠ Throw container_is_empty w') as Hnot.
    { intros w' Hrun.
      destruct (merge_shapes Compare_default (shape_of l) (shape_of r)).
      - destruct Hpop as (? & ? & Hpop & _). congruence.
      - destruct Hpop as (? & Hpop & _). congruence. }
    split_and!.
    + split; [intros [w' Hrun]; congruence|done].
    + split; [intros [w' Hrun]; by destruct (Hnot w')|done].
    + intros e w'. rewrite Htop. done.
    + intros w' Hrun. by destruct (Hnot w').
    + intros _. destruct (rep_own _ _ _ H _ _ Hq) as (Ha & _).
      eexists pq, a, _. split_and!; [done|done|exact Ha|done].
Qed.

(** *** Node-level readings of the invariant *)

Lemma own_heap_node less m t a n :
  own m t → heap_ordered less (shape_of t) → a ∈ addrs t → m !! a = Some n →
  ∀ c nc, left n = Some c ∨ right n = Some c → m !! c = Some nc →
          less (data n) (data nc) = Some false.
Proof.
  induction t as [|a0 x k l IHl r IHr]; simpl; [by intros _ _ ?%elem_of_nil|].
  intros (Ha0 & Hl & Hr) (Hxl & Hxr & Hhl & Hhr) Ha Hn c nc Hc Hnc.
  apply elem_of_cons in Ha as [->|[Ha|Ha]%elem_of_app]; [|by eapply IHl|by eapply IHr].
  rewrite Ha0 in Hn. injection Hn as <-. simpl in *.
  destruct Hc as [Hc|Hc].
  - destruct l as [|c' y j ll lr]; [done|]. injection Hc as ->.
    destruct Hl as (Hc & _). rewrite Hc in Hnc. by injection Hnc as <-.
  - destruct r as [|c' y j rl rr]; [done|]. injection Hc as ->.
    destruct Hr as (Hc & _). rewrite Hc in Hnc. by injection Hnc as <-.
Qed.

Lemma own_leftist_node m t a n :
  own m t → leftist (shape_of t) → Z.of_nat (weight (shape_of t)) ≤ SIZE_MAX →
  a ∈ addrs t → m !! a = Some n →
  stored_npl m (right n) ≤ stored_npl m (left n) ∧
  npl n = stored_npl m (right n) + 1 ∧ 0 ≤ npl n < 64.
Proof.
  induction t as [|a0 x k l IHl r IHr]; simpl; [by intros _ _ _ ?%elem_of_nil|].
  intros (Ha0 & Hl & Hr) (Hle & Hk & Hll & Hlr) Hw Ha Hn.
  apply elem_of_cons in Ha as [->|[Ha|Ha]%elem_of_app];
    [|apply IHl; (done || lia)|apply IHr; (done || lia)].
  rewrite Ha0 in Hn. injection Hn as <-. simpl.
  rewrite !own_stored_npl by done. split_and!; [done|done| |].
  - pose proof (leftist_rank_weight _ Hlr). lia.
  - pose proof (npl_fits_int (Fork x k (shape_of l) (shape_of r))) as Hfit.
    simpl in Hfit. apply Hfit; [done|lia].
Qed.

(** C6. Under a strict weak ordering that does not throw, in every state a
    program can reach, every node of every container's tree is not smaller
    than either of its children: the predicate, asked whether the node's
    element is less than the child's, answers no. *)
Theorem C6_heap_property w q pq a n c nc :
  strict_weak_order Compare_default → reachable w →
  queues w !! q = Some pq → reaches (nodes w) (root pq) a → nodes w !! a = Some n →
  left n = Some c ∨ right n = Some c → nodes w !! c = Some nc →
  Compare_default (data n) (data nc) = Some false.
Proof.
  intros Hswo [σ [H Hb]]%reachable_invariant Hpq Hreach Hn Hc Hnc.
  destruct (proj1 (represents_live _ _ _ q H)) as [t Hq]; [by eexists|].
  pose proof (rep_own _ _ _ H _ _ Hq) as Hown.
  rewrite (rep_root _ _ _ H _ _ _ Hpq Hq) in Hreach.
  apply (own_reaches _ _ _ Hown) in Hreach.
  eapply (own_heap_node Compare_default (nodes w) t a n); try done.
  by apply built_heap_ordered, (Hb q).
Qed.

(** C7. In every state a program can reach, at every node of every
    container's tree the npl read on the left child ([-1] for an absent one)
    is at least the one read on the right child, and the node's own npl
    field is the latter plus one (so between 0 and 63).  [mergeNodes]
    re-establishes this at the winner once the recursive call has returned:
    its remaining code swaps the children exactly when the left npl is the
    smaller one and stores the right npl plus one. *)
Theorem C7_leftist_property w q pq a n :
  reachable w →
  queues w !! q = Some pq → reaches (nodes w) (root pq) a → nodes w !! a = Some n →
  (stored_npl (nodes w) (right n) ≤ stored_npl (nodes w) (left n) ∧
   npl n = stored_npl (nodes w) (right n) + 1 ∧ 0 ≤ npl n < 64 ∧
   (left n = None → right n = None → npl n = 0)) ∧
  (∀ m h x l r p0 n0 w0,
     m !! h = Some (mkNode x (rootp l) p0 n0) → own m l → own m r →
     h ∉ addrs l → h ∉ addrs r → leftist (shape_of l) → leftist (shape_of r) →
     ∃ t m', relink_nodes h (rootp r) (set_nodes m w0) = Ret (rootp t) (set_nodes m' w0) ∧
             own m' t ∧ leftist (shape_of t) ∧
             shape_of t = if rank (shape_of l) <? rank (shape_of r)
                          then Fork x (rank (shape_of l) + 1) (shape_of r) (shape_of l)
                          else Fork x (rank (shape_of r) + 1) (shape_of l) (shape_of r)).
Proof.
  intros [σ [H Hb]]%reachable_invariant Hpq Hreach Hn. split.
  - destruct (proj1 (represents_live _ _ _ q H)) as [t Hq]; [by eexists|].
    pose proof (rep_own _ _ _ H _ _ Hq) as Hown.
    rewrite (rep_root _ _ _ H _ _ _ Hpq Hq) in Hreach.
    apply (own_reaches _ _ _ Hown) in Hreach.
    destruct (own_leftist_node (nodes w) t a n) as (H1 & H2 & H3); try done.
    { by eapply (rep_leftist _ _ _ H). }
    { by eapply represents_weight. }
    split_and!; [done|done|lia|lia|]. intros Hl Hr. rewrite H2, Hr. done.
  - intros m h x l r p0 n0 w0 Hh Hl Hr Hhl Hhr Hll Hlr.
    destruct (relink_nodes_spec h x l r p0 n0 m w0 Hh Hl Hr Hhl Hhr)
      as (t & m' & Hrun & Hshape & Hown & _).
    exists t, m'. split_and!; [done|done| |done].
    rewrite Hshape. by apply relink_leftist.
Qed.

(** The count invariant holds in every state a program can reach. *)
Lemma reachable_counted w : reachable w → counted w.
Proof.
  intros [σ [H Hb]]%reachable_invariant q pq Hpq.
  destruct (proj1 (represents_live _ _ _ q H)) as [t Hq]; [by eexists|].
  pose proof (rep_own _ _ _ H _ _ Hq) as Hown.
  pose proof (rep_root _ _ _ H _ _ _ Hpq Hq) as Hroot.
  pose proof (rep_count _ _ _ H _ _ _ Hpq Hq) as Hcount.
  split_and!.
  - rewrite Hroot, Hcount. destruct t; simpl; [done|]. split; [lia|done].
  - exists (addrs t). split_and!; [by eapply (rep_nodup _ _ _ H)| |].
    + intros a. rewrite Hroot. symmetry. by apply own_reaches.
    + by rewrite addrs_length.
  - unfold size. by rewrite (this_bind _ _ _ _ Hpq).
  - unfold empty. rewrite (this_bind _ _ _ _ Hpq). simpl.
    by destruct (Z.eqb_spec (count pq) 0); [rewrite bool_decide_eq_true_2
                                          |rewrite bool_decide_eq_false_2].
Qed.

(** X17. In every state a program can reach, a container's count is 0
    exactly when it has no root, the count is the number of nodes one
    reaches from the root, and [size] and [empty] report it; the same is
    true of the state left behind by any public call that returns or
    throws.  (A call that does neither, the copy that releases a node
    twice, leaves no state.) *)
Theorem count_is_number_of_nodes w :
  reachable w →
  counted w ∧
  ∀ rq w', perform Compare_default rq w = Ret () w' ∨
           (∃ e, perform Compare_default rq w = Throw e w') →
           counted w'.
Proof.
  intros Hreach. split; [by apply reachable_counted|].
  intros rq w' [Hrun|[e Hrun]]; apply reachable_counted.
  - by eapply reachable_return.
  - by eapply reachable_catch.
Qed.

(** *** Copies *)

Lemma represents_queue_eq w w' σ σ' q t :
  represents w σ → represents w' σ' → σ !! q = Some t → σ' !! q = Some t →
  queues w' !! q = queues w !! q.
Proof.
  intros H H' Hq Hq'.
  destruct (represents_queue _ _ _ _ _ H Hq) as ([r1 c1 f1] & -> & Hr1 & Hc1 & Hf1).
  destruct (represents_queue _ _ _ _ _ H' Hq') as ([r2 c2 f2] & -> & Hr2 & Hc2 & Hf2).
  simpl in *. congruence.
Qed.

(** Pushing to and popping from [q] leaves every other container's tree,
    node for node, where it was. *)
Lemma mutated_untouched w σ q q1 t1 w' :
  invariant w σ → σ !! q1 = Some t1 → q1 ≠ q → mutated q w w' →
  ∃ σ', invariant w' σ' ∧ σ' !! q1 = Some t1.
Proof.
  intros Hinv Hq1 Hne. induction 1 as [w|w w1 w2 e _ IH Hrun|w w1 w2 _ IH Hrun].
  - by exists σ.
  - destruct (IH Hinv) as (σ1 & Hinv1 & Hq1').
    destruct (perform_invariant Compare_default (Push q e) w1 σ1 Hinv1) as [Hret Hthrow].
    destruct Hrun as [Hrun|[ex Hrun]].
    + destruct (Hret w2 Hrun) as (σ2 & Hinv2 & Hkeep). exists σ2. split; [done|].
      apply Hkeep; [|done]. simpl. by intros ->%list_elem_of_singleton.
    + exists σ1. split; [by eapply Hthrow|done].
  - destruct (IH Hinv) as (σ1 & Hinv1 & Hq1').
    destruct (perform_invariant Compare_default (Pop q) w1 σ1 Hinv1) as [Hret Hthrow].
    destruct Hrun as [Hrun|[ex Hrun]].
    + destruct (Hret w2 Hrun) as (σ2 & Hinv2 & Hkeep). exists σ2. split; [done|].
      apply Hkeep; [|done]. simpl. by intros ->%list_elem_of_singleton.
    + exists σ1. split; [by eapply Hthrow|done].
Qed.

(** What holds once [q] owns a fresh copy [t'] of the tree [t] of [other]. *)
Lemma copy_observations w σ w' q other t t' :
  invariant w σ → σ !! other = Some t → q ≠ other →
  represents w' (<[q := t']> σ) → shape_of t' = shape_of t →
  (∀ a, a ∈ addrs t' → nodes w !! a = None) →
  (∃ po pq, queues w !! other = Some po ∧ queues w' !! other = Some po ∧
            queues w' !! q = Some pq ∧
            root po = rootp t ∧ root pq = rootp t' ∧ count pq = count po ∧
            cmp pq = cmp po) ∧
  own (nodes w) t ∧ own (nodes w') t ∧ own (nodes w') t' ∧
  (∀ a, a ∈ addrs t' → a ∉ addrs t) ∧
  (∃ xs w1 w2, drain q w' = Ret xs w1 ∧ drain other w' = Ret xs w2) ∧
  (∀ w'', mutated q w' w'' →
          own (nodes w'') t ∧ queues w'' !! other = queues w' !! other) ∧
  (∀ w'', mutated other w' w'' →
          own (nodes w'') t' ∧ queues w'' !! q = queues w' !! q).
Proof.
  intros [H Hb] Ho Hne H' Hshape Hfresh.
  assert (<[q := t']> σ !! other = Some t) as Ho' by (by rewrite lookup_insert_ne).
  pose proof (lookup_insert_eq σ q t') as Hq'.
  assert (invariant w' (<[q := t']> σ)) as Hinv'.
  { split; [done|]. intros q0 t0. destruct (decide (q0 = q)) as [->|Hne0].
    - rewrite lookup_insert_eq. intros [= <-]. rewrite Hshape. by eapply Hb.
    - rewrite lookup_insert_ne by done. apply Hb. }
  pose proof (rep_own _ _ _ H _ _ Ho) as Hown.
  split_and!.
  - destruct (represents_queue _ _ _ _ _ H Ho) as (po & Hpo & Hr & Hc & Hf).
    destruct (represents_queue _ _ _ _ _ H' Hq') as (pq & Hpq & Hr' & Hc' & Hf').
    exists po, pq. split_and!; try done.
    + by rewrite (represents_queue_eq w w' σ (<[q := t']> σ) other t).
    + by rewrite Hc, Hc', Hshape.
    + congruence.
  - done.
  - by eapply (rep_own _ _ _ H').
  - by eapply (rep_own _ _ _ H').
  - intros a Ha Hin. destruct (own_lookup _ _ _ Hown Hin) as [n Hn].
    rewrite (Hfresh a Ha) in Hn. discriminate.
  - destruct (drain_spec w' _ q t' H' Hq') as (w1 & _ & Hrun1 & _).
    destruct (drain_spec w' _ other t H' Ho') as (w2 & _ & Hrun2 & _).
    exists (pop_sequence Compare_default (shape_of t)), w1, w2. by rewrite <- Hshape at 1.
  - intros w'' Hmut.
    destruct (mutated_untouched w' _ q other t w'' Hinv' Ho') as (σ'' & [H'' _] & Ho''); [done..|].
    split; [by eapply (rep_own _ _ _ H'')|]. by eapply represents_queue_eq.
  - intros w'' Hmut.
    destruct (mutated_untouched w' _ other q t' w'' Hinv' Hq') as (σ'' & [H'' _] & Hq''); [done..|].
    split; [by eapply (rep_own _ _ _ H'')|]. by eapply represents_queue_eq.
Qed.

Lemma assign_returns_live w σ q other (q' : qid) w' :
  represents w σ → q ≠ other → assign q other w = Ret q' w' → is_Some (σ !! q).
Proof.
  intros H Hne Hrun. destruct (σ !! q) as [t1|] eqn:Hq; [by eexists|exfalso].
  unfold assign in Hrun. rewrite decide_False in Hrun by done.
  destruct (σ !! other) as [t2|] eqn:Ho.
  2:{ by rewrite (this_dead _ _ _ (represents_dead _ _ _ _ H Ho)) in Hrun. }
  destruct (represents_queue _ _ _ _ _ H Ho) as (po & Hpo & Hroot2 & _).
  rewrite (this_bind _ _ _ _ Hpo), Hroot2 in Hrun.
  destruct (copy_root_spec _ w σ other t2 H Ho) as
    [(t' & w3 & Hcopy & _ & _ & _ & _ & _ & Hq3 & _)
    |[(w3 & Hcopy & _)|(a & Hcopy)]].
  - rewrite (bind_ret _ _ _ _ _ Hcopy) in Hrun.
    rewrite this_dead in Hrun; [done|]. rewrite Hq3. by eapply represents_dead.
  - by rewrite (bind_throw _ _ _ _ _ Hcopy) in Hrun.
  - by rewrite (bind_fault _ _ _ _ Hcopy) in Hrun.
Qed.

(** C9. Copy construction and copy assignment that return leave [q] an
    independent deep clone of [other]: a tree of other nodes with the
    structure, the elements and the npl fields of the tree of [other], and
    the latter's count and predicate; [other] and its nodes are as before;
    draining either container yields the same sequence, and pushing to or
    popping from one of them leaves the tree and the members of the other
    as they are.  And both do return, copy assignment with [q] itself,
    whenever the allocator grants every request and the store has room
    for the clone. *)
Theorem C9_copy_is_independent_deep_clone w other :
  reachable w →
  (∀ q w', copy_construct other w = Ret q w' → cloned w other q w') ∧
  (∀ q w', q ≠ other → assign q other w = Ret q w' → cloned w other q w') ∧
  (∀ po, queues w !! other = Some po → Forall (eq true) (new_ok w) →
         Z.of_nat (base.size (nodes w)) + count po ≤ SIZE_MAX →
         (∃ q w', copy_construct other w = Ret q w') ∧
         (∀ q, is_Some (queues w !! q) → ∃ w', assign q other w = Ret q w')).
Proof.
  intros [σ Hinv]%reachable_invariant. pose proof Hinv as [H Hb].
  split_and!.
  - intros q w' Hrun.
    destruct (σ !! other) as [t|] eqn:Ho.
    2:{ exfalso. pose proof (represents_dead _ _ _ _ H Ho) as Hdead.
        unfold copy_construct in Hrun. by rewrite (this_dead _ _ _ Hdead) in Hrun. }
    destruct (copy_construct_spec _ w σ other t H Ho) as
      [(q0 & t' & w1 & Hrun1 & Hfresh & Hshape & Hnew & H1)
      |[(w1 & Hrun1 & _)|(a & Hrun1)]]; [|congruence..].
    rewrite Hrun in Hrun1. injection Hrun1 as <- <-.
    exists t, t'. split; [done|].
    apply (copy_observations w σ w' q other t t'); try done. congruence.
  - intros q w' Hne Hrun.
    destruct (σ !! other) as [t|] eqn:Ho.
    2:{ exfalso. pose proof (represents_dead _ _ _ _ H Ho) as Hdead.
        unfold assign in Hrun. rewrite decide_False in Hrun by done.
        by rewrite (this_dead _ _ _ Hdead) in Hrun. }
    destruct (σ !! q) as [t1|] eqn:Hq.
    + destruct (assign_spec _ w σ q other t1 t H Hne Hq Ho) as
        [(t' & w1 & Hrun1 & Hshape & Hnew & H1)
        |[(w1 & Hrun1 & _)|(a & Hrun1)]]; [|congruence..].
      rewrite Hrun in Hrun1. injection Hrun1 as <-.
      exists t, t'. split; [done|].
      by apply (copy_observations w σ w' q other t t').
    + destruct (assign_returns_live w σ q other q w' H Hne Hrun) as [? ?]. congruence.
  - intros po Hpo Hok Hcap.
    destruct (proj1 (represents_live _ _ _ other H)) as [t Ho]; [by eexists|].
    rewrite (rep_count _ _ _ H _ _ _ Hpo Ho) in Hcap.
    by eapply copies_return.
Qed.

(** C10. Assigning a container to itself returns the container at once; the
    whole store (every container, every node, the log of released nodes)
    is as it was. *)
Theorem C10_self_assignment_is_noop (q : qid) w : assign q q w = Ret q w.
Proof. apply assign_self. Qed.

End observations.

(** ** What the operations do to the store *)

Section accounting.

Context {T : Type}.
Implicit Types (w : World T) (less : Compare T).

Lemma relinked_refl w : relinked w w.
Proof. by repeat split. Qed.

Lemma relinked_trans w1 w2 w3 : relinked w1 w2 → relinked w2 w3 → relinked w1 w3.
Proof.
  intros (Hq & Hr & Ho & Hd) (Hq' & Hr' & Ho' & Hd').
  split_and!; [congruence..|]. intros b. by rewrite Hd', Hd.
Qed.

Lemma relinks_only_bind {A B} (c : M T A) (k : A → M T B) :
  relinks_only c → (∀ a, relinks_only (k a)) → relinks_only (c ≫= k).
Proof.
  intros Hc Hk w b w' (a & w1 & Hrun & Hrest)%bind_ret_inv.
  eapply relinked_trans; [by eapply Hc|by eapply Hk].
Qed.

Lemma relinks_only_ret {A} (a : A) : relinks_only (mret a : M T A).
Proof. intros w b w' [= _ <-]. apply relinked_refl. Qed.

Lemma relinks_only_read {A} (c : M T A) : read_only c → relinks_only c.
Proof.
  intros Hc w a w' Hrun. destruct (Hc w) as [[a' Ha]|[f Hf]]; [|congruence].
  rewrite Hrun in Ha. injection Ha as _ <-. apply relinked_refl.
Qed.

Lemma relinks_only_call less x y : relinks_only (call less x y).
Proof.
  intros w b w'. unfold call. destruct (less x y); [|discriminate].
  intros [= _ <-]. apply relinked_refl.
Qed.

Lemma relinks_only_update a (f : Node T → Node T) :
  (∀ n, data (f n) = data n) → relinks_only (update a f).
Proof.
  intros Hf w u w'. unfold update. destruct (nodes w !! a) as [n|] eqn:Hn; [|discriminate].
  intros [= _ <-]. unfold relinked. simpl. split_and!; [done..|]. intros b.
  destruct (decide (b = a)) as [->|Hne].
  - by rewrite lookup_insert_eq, Hn; simpl; rewrite Hf.
  - by rewrite lookup_insert_ne.
Qed.

Lemma relinks_only_mergeNodes fuel less h1 h2 : relinks_only (mergeNodes fuel less h1 h2).
Proof.
  revert h1 h2. induction fuel as [|fuel IH]; intros h1 h2; [by intros w a w' ?|].
  destruct h1 as [a1|], h2 as [a2|]; try apply relinks_only_ret.
  rewrite mergeNodes_unfold.
  repeat first
    [ apply relinks_only_bind; [|intros ?]
    | apply IH
    | apply relinks_only_call
    | apply relinks_only_ret
    | apply relinks_only_read; first [apply read_only_deref|apply read_only_getNpl]
    | apply relinks_only_update; done
    | progress unfold relink_nodes, set_left, set_right, set_npl
    | match goal with |- relinks_only (if ?b then _ else _) => destruct b end ].
Qed.

Lemma try_catch_ret_inv {A} (body handler : M T A) w a w' :
  try_catch body handler w = Ret a w' →
  body w = Ret a w' ∨ ∃ e w1, body w = Throw e w1 ∧ handler w1 = Ret a w'.
Proof. unfold try_catch. destruct (body w); try discriminate; eauto. Qed.

Lemma this_bind_ret {B} q (k : priority_queue T → M T B) w b w' :
  (this q ≫= k) w = Ret b w' → ∃ pq, queues w !! q = Some pq ∧ k pq w = Ret b w'.
Proof.
  rewrite bind_unfold. unfold this. destruct (queues w !! q) as [pq|]; [|discriminate].
  eauto.
Qed.

Lemma deref_bind_ret {B} a (k : Node T → M T B) w b w' :
  (deref a ≫= k) w = Ret b w' → ∃ n, nodes w !! a = Some n ∧ k n w = Ret b w'.
Proof.
  rewrite bind_unfold. unfold deref. destruct (nodes w !! a) as [n|]; [|discriminate].
  eauto.
Qed.

Lemma assign_members_bind_ret {B} q f (k : () → M T B) w b w' :
  (assign_members q f ≫= k) w = Ret b w' →
  ∃ pq, queues w !! q = Some pq ∧
        k () (set_queues (<[q := f pq]> (queues w)) w) = Ret b w'.
Proof.
  rewrite bind_unfold. unfold assign_members.
  destruct (queues w !! q) as [pq|]; [|discriminate]. eauto.
Qed.

Lemma assign_members_ret q f w w' :
  assign_members q f w = Ret () w' →
  ∃ pq, queues w !! q = Some pq ∧ w' = set_queues (<[q := f pq]> (queues w)) w.
Proof.
  unfold assign_members. destruct (queues w !! q) as [pq|]; [|discriminate].
  intros [= <-]. eauto.
Qed.

(** The handlers of [push], [pop] and [merge] end in [throw]. *)
Lemma never_returns_throw {A B} (c : M T B) e : ∀ w (a : A) w', (c;; throw e) w ≠ Ret a w'.
Proof. intros w a w'. rewrite bind_unfold. by destruct (c w). Qed.

(** [push] that returns has allocated one node, which holds the new
    element, and released none; the other nodes hold what they held and the
    other containers are as they were. *)
Lemma push_account q e w w' :
  push q e w = Ret () w' →
  let a := fresh (dom (nodes w)) in
  nodes w !! a = None ∧ data <$> nodes w' !! a = Some e ∧
  (∀ b, b ≠ a → data <$> nodes w' !! b = data <$> nodes w !! b) ∧
  released w' = released w ∧ new_ok w' = tail (new_ok w) ∧
  (∀ q0, q0 ≠ q → queues w' !! q0 = queues w !! q0).
Proof.
  unfold push. intros (a & w1 & Hnew & Hrun)%bind_ret_inv.
  apply new_Node_ret in Hnew as (-> & Hfresh & _ & ->).
  apply this_bind_ret in Hrun as (pq & Hpq & Hrun).
  apply try_catch_ret_inv in Hrun as [Hrun|(ex & w2 & _ & Hrun)].
  2:{ exfalso. revert Hrun. rewrite <- !bind_assoc. apply never_returns_throw. }
  apply bind_ret_inv in Hrun as (r & w2 & Hmerge & Hrun).
  apply relinks_only_mergeNodes in Hmerge as (Hq2 & Hr2 & Ho2 & Hd2).
  unfold set_root, set_count in Hrun.
  apply assign_members_bind_ret in Hrun as (pq2 & Hpq2 & Hrun).
  apply this_bind_ret in Hrun as (pq3 & Hpq3 & Hrun).
  apply assign_members_ret in Hrun as (pq4 & Hpq4 & ->).
  simpl in *. split_and!; [done| | |done|done|].
  - rewrite Hd2. by rewrite lookup_insert_eq.
  - intros b Hb. rewrite Hd2. by rewrite lookup_insert_ne.
  - intros q0 Hq0. by rewrite !lookup_insert_ne, Hq2.
Qed.

(** [pop] that returns has released one node, the old root, and allocated
    none. *)
Lemma pop_account q w w' :
  pop q w = Ret () w' →
  ∃ pq a, queues w !! q = Some pq ∧ root pq = Some a ∧
          is_Some (nodes w !! a) ∧ nodes w' !! a = None ∧
          (∀ b, b ≠ a → data <$> nodes w' !! b = data <$> nodes w !! b) ∧
          released w' = a :: released w ∧ new_ok w' = new_ok w ∧
          (∀ q0, q0 ≠ q → queues w' !! q0 = queues w !! q0).
Proof.
  unfold pop. intros (pq & Hpq & Hrun)%this_bind_ret.
  destruct (root pq) as [a|] eqn:Hroot; [|discriminate].
  apply deref_bind_ret in Hrun as (n & Hn & Hrun).
  apply try_catch_ret_inv in Hrun as [Hrun|(ex & w2 & _ & Hrun)].
  2:{ exfalso. revert Hrun. rewrite <- !bind_assoc. apply never_returns_throw. }
  apply bind_ret_inv in Hrun as (r & w2 & Hmerge & Hrun).
  apply relinks_only_mergeNodes in Hmerge as (Hq2 & Hr2 & Ho2 & Hd2).
  unfold set_root, set_count in Hrun.
  apply assign_members_bind_ret in Hrun as (pq2 & Hpq2 & Hrun).
  apply bind_ret_inv in Hrun as ([] & w3 & Hdel & Hrun).
  unfold delete_Node in Hdel. simpl in Hdel.
  destruct (nodes w2 !! a) as [n2|] eqn:Hn2; [|by case_bool_decide].
  injection Hdel as <-.
  apply this_bind_ret in Hrun as (pq3 & Hpq3 & Hrun).
  apply assign_members_ret in Hrun as (pq4 & Hpq4 & ->).
  simpl in *. exists pq, a. split_and!; [done|done|by eexists| | |congruence|done|].
  - apply lookup_delete_eq.
  - intros b Hb. by rewrite lookup_delete_ne, Hd2.
  - intros q0 Hq0. by rewrite !lookup_insert_ne, Hq2.
Qed.

(** [merge] that returns has neither allocated nor released a node. *)
Lemma merge_account q other w w' :
  merge q other w = Ret () w' →
  (∀ b, data <$> nodes w' !! b = data <$> nodes w !! b) ∧
  released w' = released w ∧ new_ok w' = new_ok w ∧
  (∀ q0, q0 ≠ q → q0 ≠ other → queues w' !! q0 = queues w !! q0).
Proof.
  unfold merge. case_decide as Hne.
  { intros [= <-]. done. }
  intros (pq & Hpq & Hrun)%this_bind_ret. apply this_bind_ret in Hrun as (po & Hpo & Hrun).
  apply try_catch_ret_inv in Hrun as [Hrun|(ex & w2 & _ & Hrun)].
  2:{ exfalso. revert Hrun. rewrite <- !bind_assoc. apply never_returns_throw. }
  apply this_bind_ret in Hrun as (po' & _ & Hrun).
  apply bind_ret_inv in Hrun as (r & w2 & Hmerge & Hrun).
  apply relinks_only_mergeNodes in Hmerge as (Hq2 & Hr2 & Ho2 & Hd2).
  unfold set_root, set_count in Hrun.
  apply assign_members_bind_ret in Hrun as (pq2 & Hpq2 & Hrun).
  apply this_bind_ret in Hrun as (pq3 & Hpq3 & Hrun).
  apply this_bind_ret in Hrun as (po3 & Hpo3 & Hrun).
  apply assign_members_bind_ret in Hrun as (pq4 & Hpq4 & Hrun).
  apply assign_members_bind_ret in Hrun as (po4 & Hpo4 & Hrun).
  apply assign_members_ret in Hrun as (po5 & Hpo5 & ->).
  simpl in *. split_and!; [done|done|done|].
  intros q0 Hq0 Hq0'. by rewrite !lookup_insert_ne, Hq2.
Qed.

End accounting.

(** ** Teardown, copies and the store *)

Section releases.

Context {T : Type}.
Variable Compare_default : Compare T.
Implicit Types (w : World T) (t l r : tree T) (σ : gmap qid (tree T)).

Local Abbreviation represents := (represents Compare_default).

(** [deleteTree] hands every node of the tree to [delete], once. *)
Lemma deleteTree_log fuel t w w' :
  own (nodes w) t → NoDup (addrs t) → (weight (shape_of t) < fuel)%nat →
  deleteTree fuel (rootp t) w = Ret () w' →
  released w' ≡ₚ addrs t ++ released w.
Proof.
  revert t w w'. induction fuel as [|fuel IH]; intros t w w' Ht Hnd Hfuel; [lia|].
  destruct t as [|a x n l r]; simpl.
  { by intros [= <-]. }
  destruct Ht as (Ha & Hl & Hr). simpl in Hfuel.
  apply NoDup_cons in Hnd as [Hnotin Hnd]. apply NoDup_app in Hnd as (Hndl & Hdisj & Hndr).
  rewrite (deref_bind _ _ _ _ Ha). simpl left.
  destruct (deleteTree_spec fuel l w) as (w1 & Hrun1 & Hq1 & Ho1 & Hgone1 & Hkeep1);
    [done|done|lia|].
  rewrite (bind_ret _ _ _ _ _ Hrun1).
  assert (nodes w1 !! a = Some (mkNode x (rootp l) (rootp r) n)) as Ha1.
  { rewrite Hkeep1; [done|]. intros Hin. apply Hnotin, elem_of_app. by left. }
  rewrite (deref_bind _ _ _ _ Ha1). simpl right.
  assert (own (nodes w1) r) as Hr1.
  { eapply own_frame; [exact Hr|]. intros b Hb. apply Hkeep1. intros Hin. by apply (Hdisj b). }
  destruct (deleteTree_spec fuel r w1) as (w2 & Hrun2 & Hq2 & Ho2 & Hgone2 & Hkeep2);
    [done|done|lia|].
  rewrite (bind_ret _ _ _ _ _ Hrun2).
  assert (nodes w2 !! a = Some (mkNode x (rootp l) (rootp r) n)) as Ha2.
  { rewrite Hkeep2; [done|]. intros Hin. apply Hnotin, elem_of_app. by right. }
  unfold delete_Node. rewrite Ha2. intros [= <-]. simpl.
  rewrite (IH r w1 w2 Hr1 Hndr ltac:(lia) Hrun2), (IH l w w1 Hl Hndl ltac:(lia) Hrun1).
  solve_Permutation.
Qed.

(** The destructor in full. *)
Lemma destroy_account w σ q t :
  represents w σ → σ !! q = Some t →
  ∃ w', destroy q w = Ret () w' ∧ represents w' (delete q σ) ∧
        queues w' = delete q (queues w) ∧
        (∀ a, a ∈ addrs t → nodes w' !! a = None) ∧
        (∀ a, a ∉ addrs t → nodes w' !! a = nodes w !! a) ∧
        released w' ≡ₚ addrs t ++ released w ∧ new_ok w' = new_ok w.
Proof.
  intros H Hq.
  destruct (destroy_spec _ w σ q t H Hq) as (w' & Hrun & H').
  exists w'. split; [done|]. split; [done|].
  destruct (represents_queue _ _ _ _ _ H Hq) as (pq & Hpq & Hroot & Hcount & Hcmp).
  pose proof (rep_own _ _ _ H _ _ Hq) as Hown.
  pose proof (rep_nodup _ _ _ H _ _ Hq) as Hnd.
  pose proof (own_size _ _ Hown Hnd) as Hweight.
  destruct (deleteTree_spec (S (base.size (nodes w))) t w Hown Hnd ltac:(lia))
    as (w1 & Hrun1 & Hq1 & Ho1 & Hgone & Hkeep).
  pose proof (deleteTree_log (S (base.size (nodes w))) t w w1 Hown Hnd ltac:(lia) Hrun1) as Hlog.
  unfold destroy in Hrun. rewrite (this_bind _ _ _ _ Hpq), Hroot in Hrun.
  erewrite bind_ret in Hrun by exact Hrun1. injection Hrun as <-. simpl.
  split_and!; [by rewrite Hq1|done..].
Qed.

(** Where the nodes of a copy-constructed container come from. *)
Lemma copy_construct_account w σ other t q w' :
  represents w σ → σ !! other = Some t → copy_construct other w = Ret q w' →
  ∃ t', represents w' (<[q := t']> σ) ∧ σ !! q = None ∧
        shape_of t' = shape_of t ∧
        (∀ b, b ∈ addrs t' → nodes w !! b = None) ∧
        (∀ b, b ∉ addrs t' → nodes w' !! b = nodes w !! b).
Proof.
  intros H Ho Hrun.
  destruct (copy_construct_spec _ w σ other t H Ho) as
    [(q0 & t'' & w1 & Hrun1 & Hfresh & Hshape & Hnew & H1)
    |[(w1 & Hrun1 & _)|(a & Hrun1)]]; [|congruence..].
  rewrite Hrun in Hrun1. injection Hrun1 as <- <-.
  exists t''. split_and!; [done..|].
  destruct (represents_queue _ _ _ _ _ H Ho) as (po & Hpo & Hroot & _).
  unfold copy_construct in Hrun. rewrite (this_bind _ _ _ _ Hpo), Hroot in Hrun.
  destruct (copy_root_spec _ w σ other t H Ho) as
    [(t' & w3 & Hcopy & _ & Hown & _ & _ & Hkeep & _)
    |[(w3 & Hcopy & _)|(a & Hcopy)]].
  2:{ by rewrite (bind_throw _ _ _ _ _ Hcopy) in Hrun. }
  2:{ by rewrite (bind_fault _ _ _ _ Hcopy) in Hrun. }
  rewrite (bind_ret _ _ _ _ _ Hcopy) in Hrun. unfold begin_lifetime in Hrun.
  injection Hrun as Hq <-. simpl in *.
  assert (t' = t'') as <-; [|done].
  pose proof (lookup_insert_eq σ q t'') as Hq''.
  destruct (represents_queue _ _ _ _ _ H1 Hq'') as (pq' & Hpq' & Hroot' & _).
  simpl in Hpq'. rewrite <- Hq, lookup_insert_eq in Hpq'. injection Hpq' as <-.
  apply (own_unique (nodes w3)); [done|by apply (rep_own _ _ _ H1 _ _ Hq'')|done].
Qed.

End releases.

(** ** Copies and the release log *)

Section copies.

Context {T : Type}.
Variable Compare_default : Compare T.
Implicit Types (w : World T) (t l r : tree T) (σ : gmap qid (tree T)).

Local Abbreviation represents := (represents Compare_default).

Lemma keeps_log_bind {A B} (c : M T A) (k : A → M T B) :
  keeps_log c → (∀ a, keeps_log (k a)) → keeps_log (c ≫= k).
Proof.
  intros Hc Hk w b w' (a & w1 & Hrun & Hrest)%bind_ret_inv.
  rewrite (Hk _ _ _ _ Hrest). by eapply Hc.
Qed.

Lemma keeps_log_ret {A} (a : A) : keeps_log (mret a : M T A).
Proof. by intros w b w' [= _ <-]. Qed.

Lemma keeps_log_deref a : keeps_log (deref (T:=T) a).
Proof. intros w n w'. unfold deref. destruct (nodes w !! a); [|done]. by intros [= _ <-]. Qed.

Lemma keeps_log_update a (f : Node T → Node T) : keeps_log (update a f).
Proof.
  intros w u w'. unfold update. destruct (nodes w !! a); [|done]. by intros [= _ <-].
Qed.

Lemma keeps_log_new_Node (d : T) : keeps_log (new_Node d).
Proof. intros w a w' (_ & _ & _ & ->)%new_Node_ret. done. Qed.

Lemma catch_rethrow_ret_inv {A} (body : M T A) cleanup w a w' :
  catch_rethrow body cleanup w = Ret a w' → body w = Ret a w'.
Proof.
  unfold catch_rethrow. destruct (body w) as [| e w1 | |] eqn:Hb; try done.
  intros Hrun. by apply never_returns_throw in Hrun.
Qed.

Lemma keeps_log_catch_rethrow {A} (body : M T A) cleanup :
  keeps_log body → keeps_log (catch_rethrow body cleanup).
Proof. intros Hb w a w' Hrun%catch_rethrow_ret_inv. by eapply Hb. Qed.

(** A copy that succeeds has released nothing. *)
Lemma keeps_log_copyTree fuel p : keeps_log (copyTree (T:=T) fuel p).
Proof.
  revert p. induction fuel as [|fuel IH]; intros p; [by intros w a w' ?|].
  destruct p as [a|]; [|apply keeps_log_ret]. rewrite copyTree_unfold.
  repeat first
    [ apply keeps_log_bind; [|intros ?]
    | apply keeps_log_catch_rethrow
    | apply IH
    | apply keeps_log_ret
    | apply keeps_log_deref
    | apply keeps_log_new_Node
    | apply keeps_log_update
    | progress unfold set_left, set_right, set_npl ].
Qed.


(** Copy assignment in full: which nodes appear, which disappear. *)
Lemma assign_account w σ q other t1 t2 w' :
  represents w σ → q ≠ other → σ !! q = Some t1 → σ !! other = Some t2 →
  assign q other w = Ret q w' →
  ∃ t', represents w' (<[q := t']> σ) ∧ shape_of t' = shape_of t2 ∧
        (∀ b, b ∈ addrs t' → nodes w !! b = None) ∧
        (∀ b, b ∈ addrs t1 → nodes w' !! b = None) ∧
        (∀ b, b ∉ addrs t' → b ∉ addrs t1 → nodes w' !! b = nodes w !! b) ∧
        released w' ≡ₚ addrs t1 ++ released w.
Proof.
  intros H Hne Hq Ho.
  destruct (represents_queue _ _ _ _ _ H Hq) as (pq & Hpq & Hroot & Hcount & Hcmp).
  destruct (represents_queue _ _ _ _ _ H Ho) as (po & Hpo & Hroot2 & Hcount2 & Hcmp2).
  unfold assign. rewrite decide_False by done. rewrite (this_bind _ _ _ _ Hpo), Hroot2.
  destruct (copy_root_spec _ w σ other t2 H Ho) as
    [(t' & w3 & Hrun & Hshape & Hown & Hnd & Hnew & Hkeep & Hq3 & Hcap3)
    |[(w3 & Hrun & Hn3 & Hq3)|(a & Hrun)]].
  3:{ by rewrite (bind_fault _ _ _ _ Hrun). }
  2:{ by rewrite (bind_throw _ _ _ _ _ Hrun). }
  rewrite (bind_ret _ _ _ _ _ Hrun).
  assert (released w3 = released w) as Hlog3.
  { revert Hrun. destruct (rootp t2); [apply keeps_log_copyTree|apply keeps_log_ret]. }
  assert (∀ q0 t0, σ !! q0 = Some t0 →
            own (nodes w3) t0 ∧ ∀ b, b ∈ addrs t0 → b ∉ addrs t') as Hold.
  { intros q0 t0 Hq0. pose proof (rep_own _ _ _ H _ _ Hq0) as Hown0.
    assert (∀ b, b ∈ addrs t0 → b ∉ addrs t') as Hdisj.
    { intros b Hb Hin. apply Hnew in Hin. destruct (own_lookup _ _ _ Hown0 Hb). congruence. }
    split; [|done]. eapply own_frame; [exact Hown0|]. intros b Hb. by apply Hkeep, Hdisj. }
  destruct (Hold q t1 Hq) as [Hown1 Hdisj1].
  pose proof (rep_nodup _ _ _ H _ _ Hq) as Hnd1.
  pose proof (own_size _ _ Hown1 Hnd1) as Hweight.
  destruct (deleteTree_spec (S (base.size (nodes w3))) t1 w3 Hown1 Hnd1 ltac:(lia))
    as (w4 & Hrun4 & Hq4 & _ & Hgone & Hkeep4).
  pose proof (deleteTree_log (S (base.size (nodes w3))) t1 w3 w4 Hown1 Hnd1 ltac:(lia) Hrun4)
    as Hlog4.
  erewrite this_bind by (rewrite Hq3; exact Hpq). rewrite Hroot.
  erewrite bind_ret by exact Hrun4.
  unfold set_root, set_count, set_cmp.
  erewrite assign_members_bind by (rewrite Hq4, Hq3; exact Hpq).
  erewrite this_bind by (simpl; rewrite lookup_insert_ne, Hq4, Hq3 by done; exact Hpo).
  erewrite assign_members_bind by (simpl; apply lookup_insert_eq).
  erewrite this_bind
    by (simpl; rewrite !lookup_insert_ne, Hq4, Hq3 by done; exact Hpo).
  erewrite assign_members_bind by (simpl; apply lookup_insert_eq).
  intros [= <-]. exists t'. simpl. split_and!; [|done|done|done| |by rewrite Hlog4, Hlog3].
  2:{ intros b Hb' Hb1. by rewrite Hkeep4, Hkeep. }
  eapply (represents_update _ w σ q t'); [exact H| |simpl..].
  - simpl. rewrite !insert_insert_eq, Hq4, Hq3. reflexivity.
  - done.
  - by rewrite Hcount2, Hshape.
  - done.
  - eapply own_frame; [exact Hown|]. intros b Hb. apply Hkeep4. intros Hin.
    by apply (Hdisj1 b).
  - done.
  - rewrite Hshape. by eapply (rep_leftist _ _ _ H).
  - assert (base.size (nodes w4) ≤ base.size (nodes w3))%nat; [|lia].
    apply subseteq_nodes_size. intros b.
    destruct (decide (b ∈ addrs t1)); [left; by apply Hgone|right; by apply Hkeep4].
  - intros q0 t0 Hne0 Hq0. destruct (Hold q0 t0 Hq0) as [Hown0 Hdisj0].
    split; [|done]. eapply own_frame; [exact Hown0|]. intros b Hb. apply Hkeep4.
    intros Hin. by pose proof (rep_disjoint _ _ _ H _ _ _ _ _ Hq0 Hq Hb Hin).
Qed.

(** A store has one layout. *)
Lemma represents_unique w σ1 σ2 : represents w σ1 → represents w σ2 → σ1 = σ2.
Proof.
  intros H1 H2. apply map_eq. intros q.
  destruct (σ1 !! q) as [t1|] eqn:Hq1.
  - destruct (represents_queue _ _ _ _ _ H1 Hq1) as (pq & Hpq & Hroot & _).
    assert (is_Some (σ2 !! q)) as [t2 Hq2].
    { apply elem_of_dom. rewrite (rep_dom _ _ _ H2). by apply elem_of_dom. }
    rewrite Hq2. f_equal. apply (own_unique (nodes w)).
    + by eapply (rep_own _ _ _ H1).
    + by eapply (rep_own _ _ _ H2).
    + rewrite <- Hroot. by eapply (rep_root _ _ _ H2).
  - symmetry. apply not_elem_of_dom. rewrite (rep_dom _ _ _ H2), <- (rep_dom _ _ _ H1).
    by apply not_elem_of_dom.
Qed.

End copies.

(** ** Every node has an owner *)

Section ownership.

Context {T : Type}.
Variable Compare_default : Compare T.
Implicit Types (w : World T) (t l r : tree T) (σ : gmap qid (tree T)).

Local Abbreviation represents := (represents Compare_default).
Local Abbreviation invariant := (invariant Compare_default).

Lemma tight_ext w w' σ : nodes w' = nodes w → tight w σ → tight w' σ.
Proof. intros Hn Ht a. rewrite Hn. apply Ht. Qed.

Lemma tight_insert w w' σ q t' :
  tight w σ →
  (∀ b, is_Some (nodes w' !! b) → b ∉ addrs t' →
        is_Some (nodes w !! b) ∧ ∀ t, σ !! q = Some t → b ∉ addrs t) →
  tight w' (<[q := t']> σ).
Proof.
  intros Ht Hlive b Hb. destruct (decide (b ∈ addrs t')) as [Hin|Hnin].
  { exists q, t'. by rewrite lookup_insert_eq. }
  destruct (Hlive b Hb Hnin) as [Hb0 Hnot].
  destruct (Ht b Hb0) as (q0 & t0 & Hq0 & Hin0). exists q0, t0. split; [|done].
  rewrite lookup_insert_ne; [done|]. intros <-. by apply (Hnot t0).
Qed.

Lemma data_live w w' (b : addr) :
  data <$> nodes w' !! b = data <$> nodes w !! b →
  is_Some (nodes w' !! b) → is_Some (nodes w !! b).
Proof.
  intros Hd [n Hn]. rewrite Hn in Hd. destruct (nodes w !! b); [by eexists|discriminate].
Qed.

(** What a call on a represented store comes to. *)
Lemma perform_outcome rq w σ :
  represents w σ → tight w σ →
  match perform Compare_default rq w with
  | Ret _ w' => ∃ σ', represents w' σ' ∧ tight w' σ'
  | Throw e w' => nodes w' = nodes w ∧ queues w' = queues w ∧ may_throw rq e = true
  | Fault (BadObject q) => q ∈ operands rq ∧ queues w !! q = None
  | Fault (DoubleDelete _) => copies rq = true
  | Fault (BadPointer _) => False
  | OutOfFuel => False
  end.
Proof.
  intros H Ht.
  destruct rq as [|other|q|q other|q|q e|q|q|q|q other]; unfold perform.
  - (* Construct *)
    destruct (construct_spec _ w σ H) as (q & w1 & Hrun & Hfresh & Hn & H1).
    rewrite (bind_ret _ _ _ _ _ Hrun). simpl. exists (<[q := Leaf]> σ). split; [done|].
    apply (tight_insert w); [done|]. intros b Hb _. rewrite Hn in Hb. split; [done|].
    intros t. by rewrite Hfresh.
  - (* CopyConstruct *)
    destruct (σ !! other) as [t|] eqn:Ho.
    2:{ unfold copy_construct. rewrite bind_assoc.
        rewrite (this_dead _ _ _ (represents_dead _ _ _ _ H Ho)). split; [left|].
        by eapply represents_dead. }
    destruct (copy_construct_spec _ w σ other t H Ho) as
      [(q & t' & w1 & Hrun & _)|[(w1 & Hrun & Hn & Hq)|(a & Hrun)]].
    + rewrite (bind_ret _ _ _ _ _ Hrun). simpl.
      destruct (copy_construct_account _ w σ other t q w1 H Ho Hrun)
        as (t'' & H1 & Hfresh & _ & _ & Hkeep).
      exists (<[q := t'']> σ). split; [done|].
      apply (tight_insert w); [done|]. intros b Hb Hnin. rewrite Hkeep in Hb by done.
      split; [done|]. intros t0. by rewrite Hfresh.
    + by rewrite (bind_throw _ _ _ _ _ Hrun).
    + by rewrite (bind_fault _ _ _ _ Hrun).
  - (* Destroy *)
    destruct (σ !! q) as [t|] eqn:Hq.
    2:{ unfold destroy. rewrite (this_dead _ _ _ (represents_dead _ _ _ _ H Hq)).
        split; [left|]. by eapply represents_dead. }
    destruct (destroy_account _ w σ q t H Hq) as (w1 & Hrun & H1 & _ & Hgone & Hkeep & _).
    rewrite Hrun. exists (delete q σ). split; [done|]. intros b Hb.
    destruct (decide (b ∈ addrs t)) as [Hin|Hnin].
    { rewrite (Hgone b Hin) in Hb. by destruct Hb. }
    rewrite (Hkeep b Hnin) in Hb. destruct (Ht b Hb) as (q0 & t0 & Hq0 & Hin0).
    exists q0, t0. split; [|done]. rewrite lookup_delete_ne; [done|].
    intros <-. congruence.
  - (* Assign *)
    destruct (decide (q = other)) as [<-|Hne].
    { rewrite (bind_ret _ _ _ _ _ (assign_self q w)). simpl. by exists σ. }
    destruct (σ !! other) as [t2|] eqn:Ho.
    2:{ unfold assign. rewrite decide_False by done. rewrite bind_assoc.
        rewrite (this_dead _ _ _ (represents_dead _ _ _ _ H Ho)). split; [right; left|].
        by eapply represents_dead. }
    destruct (σ !! q) as [t1|] eqn:Hq.
    + destruct (assign_spec _ w σ q other t1 t2 H Hne Hq Ho) as
        [(t' & w1 & Hrun & _)|[(w1 & Hrun & Hn & Hq1)|(a & Hrun)]].
      * rewrite (bind_ret _ _ _ _ _ Hrun). simpl.
        destruct (assign_account _ w σ q other t1 t2 w1 H Hne Hq Ho Hrun)
          as (t'' & H1 & _ & _ & Hgone & Hkeep & _).
        exists (<[q := t'']> σ). split; [done|].
        apply (tight_insert w); [done|]. intros b Hb Hnin.
        assert (b ∉ addrs t1) as Hnin1.
        { intros Hin. rewrite (Hgone b Hin) in Hb. by destruct Hb. }
        rewrite Hkeep in Hb by done. split; [done|]. intros t0. rewrite Hq. by intros [= <-].
      * by rewrite (bind_throw _ _ _ _ _ Hrun).
      * by rewrite (bind_fault _ _ _ _ Hrun).
    + destruct (represents_queue _ _ _ _ _ H Ho) as (po & Hpo & Hroot2 & _).
      unfold assign. rewrite decide_False by done. rewrite bind_assoc.
      rewrite (this_bind _ _ _ _ Hpo), Hroot2. rewrite bind_assoc.
      destruct (copy_root_spec _ w σ other t2 H Ho) as
        [(t' & w3 & Hrun & _ & _ & _ & _ & _ & Hq3 & _)
        |[(w3 & Hrun & Hn3 & Hq3)|(a & Hrun)]].
      * rewrite (bind_ret _ _ _ _ _ Hrun). rewrite bind_assoc.
        rewrite this_dead by (rewrite Hq3; by eapply represents_dead).
        split; [left|]. by eapply represents_dead.
      * by rewrite (bind_throw _ _ _ _ _ Hrun).
      * by rewrite (bind_fault _ _ _ _ Hrun).
  - (* Top *)
    destruct (σ !! q) as [t|] eqn:Hq.
    2:{ unfold top. rewrite bind_assoc.
        rewrite (this_dead _ _ _ (represents_dead _ _ _ _ H Hq)). split; [left|].
        by eapply represents_dead. }
    pose proof (top_spec _ w σ q t H Hq) as Hrun. destruct t.
    + by rewrite (bind_throw _ _ _ _ _ Hrun).
    + rewrite (bind_ret _ _ _ _ _ Hrun). simpl. by exists σ.
  - (* Push *)
    destruct (σ !! q) as [t|] eqn:Hq.
    2:{ unfold push.
        destruct (new_Node_spec e w) as [(w1 & Hnew & Hn1 & Hq1)|(a & w1 & Hnew & _ & _ & Hq1 & _)].
        - by rewrite (bind_throw _ _ _ _ _ Hnew).
        - rewrite (bind_ret _ _ _ _ _ Hnew).
          rewrite this_dead by (rewrite Hq1; by eapply represents_dead).
          split; [left|]. by eapply represents_dead. }
    destruct (push_spec _ w σ q t e H Hq) as [(w1 & Hrun & Hn & Hq1)|(a & Ha & Hpush)].
    { by rewrite Hrun. }
    destruct (merge_shapes Compare_default (shape_of t) (Fork e 0 Nil Nil)) as [s|] eqn:Hs.
    + destruct Hpush as (t' & w1 & Hrun & Hshape & Haddrs & H1). rewrite Hrun.
      exists (<[q := t']> σ). split; [done|].
      destruct (push_account _ _ _ _ Hrun) as (_ & _ & Hkeep & _).
      assert (a ∈ addrs t') as Hin.
      { rewrite Haddrs. apply elem_of_app. right. apply elem_of_cons. by left. }
      assert (is_Some (nodes w1 !! a)) as Hlive.
      { eapply own_lookup; [|exact Hin]. apply (rep_own _ _ _ H1 q). apply lookup_insert_eq. }
      assert (a = fresh (dom (nodes w))) as Hfresh.
      { destruct (decide (a = fresh (dom (nodes w)))) as [|Hne]; [done|].
        apply (data_live w) in Hlive; [|by apply Hkeep]. rewrite Ha in Hlive.
        by destruct Hlive. }
      apply (tight_insert w); [done|]. intros b Hb Hnin.
      assert (b ≠ a) as Hne by (by intros ->).
      split; [apply (data_live w w1); [apply Hkeep; congruence|done]|].
      intros t0. rewrite Hq. intros [= <-] Hin0. apply Hnin. rewrite Haddrs.
      apply elem_of_app. by left.
    + destruct Hpush as (w1 & Hrun & Hn & Hq1). by rewrite Hrun.
  - (* Pop *)
    destruct (σ !! q) as [t|] eqn:Hq.
    2:{ unfold pop. rewrite (this_dead _ _ _ (represents_dead _ _ _ _ H Hq)).
        split; [left|]. by eapply represents_dead. }
    pose proof (pop_spec _ w σ q t H Hq) as Hpop. destruct t as [|a x n l r].
    { by rewrite Hpop. }
    destruct (merge_shapes Compare_default (shape_of l) (shape_of r)) as [s|] eqn:Hs.
    + destruct Hpop as (t' & w1 & Hrun & Hshape & Haddrs & H1). rewrite Hrun.
      exists (<[q := t']> σ). split; [done|].
      destruct (pop_account _ _ _ Hrun) as (pq & a0 & Hpq & Hroot & _ & Hgone & Hkeep & _).
      assert (a0 = a) as ->.
      { pose proof (rep_root _ _ _ H _ _ _ Hpq Hq) as Hr. rewrite Hroot in Hr.
        by injection Hr. }
      apply (tight_insert w); [done|]. intros b Hb Hnin.
      assert (b ≠ a) as Hne.
      { intros ->. rewrite Hgone in Hb. by destruct Hb. }
      split; [apply (data_live w w1); [by apply Hkeep|done]|].
      intros t0. rewrite Hq. intros [= <-] Hin0. apply Hnin. rewrite Haddrs.
      simpl in Hin0. apply elem_of_cons in Hin0 as [->|Hin0]; [done|exact Hin0].
    + destruct Hpop as (w1 & Hrun & Hn & Hq1). by rewrite Hrun.
  - (* Size *)
    destruct (σ !! q) as [t|] eqn:Hq.
    2:{ unfold size. rewrite bind_assoc.
        rewrite (this_dead _ _ _ (represents_dead _ _ _ _ H Hq)). split; [left|].
        by eapply represents_dead. }
    rewrite (bind_ret _ _ _ _ _ (size_spec _ w σ q t H Hq)). simpl. by exists σ.
  - (* Empty *)
    destruct (σ !! q) as [t|] eqn:Hq.
    2:{ unfold empty. rewrite bind_assoc.
        rewrite (this_dead _ _ _ (represents_dead _ _ _ _ H Hq)). split; [left|].
        by eapply represents_dead. }
    rewrite (bind_ret _ _ _ _ _ (empty_spec _ w σ q t H Hq)). simpl. by exists σ.
  - (* Merge *)
    destruct (decide (q = other)) as [<-|Hne].
    { rewrite merge_self. by exists σ. }
    destruct (σ !! q) as [t1|] eqn:Hq.
    2:{ unfold merge. rewrite decide_False by done.
        rewrite (this_dead _ _ _ (represents_dead _ _ _ _ H Hq)). split; [left|].
        by eapply represents_dead. }
    destruct (σ !! other) as [t2|] eqn:Ho.
    2:{ unfold merge. rewrite decide_False by done.
        destruct (represents_queue _ _ _ _ _ H Hq) as (pq & Hpq & _).
        rewrite (this_bind _ _ _ _ Hpq).
        rewrite (this_dead _ _ _ (represents_dead _ _ _ _ H Ho)). split; [right; left|].
        by eapply represents_dead. }
    pose proof (merge_spec _ w σ q other t1 t2 H Hne Hq Ho) as Hmerge.
    destruct (merge_shapes Compare_default (shape_of t1) (shape_of t2)) as [s|] eqn:Hs.
    + destruct Hmerge as (t' & w1 & Hrun & Hshape & Haddrs & H1). rewrite Hrun.
      exists (<[other := Leaf]> (<[q := t']> σ)). split; [done|].
      destruct (merge_account _ _ _ _ Hrun) as (Hkeep & _).
      intros b Hb. apply (data_live w) in Hb; [|by apply Hkeep].
      destruct (Ht b Hb) as (q0 & t0 & Hq0 & Hin0).
      destruct (decide (q0 = q ∨ q0 = other)) as [Hown|Hother].
      * exists q, t'. rewrite lookup_insert_ne, lookup_insert_eq by done.
        split; [done|]. rewrite Haddrs. destruct Hown as [->| ->].
        -- rewrite Hq in Hq0. injection Hq0 as <-. apply elem_of_app. by left.
        -- rewrite Ho in Hq0. injection Hq0 as <-. apply elem_of_app. by right.
      * exists q0, t0. split; [|done]. rewrite !lookup_insert_ne; [done|..]; intros <-; tauto.
    + destruct Hmerge as (w1 & Hrun & Hn & Hq1). by rewrite Hrun.
Qed.

End ownership.

(** ** Properties of every reachable state *)

Section safety.

Context {T : Type}.
Variable Compare_default : Compare T.
Implicit Types (w : World T) (t l r : tree T) (σ : gmap qid (tree T)).

Local Abbreviation represents := (represents Compare_default).
Local Abbreviation invariant := (invariant Compare_default).
Local Abbreviation perform := (perform Compare_default).
Local Abbreviation reachable := (reachable Compare_default).

(** Every reachable state has a layout that accounts for all of its nodes. *)
Lemma reachable_layout w : reachable w → ∃ σ, invariant w σ ∧ tight w σ.
Proof.
  induction 1 as [oracle|rq w w' _ (σ & IH & Ht) Hrun|rq w e w' _ (σ & IH & Ht) Hrun].
  - exists ∅. split; [split; [split|]|]; simpl; try done; try (by intros; simplify_map_eq).
    intros a [n Hn]. simpl in Hn. by rewrite lookup_empty in Hn.
  - destruct (proj1 (perform_invariant _ rq w σ IH) w' Hrun) as (σ' & H' & _).
    exists σ'. split; [done|].
    pose proof (perform_outcome _ rq w σ (proj1 IH) Ht) as Hout. rewrite Hrun in Hout.
    destruct Hout as (σ'' & H'' & Ht''). by rewrite (represents_unique _ w' σ' σ'' (proj1 H') H'').
  - exists σ. split; [by apply (perform_invariant _ rq w σ IH) with e|].
    pose proof (perform_outcome _ rq w σ (proj1 IH) Ht) as Hout. rewrite Hrun in Hout.
    destruct Hout as (Hn & _). by apply (tight_ext w).
Qed.

(** X6. A public call that throws leaves every node and every container as
    it found them (the strong exception guarantee), and the exception is
    one the member function is written to raise: [container_is_empty] from
    [top] and [pop], [runtime_error] from [push], [pop] and [merge],
    [bad_alloc] from [push] and the two copies; the predicate's own
    exception never leaves. *)
Theorem every_throw_rolls_back rq w e w' :
  reachable w → perform rq w = Throw e w' →
  nodes w' = nodes w ∧ queues w' = queues w ∧
  may_throw rq e = true ∧ e ≠ compare_error.
Proof.
  intros (σ & [H _] & Ht)%reachable_layout Hrun.
  pose proof (perform_outcome _ rq w σ H Ht) as Hout. rewrite Hrun in Hout.
  destruct Hout as (Hn & Hq & He). split_and!; [done..|].
  intros ->. by destruct rq.
Qed.

(** X10. A public call on live containers never runs into undefined
    behaviour other than the double [delete] of [copyTree], and its
    recursions end: it returns, throws, or (copy construction and copy
    assignment only) releases a node a second time. *)
Theorem calls_are_memory_safe rq w :
  reachable w → (∀ q, q ∈ operands rq → is_Some (queues w !! q)) →
  perform rq w ≠ OutOfFuel ∧
  ∀ f, perform rq w = Fault f → copies rq = true ∧ ∃ a, f = DoubleDelete a.
Proof.
  intros (σ & [H _] & Ht)%reachable_layout Hlive.
  pose proof (perform_outcome _ rq w σ H Ht) as Hout.
  split.
  - intros Hrun. by rewrite Hrun in Hout.
  - intros f Hrun. rewrite Hrun in Hout. destruct f as [a|a|q]; [by eauto|done|].
    destruct Hout as [Hin Hdead]. destruct (Hlive q Hin) as [pq Hpq]. congruence.
Qed.

(** X7. Nothing leaks: in every reachable state each live node is reached
    from the root of exactly one live container; so once every container
    has been destroyed no node is left. *)
Theorem no_node_is_leaked w :
  reachable w →
  (∀ a, is_Some (nodes w !! a) →
        ∃ q pq, queues w !! q = Some pq ∧ reaches (nodes w) (root pq) a ∧
                ∀ q' pq', queues w !! q' = Some pq' →
                          reaches (nodes w) (root pq') a → q' = q) ∧
  (queues w = ∅ → nodes w = ∅).
Proof.
  intros (σ & [H _] & Ht)%reachable_layout.
  assert (∀ q pq a, queues w !! q = Some pq → reaches (nodes w) (root pq) a →
                    ∃ t, σ !! q = Some t ∧ a ∈ addrs t) as Hback.
  { intros q pq a Hpq Hreach.
    destruct (proj1 (represents_live _ _ _ q H)) as [t Hq]; [by eexists|].
    exists t. split; [done|]. apply (own_reaches (nodes w)); [by eapply (rep_own _ _ _ H)|].
    by rewrite <- (rep_root _ _ _ H _ _ _ Hpq Hq). }
  split.
  - intros a Ha. destruct (Ht a Ha) as (q & t & Hq & Hin).
    destruct (represents_queue _ _ _ _ _ H Hq) as (pq & Hpq & Hroot & _).
    exists q, pq. split_and!; [done| |].
    + rewrite Hroot. apply own_reaches; [by eapply (rep_own _ _ _ H)|done].
    + intros q' pq' Hpq' Hreach. destruct (Hback q' pq' a Hpq' Hreach) as (t' & Hq' & Hin').
      by eapply (rep_disjoint _ _ _ H).
  - intros Hnone. apply map_empty. intros a.
    destruct (nodes w !! a) as [n|] eqn:Hn; [|done].
    destruct (Ht a ltac:(by eexists)) as (q & t & Hq & _).
    destruct (represents_queue _ _ _ _ _ H Hq) as (pq & Hpq & _).
    rewrite Hnone in Hpq. by rewrite lookup_empty in Hpq.
Qed.

(** X8. The destructor of a live container returns; it hands each node of
    the container's tree to [delete] exactly once and no other node, ends
    the container's lifetime and leaves the other containers, their
    nodes and the allocator alone. *)
Theorem destructor_releases_every_node w q pq :
  reachable w → queues w !! q = Some pq →
  ∃ w' ns, destroy q w = Ret () w' ∧
           NoDup ns ∧ (∀ a, a ∈ ns ↔ reaches (nodes w) (root pq) a) ∧
           released w' ≡ₚ ns ++ released w ∧
           queues w' = delete q (queues w) ∧
           (∀ a, a ∈ ns → nodes w' !! a = None) ∧
           (∀ a, a ∉ ns → nodes w' !! a = nodes w !! a) ∧
           new_ok w' = new_ok w.
Proof.
  intros (σ & [H _] & _)%reachable_layout Hpq.
  destruct (proj1 (represents_live _ _ _ q H)) as [t Hq]; [by eexists|].
  destruct (destroy_account _ w σ q t H Hq) as (w' & Hrun & _ & Hq' & Hgone & Hkeep & Hlog & Hok).
  exists w', (addrs t). split_and!; try done.
  - by eapply (rep_nodup _ _ _ H).
  - intros a. rewrite (rep_root _ _ _ H _ _ _ Hpq Hq). symmetry.
    apply own_reaches. by eapply (rep_own _ _ _ H).
Qed.

(** X9. Copy assignment from another container that returns has handed
    each node of the destination's old tree to [delete] exactly once and
    no other node; every other node that was alive is as it was, and so
    are the other containers (the source among them). *)
Theorem assignment_releases_old_tree w q other pq w' :
  reachable w → q ≠ other → queues w !! q = Some pq → assign q other w = Ret q w' →
  ∃ ns, NoDup ns ∧ (∀ a, a ∈ ns ↔ reaches (nodes w) (root pq) a) ∧
        released w' ≡ₚ ns ++ released w ∧
        (∀ a, a ∈ ns → nodes w' !! a = None) ∧
        (∀ a, a ∉ ns → is_Some (nodes w !! a) → nodes w' !! a = nodes w !! a) ∧
        (∀ q0, q0 ≠ q → queues w' !! q0 = queues w !! q0).
Proof.
  intros (σ & [H _] & _)%reachable_layout Hne Hpq Hrun.
  destruct (proj1 (represents_live _ _ _ q H)) as [t1 Hq]; [by eexists|].
  destruct (σ !! other) as [t2|] eqn:Ho.
  2:{ exfalso. revert Hrun. unfold assign. rewrite decide_False by done.
      by rewrite (this_dead _ _ _ (represents_dead _ _ _ _ H Ho)). }
  destruct (assign_account _ w σ q other t1 t2 w' H Hne Hq Ho Hrun)
    as (t' & H' & _ & Hnew & Hgone & Hkeep & Hlog).
  exists (addrs t1). split_and!; try done.
  - by eapply (rep_nodup _ _ _ H).
  - intros a. rewrite (rep_root _ _ _ H _ _ _ Hpq Hq). symmetry.
    apply own_reaches. by eapply (rep_own _ _ _ H).
  - intros a Hnin [n Hn]. apply Hkeep; [|done]. intros Hin. apply Hnew in Hin. congruence.
  - intros q0 Hq0. destruct (σ !! q0) as [t0|] eqn:Ht0.
    + eapply (represents_queue_eq _ w w' σ (<[q := t']> σ) q0 t0); [done..|].
      by rewrite lookup_insert_ne.
    + rewrite (represents_dead _ _ _ _ H Ht0). apply (represents_dead _ _ _ _ H').
      by rewrite lookup_insert_ne.
Qed.

End safety.

(** ** What one call does *)

Section effects.

Context {T : Type}.
Variable Compare_default : Compare T.
Implicit Types (w : World T) (t l r : tree T) (σ : gmap qid (tree T)).

Local Abbreviation represents := (represents Compare_default).
Local Abbreviation invariant := (invariant Compare_default).
Local Abbreviation reachable := (reachable Compare_default).

Lemma mergeNodes_ret fuel less (h1 h2 res : ptr) w w' :
  mergeNodes fuel less h1 h2 w = Ret res w' →
  (res = h1 ∨ res = h2) ∧ (h1 = None → res = h2) ∧ (h2 = None → res = h1).
Proof.
  destruct fuel as [|fuel]; [done|].
  destruct h1 as [a1|], h2 as [a2|]; try (by intros [= <- _]; auto).
  rewrite mergeNodes_unfold. intros H.
  repeat (apply bind_ret_inv in H as (? & ? & _ & H)).
  injection H as <- _.
  split; [|done]. case_match; auto.
Qed.

(** X1. [mergeNodes] only relinks: a call that returns gives back one of
    its two arguments (the other one when one is null), has allocated and
    released nothing, and leaves every node alive with the element
    it held and every container's members as they were; only [left],
    [right] and [npl] fields are written. *)
Theorem mergeNodes_only_relinks fuel less (h1 h2 res : ptr) w w' :
  mergeNodes fuel less h1 h2 w = Ret res w' →
  (res = h1 ∨ res = h2) ∧ (h1 = None → res = h2) ∧ (h2 = None → res = h1) ∧
  (∀ b, data <$> nodes w' !! b = data <$> nodes w !! b) ∧
  queues w' = queues w ∧ released w' = released w ∧ new_ok w' = new_ok w.
Proof.
  intros H. destruct (mergeNodes_ret _ _ _ _ _ _ _ H) as (Hr & H1 & H2).
  destruct (relinks_only_mergeNodes _ _ _ _ _ _ _ H) as (Hq & Hl & Ho & Hd).
  done.
Qed.

Lemma new_Node_throw (d : T) w ex w' :
  new_Node d w = Throw ex w' ↔
  ex = bad_alloc ∧
  (head (new_ok w) = Some false ∨ SIZE_MAX ≤ Z.of_nat (base.size (nodes w))) ∧
  w' = mkWorld (nodes w) (queues w) (released w) (tail (new_ok w)).
Proof.
  unfold new_Node.
  destruct (new_ok w) as [|[] bs] eqn:Hok; simpl;
    destruct (Z.ltb_spec (Z.of_nat (base.size (nodes w))) SIZE_MAX) as [Hlt|Hge]; simpl;
    (split; [intros [= <- <-]|intros (-> & [Hh|Hs] & ->)]); try done; try lia;
    split_and!; auto.
Qed.

Lemma push_bad_alloc_inv q e w w' :
  push q e w = Throw bad_alloc w' →
  (head (new_ok w) = Some false ∨ SIZE_MAX ≤ Z.of_nat (base.size (nodes w))) ∧
  w' = mkWorld (nodes w) (queues w) (released w) (tail (new_ok w)).
Proof.
  intros Hrun.
  unfold push in Hrun. apply bind_throw_inv in Hrun as [H|(a & w1 & Hnew & H)].
  { by apply new_Node_throw in H as (_ & ? & ?). }
  exfalso.
  apply new_Node_ret in Hnew as (-> & Hfresh & _ & ->).
  apply this_bind_throw in H as (pq & Hq & H).
  apply try_catch_throw_inv in H as (e0 & w2 & Hbody & H).
  apply with_fuel_mergeNodes_throw_inv in Hbody as [-> _]; [|intros r; solve_no_throw].
  rewrite bind_unfold in H. unfold delete_Node in H. simpl in H.
  rewrite lookup_insert_eq in H.
  unfold set_root, set_count in H.
  erewrite assign_members_bind in H by (simpl; exact Hq).
  erewrite assign_members_bind in H by (simpl; apply lookup_insert_eq).
  discriminate.
Qed.

(** X5. [push] throws [bad_alloc] exactly when its [new Node] is refused,
    and then nothing but the allocator has changed: the node is requested
    before the container is looked at, and a failure later in [push] is
    reported as [runtime_error], never as [bad_alloc]. *)
Theorem push_allocation_failure q e w w' :
  push q e w = Throw bad_alloc w' ↔
  (head (new_ok w) = Some false ∨ SIZE_MAX ≤ Z.of_nat (base.size (nodes w))) ∧
  w' = mkWorld (nodes w) (queues w) (released w) (tail (new_ok w)).
Proof.
  split; [apply push_bad_alloc_inv|].
  intros [Hrefused ->]. unfold push. apply bind_throw. by apply new_Node_throw.
Qed.

(** X3. [push] on a container of a reachable state: it returns whenever the
    allocation is granted and the predicate answers; when it returns the
    container holds the old elements and the new one, its size has grown
    by one, exactly one node has been allocated (it holds the new
    element), none has been released, and the other containers are as
    they were. *)
Theorem push_adds_one_element w q xs e :
  reachable w → holds w q xs →
  (head (new_ok w) ≠ Some false → Z.of_nat (base.size (nodes w)) < SIZE_MAX →
   (∀ x y, is_Some (Compare_default x y)) → ∃ w', push q e w = Ret () w') ∧
  ∀ w', push q e w = Ret () w' →
    (∃ zs, holds w' q zs ∧ zs ≡ₚ e :: xs) ∧
    size q w' = Ret (Z.of_nat (length xs) + 1) w' ∧
    empty q w' = Ret false w' ∧
    (let a := fresh (dom (nodes w)) in
     nodes w !! a = None ∧ data <$> nodes w' !! a = Some e ∧
     ∀ b, b ≠ a → data <$> nodes w' !! b = data <$> nodes w !! b) ∧
    released w' = released w ∧
    (∀ q0, q0 ≠ q → queues w' !! q0 = queues w !! q0).
Proof.
  intros Hreach Hxs. pose proof Hreach as [σ [H _]]%reachable_invariant.
  destruct (holds_represents _ _ _ _ _ H Hxs) as (t & Hq & ->).
  pose proof (push_spec _ w σ q t e H Hq) as Hpush.
  split.
  - intros Hgrant Hcap Htot.
    destruct Hpush as [(w1 & Hrun1 & _)|(a & _ & Hpush)].
    { apply push_bad_alloc_inv in Hrun1 as [[?|?] _]; [done|lia]. }
    destruct (merge_shapes_total Compare_default (shape_of t) (Fork e 0 Nil Nil) Htot)
      as [s Hs].
    rewrite Hs in Hpush. destruct Hpush as (t' & w1 & Hrun1 & _). eauto.
  - intros w' Hrun.
    destruct Hpush as [(w1 & Hrun1 & _)|(a & _ & Hpush)]; [congruence|].
    destruct (merge_shapes Compare_default (shape_of t) (Fork e 0 Nil Nil)) as [s|] eqn:Hs.
    2:{ destruct Hpush as (w1 & Hrun1 & _). congruence. }
    destruct Hpush as (t' & w1 & Hrun1 & Hshape & _ & H1).
    rewrite Hrun in Hrun1. injection Hrun1 as <-.
    pose proof (lookup_insert_eq σ q t') as Hq'.
    pose proof (merge_shapes_weight _ _ _ _ Hs) as Hweight. simpl in Hweight.
    rewrite <- Hshape in Hweight.
    destruct (push_account _ _ _ _ Hrun) as (Hfresh & Hdata & Hkeep & Hlog & _ & Hframe).
    split_and!; try done.
    + exists (elements (shape_of t')). split; [by eapply represents_holds|].
      rewrite Hshape, (merge_shapes_elements _ _ _ _ Hs). simpl. solve_Permutation.
    + rewrite (size_spec _ w' _ q t' H1 Hq'). f_equal. rewrite elements_length. lia.
    + rewrite (empty_spec _ w' _ q t' H1 Hq'). destruct t'; [simpl in Hweight; lia|done].
Qed.

(** X4. [pop] on a container of a reachable state: it returns whenever the
    container is not empty and the predicate answers; when it returns it
    has removed one occurrence of the element [top] showed and nothing
    else, the size has gone down by one, exactly one node has been
    released (the old root), none allocated, and the other containers are
    as they were. *)
Theorem pop_removes_the_top w q xs :
  reachable w → holds w q xs →
  (xs ≠ [] → (∀ x y, is_Some (Compare_default x y)) → ∃ w', pop q w = Ret () w') ∧
  ∀ w', pop q w = Ret () w' →
    ∃ x ys pq a,
      top q w = Ret x w ∧ holds w' q ys ∧ xs ≡ₚ x :: ys ∧
      size q w' = Ret (Z.of_nat (length xs) - 1) w' ∧
      queues w !! q = Some pq ∧ root pq = Some a ∧ data <$> nodes w !! a = Some x ∧
      nodes w' !! a = None ∧ released w' = a :: released w ∧
      (∀ b, b ≠ a → data <$> nodes w' !! b = data <$> nodes w !! b) ∧
      new_ok w' = new_ok w ∧
      (∀ q0, q0 ≠ q → queues w' !! q0 = queues w !! q0).
Proof.
  intros Hreach Hxs. pose proof Hreach as [σ [H _]]%reachable_invariant.
  destruct (holds_represents _ _ _ _ _ H Hxs) as (t & Hq & ->).
  pose proof (pop_spec _ w σ q t H Hq) as Hpop.
  pose proof (top_spec _ w σ q t H Hq) as Htop.
  split.
  { intros Hne Htot. destruct t as [|a x n l r]; [done|].
    destruct (merge_shapes_total Compare_default (shape_of l) (shape_of r) Htot) as [s Hs].
    rewrite Hs in Hpop. destruct Hpop as (t' & w1 & Hrun1 & _). eauto. }
  intros w' Hrun.
  destruct t as [|a x n l r]; [congruence|].
  destruct (merge_shapes Compare_default (shape_of l) (shape_of r)) as [s|] eqn:Hs.
  2:{ destruct Hpop as (w1 & Hrun1 & _). congruence. }
  destruct Hpop as (t' & w1 & Hrun1 & Hshape & _ & H1).
  rewrite Hrun in Hrun1. injection Hrun1 as <-.
  pose proof (lookup_insert_eq σ q t') as Hq'.
  pose proof (merge_shapes_weight _ _ _ _ Hs) as Hweight. rewrite <- Hshape in Hweight.
  destruct (pop_account _ _ _ Hrun)
    as (pq & a0 & Hpq & Hroot & _ & Hgone & Hkeep & Hlog & Hok & Hframe).
  assert (a0 = a) as ->.
  { pose proof (rep_root _ _ _ H _ _ _ Hpq Hq) as Hr. rewrite Hroot in Hr. by injection Hr. }
  destruct (rep_own _ _ _ H _ _ Hq) as (Ha & _).
  exists x, (elements (shape_of t')), pq, a. split_and!; try done.
  - by eapply represents_holds.
  - rewrite Hshape, (merge_shapes_elements _ _ _ _ Hs). done.
  - rewrite (size_spec _ w' _ q t' H1 Hq'). f_equal. rewrite elements_length. simpl. lia.
  - by rewrite Ha.
Qed.

(** X11. After a [push] that returns, [top] shows the pushed element if the
    container was empty or the predicate puts the old top before it, and
    the old top otherwise; on a tie the element that was there first stays
    on top. *)
Theorem top_after_push w q e w' :
  reachable w → push q e w = Ret () w' →
  (top q w = Throw container_is_empty w → top q w' = Ret e w') ∧
  (∀ x, top q w = Ret x w →
        top q w' = Ret (if Compare_default x e is Some true then e else x) w').
Proof.
  intros Hreach Hrun. pose proof Hreach as [σ [H _]]%reachable_invariant.
  destruct (σ !! q) as [t|] eqn:Hq.
  2:{ exfalso. revert Hrun. unfold push.
      intros (a & w1 & Hnew & Hrun)%bind_ret_inv.
      apply new_Node_ret in Hnew as (_ & _ & _ & ->).
      apply this_bind_ret in Hrun as (pq & Hpq & _). simpl in Hpq.
      by rewrite (represents_dead _ _ _ _ H Hq) in Hpq. }
  pose proof (top_spec _ w σ q t H Hq) as Htop.
  destruct (push_spec _ w σ q t e H Hq) as [(w1 & Hrun1 & _)|(a & _ & Hpush)]; [congruence|].
  destruct (merge_shapes Compare_default (shape_of t) (Fork e 0 Nil Nil)) as [s|] eqn:Hs.
  2:{ destruct Hpush as (w1 & Hrun1 & _). congruence. }
  destruct Hpush as (t' & w1 & Hrun1 & Hshape & _ & H1).
  rewrite Hrun in Hrun1. injection Hrun1 as <-.
  pose proof (top_spec _ w' _ q t' H1 (lookup_insert_eq σ q t')) as Htop'.
  destruct t as [|a0 x0 n0 l0 r0].
  - simpl in Hs. rewrite merge_shapes_equation_1 in Hs. injection Hs as <-.
    destruct t' as [|a' x' n' l' r']; [done|]. injection Hshape as -> _ _ _.
    split; [done|]. intros x. by rewrite Htop.
  - split; [by rewrite Htop|]. intros x. rewrite Htop. intros [= <- ].
    simpl in Hs. rewrite merge_shapes_fork in Hs.
    destruct (Compare_default x0 e) as [[]|]; [| |done];
      destruct (merge_shapes Compare_default _ _) as [s'|]; try done;
      injection Hs as <-; unfold relink in Hshape;
      destruct t' as [|a' x' n' l' r']; try (by case_match);
      by case_match; injection Hshape as -> _ _ _.
Qed.

(** X13. The default constructor, on any store: it gives a container that
    was not alive before, touches no node and no other container, and the
    new container reports size 0, is empty, and answers [top] and [pop]
    with [container_is_empty]. *)
Theorem fresh_container_is_empty w :
  ∃ q w', construct Compare_default w = Ret q w' ∧ queues w !! q = None ∧
          nodes w' = nodes w ∧ released w' = released w ∧ new_ok w' = new_ok w ∧
          (∀ q0, q0 ≠ q → queues w' !! q0 = queues w !! q0) ∧
          holds w' q [] ∧ size q w' = Ret 0 w' ∧ empty q w' = Ret true w' ∧
          top q w' = Throw container_is_empty w' ∧
          pop q w' = Throw container_is_empty w'.
Proof.
  eexists _, _. split; [reflexivity|]. simpl.
  assert (queues w !! fresh (dom (queues w)) = None) as Hfresh
    by apply not_elem_of_dom, is_fresh.
  split_and!; try done.
  - intros q0 Hq0. by rewrite lookup_insert_ne.
  - eexists _, Leaf. simpl. by rewrite lookup_insert_eq.
  - unfold size. by erewrite this_bind by (simpl; apply lookup_insert_eq).
  - unfold empty. by erewrite this_bind by (simpl; apply lookup_insert_eq).
  - unfold top. by erewrite this_bind by (simpl; apply lookup_insert_eq).
  - unfold pop. by erewrite this_bind by (simpl; apply lookup_insert_eq).
Qed.

(** X12. [merge] moves nodes, it does not copy them: after a [merge] of two
    distinct containers that returns, the receiver's root reaches exactly
    the nodes that the two roots reached before; no node has been
    allocated or released, each holds the element it held, and the
    containers not named in the call are as they were. *)
Theorem merge_transfers_nodes w q other pq po w' :
  reachable w → q ≠ other →
  queues w !! q = Some pq → queues w !! other = Some po →
  merge q other w = Ret () w' →
  (∃ pq', queues w' !! q = Some pq' ∧
          ∀ a, reaches (nodes w') (root pq') a ↔
               reaches (nodes w) (root pq) a ∨ reaches (nodes w) (root po) a) ∧
  (∀ a, data <$> nodes w' !! a = data <$> nodes w !! a) ∧
  released w' = released w ∧ new_ok w' = new_ok w ∧
  (∀ q0, q0 ≠ q → q0 ≠ other → queues w' !! q0 = queues w !! q0).
Proof.
  intros Hreach Hne Hpq Hpo Hrun. pose proof Hreach as [σ [H _]]%reachable_invariant.
  destruct (proj1 (represents_live _ _ _ q H)) as [t1 Hq]; [by eexists|].
  destruct (proj1 (represents_live _ _ _ other H)) as [t2 Ho]; [by eexists|].
  pose proof (merge_spec _ w σ q other t1 t2 H Hne Hq Ho) as Hmerge.
  destruct (merge_shapes Compare_default (shape_of t1) (shape_of t2)) as [s|] eqn:Hs.
  2:{ destruct Hmerge as (w1 & Hrun1 & _). congruence. }
  destruct Hmerge as (t' & w1 & Hrun1 & Hshape & Haddrs & H1).
  rewrite Hrun in Hrun1. injection Hrun1 as <-.
  destruct (merge_account _ _ _ _ Hrun) as (Hdata & Hlog & Hok & Hframe).
  split_and!; try done.
  assert (<[other := Leaf]> (<[q := t']> σ) !! q = Some t') as Hq'
    by (by rewrite lookup_insert_ne, lookup_insert_eq).
  destruct (represents_queue _ _ _ _ _ H1 Hq') as (pq' & Hpq' & Hroot' & _).
  exists pq'. split; [done|]. intros a.
  rewrite Hroot', (rep_root _ _ _ H _ _ _ Hpq Hq), (rep_root _ _ _ H _ _ _ Hpo Ho).
  rewrite !own_reaches by (by eapply rep_own).
  by rewrite Haddrs, elem_of_app.
Qed.

End effects.

(** ** The depth of the recursion *)

Section depth.

Context {T : Type}.
Variable Compare_default : Compare T.
Implicit Types (w : World T) (t l r : tree T) (σ : gmap qid (tree T)).

Local Abbreviation represents := (represents Compare_default).
Local Abbreviation invariant := (invariant Compare_default).
Local Abbreviation reachable := (reachable Compare_default).

(** More fuel does not change what [mergeNodes] does. *)
Lemma mergeNodes_fuel_mono fuel fuel' less (h1 h2 : ptr) w :
  (fuel ≤ fuel')%nat → mergeNodes fuel less h1 h2 w ≠ OutOfFuel →
  mergeNodes fuel' less h1 h2 w = mergeNodes fuel less h1 h2 w.
Proof.
  revert fuel' h1 h2 w. induction fuel as [|fuel IH]; intros fuel' h1 h2 w Hle Hne; [done|].
  destruct fuel' as [|fuel']; [lia|].
  destruct h1 as [a1|], h2 as [a2|]; try done.
  revert Hne. rewrite !mergeNodes_unfold. rewrite !bind_unfold.
  destruct (deref a1 w) as [n1 w1| | |]; try done. rewrite !bind_unfold.
  destruct (deref a2 w1) as [n2 w2| | |]; try done. rewrite !bind_unfold.
  destruct (call less (data n1) (data n2) w2) as [b w3| | |]; try done. rewrite !bind_unfold.
  destruct (deref (if b then a2 else a1) w3) as [n w4| | |]; try done. rewrite !bind_unfold.
  intros Hne. rewrite (IH fuel'); [done|lia|]. intros Hout. by rewrite Hout in Hne.
Qed.

(** The recursion of [mergeNodes] on two leftist trees follows right
    spines: a budget above the sum of the two ranks is enough. *)
Lemma mergeNodes_spec_rank fuel less t1 t2 w :
  own (nodes w) t1 → own (nodes w) t2 → NoDup (addrs t1 ++ addrs t2) →
  leftist (shape_of t1) → leftist (shape_of t2) →
  rank (shape_of t1) + rank (shape_of t2) + 2 < Z.of_nat fuel →
  mergeNodes_refines fuel less t1 t2 w.
Proof.
  revert t1 t2 w. induction fuel as [|fuel IH]; intros t1 t2 w H1 H2 Hnd Hl1 Hl2 Hfuel.
  { destruct (leftist_rank_weight _ Hl1), (leftist_rank_weight _ Hl2). lia. }
  unfold mergeNodes_refines. destruct t1 as [|a1 x1 n1 l1 r1].
  { simpl shape_of. rewrite merge_shapes_equation_1. exists t2, (nodes w).
    rewrite world_eta. by destruct t2. }
  destruct t2 as [|a2 x2 n2 l2 r2].
  { simpl shape_of. rewrite merge_shapes_nil_r. exists (Br a1 x1 n1 l1 r1), (nodes w).
    rewrite world_eta, app_nil_r. done. }
  pose proof H1 as (Ha1 & Hown1 & Hr1). pose proof H2 as (Ha2 & Hown2 & Hr2).
  pose proof Hl1 as (_ & Hn1 & _ & Hlr1). pose proof Hl2 as (_ & Hn2 & _ & Hlr2).
  change (rootp (Br a1 x1 n1 l1 r1)) with (Some a1).
  change (rootp (Br a2 x2 n2 l2 r2)) with (Some a2).
  rewrite mergeNodes_unfold. simpl shape_of. rewrite merge_shapes_fork.
  rewrite (deref_bind _ _ _ _ Ha1), (deref_bind _ _ _ _ Ha2). simpl data.
  simpl in Hfuel.
  destruct (less x1 x2) as [[]|] eqn:Hless.
  - (* the second root wins *)
    rewrite (call_bind _ _ _ _ _ _ Hless), (deref_bind _ _ _ _ Ha2). simpl right.
    assert (aw_perm : a2 :: addrs l2 ++ addrs r2 ++ addrs (Br a1 x1 n1 l1 r1) ≡ₚ
                      addrs (Br a1 x1 n1 l1 r1) ++ addrs (Br a2 x2 n2 l2 r2)).
    { simpl. solve_Permutation. }
    assert (NoDup (a2 :: addrs l2 ++ addrs r2 ++ addrs (Br a1 x1 n1 l1 r1))) as Hnd'.
    { by rewrite aw_perm. }
    assert (mergeNodes_refines fuel less r2 (Br a1 x1 n1 l1 r1) w) as Hrec.
    { apply (IH r2 (Br a1 x1 n1 l1 r1)); [done|done| |done|done|simpl; lia].
      apply NoDup_cons in Hnd' as [_ Hnd']. by apply NoDup_app in Hnd' as (_ & _ & ?). }
    pose proof (mergeNodes_winner fuel less a2 x2 n2 l2 r2 (Br a1 x1 n1 l1 r1) w
                  Hrec H2 H1 Hnd') as Hw.
    simpl shape_of in Hw. simpl rootp in Hw.
    destruct (relink x2 (shape_of l2) <$> merge_shapes less (shape_of r2) (Fork x1 n1 (shape_of l1) (shape_of r1))) as [s|]; [|done].
    destruct Hw as (t & m' & Hrun & Hs & Hown & Hperm & Hframe & Hdom).
    exists t, m'. split_and!; [done|done|done| | |done].
    + by rewrite Hperm, aw_perm.
    + intros b Hb. apply Hframe. by rewrite aw_perm.
  - (* the first root stays on top *)
    rewrite (call_bind _ _ _ _ _ _ Hless), (deref_bind _ _ _ _ Ha1). simpl right.
    assert (aw_perm : a1 :: addrs l1 ++ addrs r1 ++ addrs (Br a2 x2 n2 l2 r2) ≡ₚ
                      addrs (Br a1 x1 n1 l1 r1) ++ addrs (Br a2 x2 n2 l2 r2)).
    { simpl. solve_Permutation. }
    assert (NoDup (a1 :: addrs l1 ++ addrs r1 ++ addrs (Br a2 x2 n2 l2 r2))) as Hnd'.
    { by rewrite aw_perm. }
    assert (mergeNodes_refines fuel less r1 (Br a2 x2 n2 l2 r2) w) as Hrec.
    { apply (IH r1 (Br a2 x2 n2 l2 r2)); [done|done| |done|done|simpl; lia].
      apply NoDup_cons in Hnd' as [_ Hnd']. by apply NoDup_app in Hnd' as (_ & _ & ?). }
    pose proof (mergeNodes_winner fuel less a1 x1 n1 l1 r1 (Br a2 x2 n2 l2 r2) w
                  Hrec H1 H2 Hnd') as Hw.
    simpl shape_of in Hw. simpl rootp in Hw.
    destruct (relink x1 (shape_of l1) <$> merge_shapes less (shape_of r1) (Fork x2 n2 (shape_of l2) (shape_of r2))) as [s|]; [|done].
    destruct Hw as (t & m' & Hrun & Hs & Hown & Hperm & Hframe & Hdom).
    exists t, m'. split_and!; [done|done|done| | |done].
    + by rewrite Hperm, aw_perm.
    + intros b Hb. apply Hframe. by rewrite aw_perm.
  - by rewrite bind_unfold; unfold call; rewrite Hless.
Qed.

Lemma mergeNodes_refines_returns fuel less t1 t2 w :
  mergeNodes_refines fuel less t1 t2 w →
  mergeNodes fuel less (rootp t1) (rootp t2) w ≠ OutOfFuel.
Proof.
  unfold mergeNodes_refines. destruct (merge_shapes less _ _).
  - intros (t & m' & -> & _). done.
  - by intros ->.
Qed.

(** X2. [merge] of two containers of sizes m and n descends at most
    log2((m+1)(n+1)) + 1 calls of [mergeNodes] deep: with any budget of
    calls whose power of two exceeds (m+1)(n+1) the recursion ends, and
    a larger budget changes nothing. *)
Theorem merge_depth_is_logarithmic w q other pq po fuel :
  reachable w → q ≠ other →
  queues w !! q = Some pq → queues w !! other = Some po →
  (count pq + 1) * (count po + 1) < 2 ^ Z.of_nat fuel →
  mergeNodes fuel (cmp pq) (root pq) (root po) w ≠ OutOfFuel ∧
  ∀ fuel', (fuel ≤ fuel')%nat →
    mergeNodes fuel' (cmp pq) (root pq) (root po) w =
    mergeNodes fuel (cmp pq) (root pq) (root po) w.
Proof.
  intros [σ [H _]]%reachable_invariant Hne Hpq Hpo Hfuel.
  destruct (proj1 (represents_live _ _ _ q H)) as [t1 Hq]; [by eexists|].
  destruct (proj1 (represents_live _ _ _ other H)) as [t2 Ho]; [by eexists|].
  rewrite (rep_root _ _ _ H _ _ _ Hpq Hq), (rep_root _ _ _ H _ _ _ Hpo Ho).
  rewrite (rep_count _ _ _ H _ _ _ Hpq Hq), (rep_count _ _ _ H _ _ _ Hpo Ho) in Hfuel.
  pose proof (rep_leftist _ _ _ H _ _ Hq) as Hl1.
  pose proof (rep_leftist _ _ _ H _ _ Ho) as Hl2.
  assert (mergeNodes_refines fuel (cmp pq) t1 t2 w) as Href.
  { apply mergeNodes_spec_rank; [by eapply rep_own|by eapply rep_own| |done|done|].
    - apply NoDup_app. split_and!; [by eapply rep_nodup| |by eapply rep_nodup].
      intros a Ha1 Ha2. apply Hne. by eapply (rep_disjoint _ _ _ H).
    - destruct (leftist_rank_weight _ Hl1) as [Hr1 Hw1].
      destruct (leftist_rank_weight _ Hl2) as [Hr2 Hw2].
      apply (Z.pow_lt_mono_r_iff 2); [lia|lia|].
      replace (rank (shape_of t1) + rank (shape_of t2) + 2)
        with ((rank (shape_of t1) + 1) + (rank (shape_of t2) + 1)) by lia.
      rewrite Z.pow_add_r by lia.
      eapply Z.le_lt_trans; [|exact Hfuel].
      apply Z.mul_le_mono_nonneg; [apply Z.pow_nonneg; lia|done
                                  |apply Z.pow_nonneg; lia|done]. }
  apply mergeNodes_refines_returns in Href as Hret.
  split; [done|]. intros fuel' Hle. by apply mergeNodes_fuel_mono.
Qed.

End depth.

(** ** Copies under a generous allocator *)

Section granted.

Context {T : Type}.
Variable Compare_default : Compare T.
Implicit Types (w : World T) (t l r : tree T) (σ : gmap qid (tree T)).

Local Abbreviation represents := (represents Compare_default).
Local Abbreviation invariant := (invariant Compare_default).
Local Abbreviation reachable := (reachable Compare_default).

(** X14. Copy construction and copy assignment return whenever the
    allocator grants every request and there is room for the clone:
    the release of a node a second time, and [bad_alloc], need a refused
    allocation. *)
Theorem copy_returns_when_memory_suffices w other po :
  reachable w → queues w !! other = Some po →
  Forall (eq true) (new_ok w) →
  Z.of_nat (base.size (nodes w)) + count po ≤ SIZE_MAX →
  (∃ q w', copy_construct other w = Ret q w') ∧
  (∀ q, is_Some (queues w !! q) → ∃ w', assign q other w = Ret q w').
Proof.
  intros [σ [H _]]%reachable_invariant Hpo Hok Hcap.
  destruct (proj1 (represents_live _ _ _ other H)) as [t Ho]; [by eexists|].
  rewrite (rep_count _ _ _ H _ _ _ Hpo Ho) in Hcap.
  by eapply copies_return.
Qed.

End granted.

(** ** The npl field *)

Section npl_field.

Context {T : Type}.
Variable Compare_default : Compare T.
Implicit Types (w : World T) (t l r : tree T) (σ : gmap qid (tree T)).

Local Abbreviation represents := (represents Compare_default).
Local Abbreviation invariant := (invariant Compare_default).
Local Abbreviation reachable := (reachable Compare_default).

(** Every node of an owned tree is the root of an owned tree. *)
Lemma own_subtree (m : gmap addr (Node T)) t a :
  own m t → leftist (shape_of t) → a ∈ addrs t →
  ∃ t', rootp t' = Some a ∧ own m t' ∧ leftist (shape_of t') ∧
        (weight (shape_of t') ≤ weight (shape_of t))%nat.
Proof.
  induction t as [|a0 x n l IHl r IHr]; simpl; [by intros _ _ ?%elem_of_nil|].
  intros (Ha & Hl & Hr) (Hle & Hn & Hll & Hlr) Hin.
  apply elem_of_cons in Hin as [->|Hin].
  { exists (Br a0 x n l r). simpl. split_and!; done. }
  apply elem_of_app in Hin as [Hin|Hin].
  - destruct (IHl Hl Hll Hin) as (t' & ? & ? & ? & ?). exists t'. split_and!; [done..|lia].
  - destruct (IHr Hr Hlr Hin) as (t' & ? & ? & ? & ?). exists t'. split_and!; [done..|lia].
Qed.

(** X15. The [npl] field of every node of a container is the null path
    length of the subtree below it (the distance to the nearest node in it
    that lacks a child), and that subtree has at least 2^(npl+1) - 1
    nodes: the field is logarithmic in the size of the container. *)
Theorem npl_is_null_path_length w q pq a n :
  reachable w → queues w !! q = Some pq →
  reaches (nodes w) (root pq) a → nodes w !! a = Some n →
  ∃ t, rootp t = Some a ∧ own (nodes w) t ∧
       npl n = null_path_length (shape_of t) ∧
       2 ^ (npl n + 1) ≤ Z.of_nat (weight (shape_of t)) + 1 ∧
       Z.of_nat (weight (shape_of t)) ≤ count pq.
Proof.
  intros [σ [H _]]%reachable_invariant Hpq Hreach Hn.
  destruct (proj1 (represents_live _ _ _ q H)) as [tq Hq]; [by eexists|].
  pose proof (rep_own _ _ _ H _ _ Hq) as Hown.
  rewrite (rep_root _ _ _ H _ _ _ Hpq Hq) in Hreach.
  apply (own_reaches _ _ _ Hown) in Hreach.
  destruct (own_subtree _ _ _ Hown (rep_leftist _ _ _ H _ _ Hq) Hreach)
    as (t & Hroot & Ht & Hleft & Hweight).
  exists t. split_and!; [done|done| | |].
  - rewrite <- (leftist_rank_npl _ Hleft).
    destruct t as [|a' x' n' l' r']; [done|]. injection Hroot as ->.
    destruct Ht as (Ha & _). rewrite Hn in Ha. by injection Ha as ->.
  - destruct (leftist_rank_weight _ Hleft) as [_ Hpow].
    destruct t as [|a' x' n' l' r']; [done|]. injection Hroot as ->.
    destruct Ht as (Ha & _). rewrite Hn in Ha. by injection Ha as ->.
  - rewrite (rep_count _ _ _ H _ _ _ Hpq Hq). lia.
Qed.

End npl_field.

(** ** Where a copy fails *)

Section refusal.

Context {T : Type}.
Variable Compare_default : Compare T.
Implicit Types (w : World T) (t l r : tree T) (σ : gmap qid (tree T)).

Local Abbreviation represents := (represents Compare_default).
Local Abbreviation invariant := (invariant Compare_default).
Local Abbreviation reachable := (reachable Compare_default).

Lemma left_spine_weight (s : shape T) : (left_spine s ≤ weight s)%nat.
Proof. induction s; simpl; lia. Qed.

(** [copyTree] asks for its nodes in preorder.  When request number [k]
    (from 0) is the first one refused, the copy returns if the tree has at
    most [k] nodes, fails cleanly if node [k] lies on the left spine, and
    releases a node twice otherwise. *)
Lemma copyTree_first_refusal fuel t w k :
  own (nodes w) t → (weight (shape_of t) < fuel)%nat →
  Z.of_nat (base.size (nodes w)) + Z.of_nat (weight (shape_of t)) ≤ SIZE_MAX →
  (∀ i, (i < k)%nat → new_ok w !! i ≠ Some false) → new_ok w !! k = Some false →
  ((weight (shape_of t) ≤ k)%nat →
   ∃ t' w', copyTree fuel (rootp t) w = Ret (rootp t') w' ∧
            shape_of t' = shape_of t ∧ own (nodes w') t' ∧ NoDup (addrs t') ∧
            (∀ a, a ∈ addrs t' → nodes w !! a = None) ∧
            (∀ a, a ∉ addrs t' → nodes w' !! a = nodes w !! a) ∧
            queues w' = queues w ∧
            Z.of_nat (base.size (nodes w')) ≤
              Z.of_nat (base.size (nodes w)) + Z.of_nat (weight (shape_of t)) ∧
            new_ok w' = drop (weight (shape_of t)) (new_ok w)) ∧
  ((k < left_spine (shape_of t))%nat →
   ∃ w' cs, copyTree fuel (rootp t) w = Throw bad_alloc w' ∧
            nodes w' = nodes w ∧ queues w' = queues w ∧
            released w' = cs ++ released w ∧ length cs = k ∧ NoDup cs ∧
            ∀ c, c ∈ cs → nodes w !! c = None) ∧
  ((left_spine (shape_of t) ≤ k < weight (shape_of t))%nat →
   ∃ a, copyTree fuel (rootp t) w = Fault (DoubleDelete a)).
Proof.
  revert t w k. induction fuel as [|fuel IH]; intros t w k Ht Hfuel Hcap Hgrant Hk; [lia|].
  destruct t as [|a x n l r].
  { split_and!; [|simpl; lia..]. intros _. exists Leaf, w. simpl.
    split_and!; try done; [constructor|by intros ? ?%elem_of_nil|lia]. }
  destruct Ht as (Ha & Hl & Hr). simpl in Hfuel, Hcap.
  change (rootp (Br a x n l r)) with (Some a). rewrite copyTree_unfold.
  rewrite (deref_bind _ _ _ _ Ha). simpl data. simpl shape_of. simpl weight. simpl left_spine.
  pose proof (left_spine_weight (shape_of l)) as Hsl.
  pose proof (left_spine_weight (shape_of r)) as Hsr.
  destruct k as [|k].
  { (* the first request is refused *)
    split_and!; [lia| |lia]. intros _.
    eexists _, []. split_and!.
    - apply bind_throw. apply new_Node_throw. split_and!; [done| |reflexivity].
      left. by rewrite head_lookup.
    - done.
    - done.
    - done.
    - done.
    - constructor.
    - by intros c ?%elem_of_nil. }
  set (c := fresh (dom (nodes w))).
  assert (nodes w !! c = None) as Hc by apply not_elem_of_dom, is_fresh.
  assert (a ≠ c) as Hac by (intros ->; congruence).
  assert (new_Node x w =
          Ret c (mkWorld (<[c := mkNode x None None 0]> (nodes w))
                         (queues w) (released w) (tail (new_ok w)))) as Hnew.
  { unfold new_Node. fold c.
    assert (match new_ok w with [] => true | b :: _ => b end = true) as ->.
    { pose proof (Hgrant 0%nat ltac:(lia)) as H0. by destruct (new_ok w) as [|[] ?]. }
    by rewrite (proj2 (Z.ltb_lt _ _)) by lia. }
  rewrite (bind_ret _ _ _ _ _ Hnew).
  assert (∀ t0, own (nodes w) t0 → c ∉ addrs t0) as Hout.
  { intros t0 Ht0 Hin. destruct (own_lookup _ _ _ Ht0 Hin) as [? ?]. congruence. }
  erewrite deref_bind by (simpl; rewrite lookup_insert_ne by done; exact Ha). simpl npl.
  unfold set_npl. erewrite update_bind by (simpl; apply lookup_insert_eq). simpl.
  rewrite insert_insert_eq.
  set (m2 := <[c := mkNode x None None n]> (nodes w)).
  set (w2 := set_nodes m2 _).
  assert (nodes w2 !! a = Some (mkNode x (rootp l) (rootp r) n)) as Ha2.
  { simpl. unfold m2. by rewrite lookup_insert_ne. }
  assert (own m2 l ∧ own m2 r) as [Hl2 Hr2] by (split; apply own_insert; eauto).
  assert (base.size m2 = S (base.size (nodes w))) as Hsize2.
  { unfold m2. by rewrite map_size_insert_None. }
  assert (∀ i, new_ok w2 !! i = new_ok w !! S i) as Hok2.
  { intros i. simpl. apply lookup_tail. }
  destruct (IH l w2 k Hl2 ltac:(lia)) as (Hret3 & Hthrow3 & Hfault3).
  { simpl. lia. }
  { intros i Hi. rewrite Hok2. apply Hgrant. lia. }
  { by rewrite Hok2. }
  destruct (decide (k < left_spine (shape_of l))%nat) as [Hk1|Hk1].
  { (* the left copy fails: the outer handler releases the new node *)
    split_and!; [lia| |lia]. intros _.
    destruct (Hthrow3 Hk1) as (w3 & cs & Hrun & Hn3 & Hq3 & Hlog3 & Hlen3 & Hnd3 & Hdead3).
    exists (mkWorld (delete c (nodes w3)) (queues w3) (c :: released w3) (new_ok w3)), (c :: cs).
    assert (c ∉ cs) as Hccs.
    { intros Hin. apply Hdead3 in Hin. simpl in Hin. unfold m2 in Hin.
      by rewrite lookup_insert_eq in Hin. }
    split_and!.
    - rewrite bind_unfold.
      erewrite catch_rethrow_throw
        by (rewrite (deref_bind _ _ _ _ Ha2); apply bind_throw; exact Hrun).
      erewrite delete_Node_bind by (rewrite Hn3; simpl; apply lookup_insert_eq).
      done.
    - simpl. rewrite Hn3. simpl. unfold m2. by rewrite delete_insert_id.
    - simpl. by rewrite Hq3.
    - simpl. by rewrite Hlog3.
    - simpl. by rewrite Hlen3.
    - by apply NoDup_cons.
    - intros b [->|Hb]%elem_of_cons; [done|].
      pose proof (Hdead3 b Hb) as Hnone. simpl in Hnone. unfold m2 in Hnone.
      rewrite lookup_insert_ne in Hnone; [done|]. by intros <-. }
  destruct (decide (k < weight (shape_of l))%nat) as [Hk2|Hk2].
  { (* the left copy releases a node twice *)
    split_and!; [lia|lia|]. intros _.
    destruct (Hfault3 ltac:(lia)) as (b & Hrun). exists b.
    apply bind_fault, catch_rethrow_fault.
    rewrite (deref_bind _ _ _ _ Ha2). by apply bind_fault. }
  (* the left copy is in place *)
  destruct (Hret3 ltac:(lia))
    as (l' & w3 & Hrun & Hshape & Hown & Hnd & Hnew3 & Hkeep3 & Hq3 & Hsize3 & Hok3).
  assert (c ∉ addrs l') as Hcl'.
  { intros Hin. apply Hnew3 in Hin. simpl in Hin. unfold m2 in Hin.
    by rewrite lookup_insert_eq in Hin. }
  assert (∀ b, b ∈ addrs l' → nodes w !! b = None) as Hnewl.
  { intros b Hb. pose proof (Hnew3 b Hb) as Hnone. simpl in Hnone. unfold m2 in Hnone.
    rewrite lookup_insert_ne in Hnone; [done|]. by intros <-. }
  assert (nodes w3 !! c = Some (mkNode x None None n)) as Hc3.
  { rewrite Hkeep3 by done. simpl. unfold m2. apply lookup_insert_eq. }
  set (m4 := <[c := mkNode x (rootp l') None n]> (nodes w3)).
  set (w4 := set_nodes m4 w3).
  assert (∀ t0, own (nodes w) t0 → own m4 t0) as Hold4.
  { intros t0 Ht0. apply own_insert; [|eauto]. eapply own_frame; [exact Ht0|].
    intros b Hb. rewrite Hkeep3.
    - simpl. unfold m2. apply lookup_insert_ne. intros <-. by apply (Hout t0).
    - intros Hin. apply Hnewl in Hin. destruct (own_lookup _ _ _ Ht0 Hb). congruence. }
  assert (nodes w4 !! a = Some (mkNode x (rootp l) (rootp r) n)) as Ha4.
  { pose proof (Hold4 (Br a x n l r)) as Hx. simpl in Hx. apply Hx. done. }
  assert (base.size m4 = base.size (nodes w3)) as Hsize4.
  { unfold m4. by rewrite map_size_insert_Some. }
  assert (∀ i, new_ok w4 !! i = new_ok w !! (S (weight (shape_of l)) + i)%nat) as Hok4.
  { intros i. simpl. rewrite Hok3, lookup_drop. apply Hok2. }
  destruct (IH r w4 (k - weight (shape_of l))%nat (Hold4 r Hr) ltac:(lia))
    as (Hret5 & Hthrow5 & Hfault5).
  { simpl. simpl in Hsize3. lia. }
  { intros i Hi. rewrite Hok4. apply Hgrant. lia. }
  { rewrite Hok4. rewrite <- Hk. f_equal. lia. }
  destruct (decide (k - weight (shape_of l) < left_spine (shape_of r))%nat) as [Hk3|Hk3].
  { (* the right copy fails: the inner handler releases the left copy and
       the new node, and the outer handler releases the new node again *)
    split_and!; [lia|lia|]. intros _.
    destruct (Hthrow5 Hk3) as (w5 & cs & Hrun5 & Hn5 & Hq5 & _).
    exists c. apply bind_fault.
    assert (own (nodes w5) l' ∧ nodes w5 !! c = Some (mkNode x (rootp l') None n))
      as [Hl5 Hc5].
    { rewrite Hn5. simpl. split; [by apply own_insert|apply lookup_insert_eq]. }
    destruct (deleteTree_spec fuel l' w5) as (w6 & Hrun6 & Hq6 & Ho6 & Hgone6 & Hkeep6);
      [done|done|rewrite Hshape; lia|].
    erewrite catch_rethrow_throw.
    2:{ rewrite (deref_bind _ _ _ _ Ha2). rewrite (bind_ret _ _ _ _ _ Hrun).
        unfold set_left. erewrite update_bind by exact Hc3. simpl. fold m4. fold w4.
        erewrite catch_rethrow_throw
          by (rewrite (deref_bind _ _ _ _ Ha4); apply bind_throw; exact Hrun5).
        rewrite bind_assoc. rewrite (deref_bind _ _ _ _ Hc5). simpl left.
        rewrite bind_assoc. rewrite (bind_ret _ _ _ _ _ Hrun6).
        erewrite delete_Node_bind by (rewrite Hkeep6 by done; exact Hc5).
        reflexivity. }
    unfold delete_Node at 1. rewrite bind_unfold. simpl.
    rewrite lookup_delete_eq. rewrite bool_decide_eq_true_2 by left. done. }
  destruct (decide (k - weight (shape_of l) < weight (shape_of r))%nat) as [Hk4|Hk4].
  { (* the right copy releases a node twice *)
    split_and!; [lia|lia|]. intros _.
    destruct (Hfault5 ltac:(lia)) as (b & Hrun5). exists b.
    apply bind_fault, catch_rethrow_fault.
    rewrite (deref_bind _ _ _ _ Ha2). rewrite (bind_ret _ _ _ _ _ Hrun).
    unfold set_left. erewrite update_bind by exact Hc3. simpl.
    apply catch_rethrow_fault. fold m4. fold w4.
    rewrite (deref_bind _ _ _ _ Ha4). by apply bind_fault. }
  (* both copies are in place *)
  split_and!; [|lia|lia]. intros _.
  destruct (Hret5 ltac:(lia))
    as (r' & w5 & Hrun5 & Hshape5 & Hown5 & Hnd5 & Hnew5 & Hkeep5 & Hq5 & Hsize5 & Hok5).
  assert (∀ b, b ∈ addrs r' → m4 !! b = None) as Hnew5' by exact Hnew5.
  assert (c ∉ addrs r') as Hcr'.
  { intros Hin. apply Hnew5' in Hin. unfold m4 in Hin. by rewrite lookup_insert_eq in Hin. }
  assert (own m4 l') as Hl4 by (by apply own_insert).
  assert (∀ b, b ∈ addrs l' → b ∉ addrs r') as Hdisj.
  { intros b Hb Hin. apply Hnew5' in Hin. destruct (own_lookup _ _ _ Hl4 Hb). congruence. }
  assert (nodes w5 !! c = Some (mkNode x (rootp l') None n)) as Hc5.
  { rewrite Hkeep5 by done. simpl. unfold m4. apply lookup_insert_eq. }
  exists (Br c x n l' r').
  eexists. split.
  { rewrite bind_unfold. erewrite catch_rethrow_ret; [reflexivity|].
    rewrite (deref_bind _ _ _ _ Ha2). rewrite (bind_ret _ _ _ _ _ Hrun).
    unfold set_left. erewrite update_bind by exact Hc3. simpl. fold m4. fold w4.
    apply catch_rethrow_ret.
    rewrite (deref_bind _ _ _ _ Ha4). rewrite (bind_ret _ _ _ _ _ Hrun5).
    unfold set_right, update. rewrite Hc5. reflexivity. }
  simpl. split_and!.
  - by rewrite Hshape, Hshape5.
  - apply lookup_insert_eq.
  - apply own_insert; [|done]. eapply own_frame; [exact Hl4|].
    intros b Hb. apply Hkeep5. by apply Hdisj.
  - by apply own_insert.
  - apply NoDup_cons. split; [by rewrite elem_of_app; intros [?|?]|].
    apply NoDup_app. done.
  - intros b [->|[Hb|Hb]%elem_of_app]%elem_of_cons; [done|by apply Hnewl|].
    pose proof (Hnew5' b Hb) as Hnone. unfold m4 in Hnone.
    rewrite lookup_insert_ne in Hnone by (by intros <-).
    rewrite Hkeep3 in Hnone.
    + simpl in Hnone. unfold m2 in Hnone.
      rewrite lookup_insert_ne in Hnone by (by intros <-). done.
    + intros Hin. by apply (Hdisj b).
  - intros b Hb. rewrite not_elem_of_cons, not_elem_of_app in Hb.
    destruct Hb as (Hb & Hbl & Hbr).
    rewrite lookup_insert_ne by done. rewrite Hkeep5 by done. simpl. unfold m4.
    rewrite lookup_insert_ne by done. rewrite Hkeep3 by done. simpl. unfold m2.
    by rewrite lookup_insert_ne.
  - rewrite Hq5. simpl. rewrite Hq3. simpl. done.
  - rewrite map_size_insert_Some by done. simpl in Hsize5, Hsize3. lia.
  - rewrite Hok5. simpl. rewrite Hok3. simpl.
    rewrite drop_drop. destruct (new_ok w); [by rewrite !drop_nil|done].
Qed.

(** X16. Where a copy fails decides how.  [copyTree] requests its nodes in
    preorder; let request number [k] (counting from 0) be the first one
    the allocator refuses.  Copy construction and copy assignment return
    if the source has at most [k] nodes; they throw [bad_alloc] with the
    nodes and containers unchanged, each of the [k] nodes allocated so far
    released exactly once, if node [k] lies on the left spine of the
    source tree; and they release a node a second time in every other
    case. *)
Theorem copy_outcome_by_first_refusal w other po k :
  reachable w → queues w !! other = Some po →
  Z.of_nat (base.size (nodes w)) + count po ≤ SIZE_MAX →
  (∀ i, (i < k)%nat → new_ok w !! i ≠ Some false) → new_ok w !! k = Some false →
  ∃ t, rootp t = root po ∧ own (nodes w) t ∧
       ∀ op : M T qid,
         op = copy_construct other ∨
         (∃ q, q ≠ other ∧ is_Some (queues w !! q) ∧ op = assign q other) →
         (count po ≤ Z.of_nat k → ∃ q w', op w = Ret q w') ∧
         ((k < left_spine (shape_of t))%nat →
          ∃ w' cs, op w = Throw bad_alloc w' ∧
                   nodes w' = nodes w ∧ queues w' = queues w ∧
                   released w' = cs ++ released w ∧ length cs = k ∧ NoDup cs ∧
                   ∀ c, c ∈ cs → nodes w !! c = None) ∧
         ((left_spine (shape_of t) ≤ k)%nat → Z.of_nat k < count po →
          ∃ a, op w = Fault (DoubleDelete a)).
Proof.
  intros [σ [H _]]%reachable_invariant Hpo Hcap Hgrant Hk.
  destruct (proj1 (represents_live _ _ _ other H)) as [t Ho]; [by eexists|].
  pose proof (rep_root _ _ _ H _ _ _ Hpo Ho) as Hroot2.
  pose proof (rep_count _ _ _ H _ _ _ Hpo Ho) as Hcount.
  pose proof (rep_own _ _ _ H _ _ Ho) as Hown.
  pose proof (own_size _ _ Hown (rep_nodup _ _ _ H _ _ Ho)) as Hweight.
  exists t. split_and!; [done|done|].
  set (copy := match rootp t return M T ptr with
               | Some _ => with_fuel (λ fuel, copyTree fuel (rootp t))
               | None => mret None
               end).
  assert ((count po ≤ Z.of_nat k → ∃ p w1, copy w = Ret p w1) ∧
          ((k < left_spine (shape_of t))%nat →
           ∃ w' cs, copy w = Throw bad_alloc w' ∧
                    nodes w' = nodes w ∧ queues w' = queues w ∧
                    released w' = cs ++ released w ∧ length cs = k ∧ NoDup cs ∧
                    ∀ c, c ∈ cs → nodes w !! c = None) ∧
          ((left_spine (shape_of t) ≤ k)%nat → Z.of_nat k < count po →
           ∃ a, copy w = Fault (DoubleDelete a))) as (Hret & Hthrow & Hfault).
  { rewrite Hcount in *.
    destruct (copyTree_first_refusal (S (base.size (nodes w))) t w k Hown ltac:(lia)
                Hcap Hgrant Hk) as (Hret & Hthrow & Hfault).
    subst copy. destruct t as [|a x n l r].
    { split_and!; [by eexists _, _|simpl; lia|simpl; lia]. }
    change (rootp (Br a x n l r)) with (Some a) in *. unfold with_fuel.
    split_and!.
    - intros Hle. destruct (Hret ltac:(lia)) as (t' & w' & Hrun & _). eauto.
    - done.
    - intros Hle Hlt. apply Hfault. lia. }
  intros op [->|(q & Hne & [pq Hpq] & ->)].
  - unfold copy_construct. rewrite (this_bind _ _ _ _ Hpo), Hroot2. fold copy.
    split_and!.
    + intros Hle. destruct (Hret Hle) as (p & w1 & Hrun).
      rewrite (bind_ret _ _ _ _ _ Hrun). by eexists _, _.
    + intros Hlt. destruct (Hthrow Hlt) as (w' & cs & Hrun & Hrest).
      exists w', cs. by rewrite (bind_throw _ _ _ _ _ Hrun).
    + intros Hle Hlt. destruct (Hfault Hle Hlt) as (a & Hrun).
      exists a. by rewrite (bind_fault _ _ _ _ Hrun).
  - destruct (proj1 (represents_live _ _ _ q H)) as [t1 Hq]; [by eexists|].
    split_and!.
    + intros Hle. destruct (Hret Hle) as (p & w1 & Hrun).
      destruct (assign_returns_after_copy _ w σ q other t1 t p w1 H Hne Hq Ho Hrun)
        as (w' & Hrun'). eauto.
    + intros Hlt. destruct (Hthrow Hlt) as (w' & cs & Hrun & Hrest).
      exists w', cs. unfold assign. rewrite decide_False by done.
      rewrite (this_bind _ _ _ _ Hpo), Hroot2. fold copy.
      by rewrite (bind_throw _ _ _ _ _ Hrun).
    + intros Hle Hlt. destruct (Hfault Hle Hlt) as (a & Hrun).
      exists a. unfold assign. rewrite decide_False by done.
      rewrite (this_bind _ _ _ _ Hpo), Hroot2. fold copy.
      by rewrite (bind_fault _ _ _ _ Hrun).
Qed.

End refusal.

(** ** Worked examples *)

Section examples.

Lemma reachable_perform_all {T} (less : Compare T) rqs (w w' : World T) :
  reachable less w → perform_all less rqs w = Ret () w' → reachable less w'.
Proof.
  revert w. induction rqs as [|rq rqs IH]; intros w Hw; simpl.
  { by intros [= <-]. }
  intros (u & w1 & Hrq & Hrest)%bind_ret_inv. destruct u.
  eapply IH; [|exact Hrest]. by eapply reachable_return.
Qed.

Lemma less_Z_strict_weak_order : strict_weak_order less_Z.
Proof.
  unfold less_Z. split.
  - by eexists.
  - intros x. f_equal. lia.
  - intros x y z [= Hxy] [= Hyz]. f_equal. lia.
  - intros x y z [= ?] [= ?] [= ?] [= ?]. split; f_equal; lia.
Qed.

Lemma example_world_reachable : reachable less_Z example_world.
Proof.
  apply (reachable_perform_all less_Z example_program (start [])); [constructor|].
  vm_compute. reflexivity.
Qed.

Lemma example_world_holds_1 : holds example_world 1 [8; 5; 3; 1].
Proof.
  exists (mkQueue (Some 3%positive) 4 less_Z),
    (Br 3 8 1 (Br 1 5 0 (Br 2 3 0 Leaf Leaf) Leaf) (Br 4 1 0 Leaf Leaf)).
  vm_compute. repeat split; reflexivity.
Qed.

Lemma example_world_holds_2 : holds example_world 2 [7; 2].
Proof.
  exists (mkQueue (Some 5%positive) 2 less_Z), (Br 5 7 0 (Br 6 2 0 Leaf Leaf) Leaf).
  vm_compute. repeat split; reflexivity.
Qed.

(** The round trip of pushes 5, 3, 8, 1: the elements come out as 8, 5, 3, 1. *)
Example example_round_trip :
  ∃ w, drain 1%positive example_world = Ret [8; 5; 3; 1] w ∧
       empty 1%positive w = Ret true w ∧
       top 1%positive w = Throw container_is_empty w.
Proof. eexists. vm_compute. repeat split; reflexivity. Qed.

(** C4. Copying the three-node tree of [short_of_memory] allocates the copy
    of the root and of its left child; the allocation for the right child
    fails.  The inner handler of [copyTree] releases the left copy and the
    new root and rethrows inside the outer [try], whose handler releases
    the new root a second time: no release "exactly once", but a double
    [delete]. *)
Theorem C4_copy_failure_releases_node_twice :
  reachable less_Z short_of_memory ∧
  copy_construct 1%positive short_of_memory = Fault (DoubleDelete 4%positive) ∧
  nodes short_of_memory !! 4%positive = None.
Proof.
  split.
  - apply (reachable_perform_all less_Z three_pushes (start third_copy_fails));
      [constructor|].
    vm_compute. reflexivity.
  - vm_compute. split; reflexivity.
Qed.

(** C8. The count invariant holds in [short_of_memory_pair], a state two
    constructions and three pushes reach; there the allocator refuses the
    third request.  Copy construction from the first container, and copy
    assignment of it to the second, then neither return nor throw: the
    handlers of [copyTree] release the copy of the root twice, which is
    undefined behaviour, and no state is left of which the invariant
    could hold. *)
Theorem C8_failed_copy_leaves_no_state :
  reachable less_Z short_of_memory_pair ∧ counted short_of_memory_pair ∧
  (∀ i, (i < 2)%nat → new_ok short_of_memory_pair !! i ≠ Some false) ∧
  new_ok short_of_memory_pair !! 2%nat = Some false ∧
  copy_construct 1%positive short_of_memory_pair = Fault (DoubleDelete 4%positive) ∧
  assign 2%positive 1%positive short_of_memory_pair = Fault (DoubleDelete 4%positive) ∧
  (∀ w', perform less_Z (CopyConstruct 1%positive) short_of_memory_pair ≠ Ret () w') ∧
  (∀ e w', perform less_Z (CopyConstruct 1%positive) short_of_memory_pair ≠ Throw e w') ∧
  (∀ w', perform less_Z (Assign 2%positive 1%positive) short_of_memory_pair ≠ Ret () w') ∧
  (∀ e w', perform less_Z (Assign 2%positive 1%positive) short_of_memory_pair ≠ Throw e w').
Proof.
  assert (perform less_Z (CopyConstruct 1%positive) short_of_memory_pair =
          Fault (DoubleDelete 4%positive)) as Hc by (vm_compute; reflexivity).
  assert (perform less_Z (Assign 2%positive 1%positive) short_of_memory_pair =
          Fault (DoubleDelete 4%positive)) as Ha by (vm_compute; reflexivity).
  assert (reachable less_Z short_of_memory_pair) as Hreach.
  { apply (reachable_perform_all less_Z (three_pushes ++ [Construct])
             (start third_copy_fails)); [constructor|].
    vm_compute. reflexivity. }
  split_and!.
  - exact Hreach.
  - by apply (reachable_counted less_Z).
  - intros [|[|i]] Hi; [vm_compute; discriminate..|lia].
  - vm_compute. reflexivity.
  - vm_compute. reflexivity.
  - vm_compute. reflexivity.
  - intros w'. rewrite Hc. discriminate.
  - intros e w'. rewrite Hc. discriminate.
  - intros w'. rewrite Ha. discriminate.
  - intros e w'. rewrite Ha. discriminate.
Qed.

Lemma C1_witness :
  new_Node 4 shy_world = Ret 5%positive shy_world_with_node ∧
  queues shy_world !! 1%positive = Some shy_first ∧
  with_fuel (λ fuel, mergeNodes fuel (cmp shy_first) (root shy_first) (Some 5%positive))
    shy_world_with_node = Throw compare_error shy_world_with_node ∧
  root shy_first = Some 1%positive ∧
  nodes shy_world !! 1%positive = Some (mkNode 8 (Some 2%positive) (Some 3%positive) 1) ∧
  with_fuel (λ fuel, mergeNodes fuel (cmp shy_first)
                       (left (mkNode 8 (Some 2%positive) (Some 3%positive) 1))
                       (right (mkNode 8 (Some 2%positive) (Some 3%positive) 1)))
    shy_world = Throw compare_error shy_world ∧
  1%positive ≠ 2%positive ∧
  queues shy_world !! 2%positive = Some shy_second ∧
  with_fuel (λ fuel, mergeNodes fuel (cmp shy_first) (root shy_first) (root shy_second))
    shy_world = Throw compare_error shy_world ∧
  ((compare_error = compare_error ∧ ∃ x y, cmp shy_first x y = None) ∧
   ∃ w', push 1%positive 4 shy_world = Throw runtime_error w' ∧
         nodes w' = nodes shy_world ∧ queues w' = queues shy_world) ∧
  ((compare_error = compare_error ∧ ∃ x y, cmp shy_first x y = None) ∧
   ∃ w', pop 1%positive shy_world = Throw runtime_error w' ∧
         nodes w' = nodes shy_world ∧ queues w' = queues shy_world) ∧
  ((compare_error = compare_error ∧ ∃ x y, cmp shy_first x y = None) ∧
   ∃ w', merge 1%positive 2%positive shy_world = Throw runtime_error w' ∧
         nodes w' = nodes shy_world ∧ queues w' = queues shy_world).
Proof.
  assert (new_Node 4 shy_world = Ret 5%positive shy_world_with_node)
    as Hnew by (vm_compute; reflexivity).
  assert (queues shy_world !! 1%positive = Some shy_first) as Hq by (vm_compute; reflexivity).
  assert (with_fuel (λ fuel, mergeNodes fuel (cmp shy_first) (root shy_first)
                               (Some 5%positive))
            shy_world_with_node = Throw compare_error shy_world_with_node)
    as Hpush by (vm_compute; reflexivity).
  assert (root shy_first = Some 1%positive) as Hroot by reflexivity.
  assert (nodes shy_world !! 1%positive =
          Some (mkNode 8 (Some 2%positive) (Some 3%positive) 1))
    as Hn by (vm_compute; reflexivity).
  assert (with_fuel (λ fuel, mergeNodes fuel (cmp shy_first)
                               (left (mkNode 8 (Some 2%positive) (Some 3%positive) 1))
                               (right (mkNode 8 (Some 2%positive) (Some 3%positive) 1)))
            shy_world = Throw compare_error shy_world)
    as Hpop by (vm_compute; reflexivity).
  assert (1%positive ≠ 2%positive) as Hne by discriminate.
  assert (queues shy_world !! 2%positive = Some shy_second) as Ho by (vm_compute; reflexivity).
  assert (with_fuel (λ fuel, mergeNodes fuel (cmp shy_first) (root shy_first)
                               (root shy_second))
            shy_world = Throw compare_error shy_world)
    as Hmerge by (vm_compute; reflexivity).
  destruct (C1_predicate_failure_rolls_back 1%positive 2%positive 4 shy_world)
    as (Hpu & Hpo & Hme & _).
  exact (conj Hnew (conj Hq (conj Hpush (conj Hroot (conj Hn (conj Hpop (conj Hne
           (conj Ho (conj Hmerge
              (conj (Hpu 5%positive shy_world_with_node shy_first compare_error
                         shy_world_with_node Hnew Hq Hpush)
                 (conj (Hpo shy_first 1%positive _ compare_error shy_world Hq Hroot Hn Hpop)
                    (Hme shy_first shy_second compare_error shy_world
                         Hne Hq Ho Hmerge)))))))))))).
Defined.

Lemma C2_witness :
  strict_weak_order less_Z ∧ reachable less_Z example_world ∧
  holds example_world 1 [8; 5; 3; 1] ∧
  (([8; 5; 3; 1] ≠ [] →
    ∃ x, top 1%positive example_world = Ret x example_world ∧ x ∈ [8; 5; 3; 1] ∧
         ∀ y, y ∈ [8; 5; 3; 1] → less_Z x y = Some false) ∧
   (∃ ys w', drain 1%positive example_world = Ret ys w' ∧ ys ≡ₚ [8; 5; 3; 1] ∧
             StronglySorted (λ a b, less_Z a b = Some false) ys ∧
             holds w' 1 [] ∧ empty 1%positive w' = Ret true w' ∧
             top 1%positive w' = Throw container_is_empty w' ∧
             pop 1%positive w' = Throw container_is_empty w')).
Proof.
  refine (conj less_Z_strict_weak_order
            (conj example_world_reachable (conj example_world_holds_1 _))).
  apply (C2_top_is_maximum_and_pops_descend less_Z example_world 1%positive [8; 5; 3; 1]
             less_Z_strict_weak_order example_world_reachable example_world_holds_1).
Defined.

Lemma C3_witness :
  reachable less_Z example_world ∧
  holds example_world 1 [8; 5; 3; 1] ∧ holds example_world 2 [7; 2] ∧
  ((1%positive = 2%positive → merge 1%positive 2%positive example_world = Ret () example_world) ∧
   (1%positive ≠ 2%positive →
    size 1%positive example_world = Ret (Z.of_nat (length [8; 5; 3; 1])) example_world ∧
    size 2%positive example_world = Ret (Z.of_nat (length [7; 2])) example_world ∧
    ((∀ x y, is_Some (less_Z x y)) →
     ∃ w', merge 1%positive 2%positive example_world = Ret () w') ∧
    ∀ w', merge 1%positive 2%positive example_world = Ret () w' →
      size 1%positive w' = Ret (Z.of_nat (length [8; 5; 3; 1] + length [7; 2])) w' ∧
      (∃ zs, holds w' 1 zs ∧ zs ≡ₚ [8; 5; 3; 1] ++ [7; 2]) ∧
      (∃ po, queues w' !! 2%positive = Some po ∧ root po = None ∧ count po = 0) ∧
      holds w' 2 [] ∧ size 2%positive w' = Ret 0 w' ∧ empty 2%positive w' = Ret true w')).
Proof.
  refine (conj example_world_reachable
            (conj example_world_holds_1 (conj example_world_holds_2 _))).
  apply (C3_merge_unites_and_empties_other less_Z example_world 1%positive 2%positive
             [8; 5; 3; 1] [7; 2]
             example_world_reachable example_world_holds_1 example_world_holds_2).
Defined.

Lemma C5_witness :
  reachable less_Z example_world ∧ holds example_world 1 [8; 5; 3; 1] ∧
  (((∃ w', top 1%positive example_world = Throw container_is_empty w') ↔
    [8; 5; 3; 1] = []) ∧
   ((∃ w', pop 1%positive example_world = Throw container_is_empty w') ↔
    [8; 5; 3; 1] = []) ∧
   (∀ e w', top 1%positive example_world = Throw e w' →
            e = container_is_empty ∧ w' = example_world) ∧
   (∀ w', pop 1%positive example_world = Throw container_is_empty w' →
          w' = example_world) ∧
   ([8; 5; 3; 1] ≠ [] →
    ∃ pq a n, queues example_world !! 1%positive = Some pq ∧ root pq = Some a ∧
              nodes example_world !! a = Some n ∧
              top 1%positive example_world = Ret (data n) example_world)).
Proof.
  refine (conj example_world_reachable (conj example_world_holds_1 _)).
  apply (C5_empty_error_iff_no_element less_Z example_world 1%positive [8; 5; 3; 1]
             example_world_reachable example_world_holds_1).
Defined.

Lemma C6_witness :
  strict_weak_order less_Z ∧ reachable less_Z example_world ∧
  queues example_world !! 1%positive = Some (mkQueue (Some 3%positive) 4 less_Z) ∧
  reaches (nodes example_world) (root (mkQueue (Some 3%positive) 4 less_Z)) 3%positive ∧
  nodes example_world !! 3%positive = Some (mkNode 8 (Some 1%positive) (Some 4%positive) 1) ∧
  (left (mkNode 8 (Some 1%positive) (Some 4%positive) 1) = Some 1%positive ∨
   right (mkNode 8 (Some 1%positive) (Some 4%positive) 1) = Some 1%positive) ∧
  nodes example_world !! 1%positive = Some (mkNode 5 (Some 2%positive) None 0) ∧
  less_Z (data (mkNode 8 (Some 1%positive) (Some 4%positive) 1))
         (data (mkNode 5 (Some 2%positive) None 0)) = Some false.
Proof.
  assert (queues example_world !! 1%positive = Some (mkQueue (Some 3%positive) 4 less_Z))
    as Hq by (vm_compute; reflexivity).
  assert (nodes example_world !! 3%positive =
          Some (mkNode 8 (Some 1%positive) (Some 4%positive) 1))
    as Hn by (vm_compute; reflexivity).
  assert (nodes example_world !! 1%positive = Some (mkNode 5 (Some 2%positive) None 0))
    as Hc by (vm_compute; reflexivity).
  assert (reaches (nodes example_world) (root (mkQueue (Some 3%positive) 4 less_Z)) 3%positive)
    as Hreach by (eapply reaches_here; exact Hn).
  refine (conj less_Z_strict_weak_order
            (conj example_world_reachable
               (conj Hq (conj Hreach (conj Hn (conj (or_introl eq_refl) (conj Hc _))))))).
  apply (C6_heap_property less_Z example_world 1%positive _ 3%positive _ 1%positive _
           less_Z_strict_weak_order example_world_reachable Hq Hreach Hn (or_introl eq_refl) Hc).
Defined.

Lemma C7_witness :
  reachable less_Z example_world ∧
  queues example_world !! 1%positive = Some (mkQueue (Some 3%positive) 4 less_Z) ∧
  reaches (nodes example_world) (root (mkQueue (Some 3%positive) 4 less_Z)) 3%positive ∧
  nodes example_world !! 3%positive = Some (mkNode 8 (Some 1%positive) (Some 4%positive) 1) ∧
  ((stored_npl (nodes example_world) (right (mkNode 8 (Some 1%positive) (Some 4%positive) 1)) ≤
    stored_npl (nodes example_world) (left (mkNode 8 (Some 1%positive) (Some 4%positive) 1)) ∧
    npl (mkNode 8 (Some 1%positive) (Some 4%positive) 1) =
    stored_npl (nodes example_world) (right (mkNode 8 (Some 1%positive) (Some 4%positive) 1)) + 1 ∧
    0 ≤ npl (mkNode 8 (Some 1%positive) (Some 4%positive) 1) < 64 ∧
    (left (mkNode 8 (Some 1%positive) (Some 4%positive) 1) = None →
     right (mkNode 8 (Some 1%positive) (Some 4%positive) 1) = None →
     npl (mkNode 8 (Some 1%positive) (Some 4%positive) 1) = 0)) ∧
   (∀ m h x l r p0 n0 (w0 : World Z),
      m !! h = Some (mkNode x (rootp l) p0 n0) → own m l → own m r →
      h ∉ addrs l → h ∉ addrs r → leftist (shape_of l) → leftist (shape_of r) →
      ∃ t m', relink_nodes h (rootp r) (set_nodes m w0) = Ret (rootp t) (set_nodes m' w0) ∧
              own m' t ∧ leftist (shape_of t) ∧
              shape_of t = if rank (shape_of l) <? rank (shape_of r)
                           then Fork x (rank (shape_of l) + 1) (shape_of r) (shape_of l)
                           else Fork x (rank (shape_of r) + 1) (shape_of l) (shape_of r))).
Proof.
  assert (queues example_world !! 1%positive = Some (mkQueue (Some 3%positive) 4 less_Z))
    as Hq by (vm_compute; reflexivity).
  assert (nodes example_world !! 3%positive =
          Some (mkNode 8 (Some 1%positive) (Some 4%positive) 1))
    as Hn by (vm_compute; reflexivity).
  assert (reaches (nodes example_world) (root (mkQueue (Some 3%positive) 4 less_Z)) 3%positive)
    as Hreach by (eapply reaches_here; exact Hn).
  refine (conj example_world_reachable (conj Hq (conj Hreach (conj Hn _)))).
  apply (C7_leftist_property less_Z example_world 1%positive _ 3%positive _
             example_world_reachable Hq Hreach Hn).
Defined.

Lemma X17_witness :
  reachable less_Z example_world ∧
  (counted example_world ∧
   ∀ rq w', perform less_Z rq example_world = Ret () w' ∨
            (∃ e, perform less_Z rq example_world = Throw e w') →
            counted w').
Proof.
  split; [exact example_world_reachable|].
  apply (count_is_number_of_nodes less_Z example_world example_world_reachable).
Defined.

Lemma C9_witness :
  reachable less_Z example_world ∧
  copy_construct 1%positive example_world = Ret 3%positive copied_world ∧
  2%positive ≠ 1%positive ∧
  assign 2%positive 1%positive example_world = Ret 2%positive assigned_world ∧
  queues example_world !! 1%positive = Some first_queue ∧
  Forall (eq true) (new_ok example_world) ∧
  Z.of_nat (base.size (nodes example_world)) + count first_queue ≤ SIZE_MAX ∧
  cloned example_world 1 3 copied_world ∧
  cloned example_world 1 2 assigned_world ∧
  (∃ q w', copy_construct 1%positive example_world = Ret q w') ∧
  (∀ q, is_Some (queues example_world !! q) →
        ∃ w', assign q 1%positive example_world = Ret q w').
Proof.
  assert (copy_construct 1%positive example_world = Ret 3%positive copied_world)
    as Hcopy by (vm_compute; reflexivity).
  assert (2%positive ≠ 1%positive) as Hne by discriminate.
  assert (assign 2%positive 1%positive example_world = Ret 2%positive assigned_world)
    as Hassign by (vm_compute; reflexivity).
  assert (queues example_world !! 1%positive = Some first_queue)
    as Hq by (vm_compute; reflexivity).
  assert (Forall (eq true) (new_ok example_world)) as Hok by (vm_compute; constructor).
  assert (Z.of_nat (base.size (nodes example_world)) + count first_queue ≤ SIZE_MAX)
    as Hcap by (vm_compute; discriminate).
  destruct (C9_copy_is_independent_deep_clone less_Z example_world 1%positive
              example_world_reachable) as (Hc & Ha & Hl).
  exact (conj example_world_reachable
           (conj Hcopy (conj Hne (conj Hassign (conj Hq (conj Hok (conj Hcap
              (conj (Hc 3%positive copied_world Hcopy)
                 (conj (Ha 2%positive assigned_world Hne Hassign)
                    (Hl first_queue Hq Hok Hcap)))))))))).
Defined.

End examples.

(** ** More worked examples *)

Section more_examples.

Lemma unlucky_world_reachable : reachable less_unlucky unlucky_world.
Proof.
  apply (reachable_perform_all less_unlucky [Construct; Push 1%positive 5] (start []));
    [constructor|].
  vm_compute. reflexivity.
Qed.

Lemma short_of_memory_reachable : reachable less_Z short_of_memory.
Proof.
  apply (reachable_perform_all less_Z three_pushes (start third_copy_fails)); [constructor|].
  vm_compute. reflexivity.
Qed.

Lemma example_world_first : queues example_world !! 1%positive = Some first_queue.
Proof. vm_compute. reflexivity. Qed.

Lemma example_world_second : queues example_world !! 2%positive = Some second_queue.
Proof. vm_compute. reflexivity. Qed.

Lemma less_Z_total : ∀ x y, is_Some (less_Z x y).
Proof. intros x y. by eexists. Qed.

Lemma X1_witness :
  mergeNodes 7 less_Z (Some 3%positive) (Some 5%positive) example_world =
    Ret (Some 3%positive) relinked_world ∧
  ((Some 3%positive = Some 3%positive ∨ Some 3%positive = Some 5%positive) ∧
   (Some 3%positive = None → Some 3%positive = Some 5%positive) ∧
   (Some 5%positive = None → Some 3%positive = Some 3%positive) ∧
   (∀ b, data <$> nodes relinked_world !! b = data <$> nodes example_world !! b) ∧
   queues relinked_world = queues example_world ∧
   released relinked_world = released example_world ∧
   new_ok relinked_world = new_ok example_world).
Proof.
  assert (mergeNodes 7 less_Z (Some 3%positive) (Some 5%positive) example_world =
          Ret (Some 3%positive) relinked_world) as Hrun by (vm_compute; reflexivity).
  refine (conj Hrun _).
  apply (mergeNodes_only_relinks 7 less_Z (Some 3%positive) (Some 5%positive)
           (Some 3%positive) example_world relinked_world Hrun).
Defined.

Lemma X2_witness :
  reachable less_Z example_world ∧ 1%positive ≠ 2%positive ∧
  queues example_world !! 1%positive = Some first_queue ∧
  queues example_world !! 2%positive = Some second_queue ∧
  (count first_queue + 1) * (count second_queue + 1) < 2 ^ Z.of_nat 4 ∧
  (mergeNodes 4 (cmp first_queue) (root first_queue) (root second_queue) example_world
     ≠ OutOfFuel ∧
   ∀ fuel', (4 ≤ fuel')%nat →
     mergeNodes fuel' (cmp first_queue) (root first_queue) (root second_queue) example_world =
     mergeNodes 4 (cmp first_queue) (root first_queue) (root second_queue) example_world).
Proof.
  assert (1%positive ≠ 2%positive) as Hne by discriminate.
  assert ((count first_queue + 1) * (count second_queue + 1) < 2 ^ Z.of_nat 4) as Hfuel
    by (vm_compute; reflexivity).
  refine (conj example_world_reachable
            (conj Hne (conj example_world_first (conj example_world_second (conj Hfuel _))))).
  apply (merge_depth_is_logarithmic less_Z example_world 1%positive 2%positive
           first_queue second_queue 4
           example_world_reachable Hne example_world_first example_world_second Hfuel).
Defined.

Lemma X3_witness :
  reachable less_Z example_world ∧ holds example_world 1 [8; 5; 3; 1] ∧
  ((head (new_ok example_world) ≠ Some false →
    Z.of_nat (base.size (nodes example_world)) < SIZE_MAX →
    (∀ x y, is_Some (less_Z x y)) → ∃ w', push 1%positive 6 example_world = Ret () w') ∧
   ∀ w', push 1%positive 6 example_world = Ret () w' →
     (∃ zs, holds w' 1 zs ∧ zs ≡ₚ 6 :: [8; 5; 3; 1]) ∧
     size 1%positive w' = Ret (Z.of_nat (length [8; 5; 3; 1]) + 1) w' ∧
     empty 1%positive w' = Ret false w' ∧
     (let a := fresh (dom (nodes example_world)) in
      nodes example_world !! a = None ∧ data <$> nodes w' !! a = Some 6 ∧
      ∀ b, b ≠ a → data <$> nodes w' !! b = data <$> nodes example_world !! b) ∧
     released w' = released example_world ∧
     (∀ q0, q0 ≠ 1%positive → queues w' !! q0 = queues example_world !! q0)).
Proof.
  refine (conj example_world_reachable (conj example_world_holds_1 _)).
  apply (push_adds_one_element less_Z example_world 1%positive [8; 5; 3; 1] 6
           example_world_reachable example_world_holds_1).
Defined.

Lemma X4_witness :
  reachable less_Z example_world ∧ holds example_world 1 [8; 5; 3; 1] ∧
  (([8; 5; 3; 1] ≠ [] → (∀ x y, is_Some (less_Z x y)) →
    ∃ w', pop 1%positive example_world = Ret () w') ∧
   ∀ w', pop 1%positive example_world = Ret () w' →
     ∃ x ys pq a,
       top 1%positive example_world = Ret x example_world ∧ holds w' 1 ys ∧
       [8; 5; 3; 1] ≡ₚ x :: ys ∧
       size 1%positive w' = Ret (Z.of_nat (length [8; 5; 3; 1]) - 1) w' ∧
       queues example_world !! 1%positive = Some pq ∧ root pq = Some a ∧
       data <$> nodes example_world !! a = Some x ∧
       nodes w' !! a = None ∧ released w' = a :: released example_world ∧
       (∀ b, b ≠ a → data <$> nodes w' !! b = data <$> nodes example_world !! b) ∧
       new_ok w' = new_ok example_world ∧
       (∀ q0, q0 ≠ 1%positive → queues w' !! q0 = queues example_world !! q0)).
Proof.
  refine (conj example_world_reachable (conj example_world_holds_1 _)).
  apply (pop_removes_the_top less_Z example_world 1%positive [8; 5; 3; 1]
           example_world_reachable example_world_holds_1).
Defined.

Lemma X6_witness :
  reachable less_unlucky unlucky_world ∧
  perform less_unlucky (Push 1%positive 13) unlucky_world =
    Throw runtime_error unlucky_world_after_push ∧
  (nodes unlucky_world_after_push = nodes unlucky_world ∧
   queues unlucky_world_after_push = queues unlucky_world ∧
   may_throw (Push 1%positive 13) runtime_error = true ∧
   runtime_error ≠ compare_error).
Proof.
  assert (perform less_unlucky (Push 1%positive 13) unlucky_world =
          Throw runtime_error unlucky_world_after_push) as Hrun by (vm_compute; reflexivity).
  refine (conj unlucky_world_reachable (conj Hrun _)).
  apply (every_throw_rolls_back less_unlucky (Push 1%positive 13) unlucky_world
           runtime_error unlucky_world_after_push unlucky_world_reachable Hrun).
Defined.

Lemma X7_witness :
  reachable less_Z example_world ∧
  ((∀ a, is_Some (nodes example_world !! a) →
         ∃ q pq, queues example_world !! q = Some pq ∧
                 reaches (nodes example_world) (root pq) a ∧
                 ∀ q' pq', queues example_world !! q' = Some pq' →
                           reaches (nodes example_world) (root pq') a → q' = q) ∧
   (queues example_world = ∅ → nodes example_world = ∅)).
Proof.
  refine (conj example_world_reachable _).
  apply (no_node_is_leaked less_Z example_world example_world_reachable).
Defined.

Lemma X8_witness :
  reachable less_Z example_world ∧
  queues example_world !! 1%positive = Some first_queue ∧
  (∃ w' ns, destroy 1%positive example_world = Ret () w' ∧
            NoDup ns ∧
            (∀ a, a ∈ ns ↔ reaches (nodes example_world) (root first_queue) a) ∧
            released w' ≡ₚ ns ++ released example_world ∧
            queues w' = delete 1%positive (queues example_world) ∧
            (∀ a, a ∈ ns → nodes w' !! a = None) ∧
            (∀ a, a ∉ ns → nodes w' !! a = nodes example_world !! a) ∧
            new_ok w' = new_ok example_world).
Proof.
  refine (conj example_world_reachable (conj example_world_first _)).
  apply (destructor_releases_every_node less_Z example_world 1%positive first_queue
           example_world_reachable example_world_first).
Defined.

Lemma X9_witness :
  reachable less_Z example_world ∧ 2%positive ≠ 1%positive ∧
  queues example_world !! 2%positive = Some second_queue ∧
  assign 2%positive 1%positive example_world = Ret 2%positive assigned_world ∧
  (∃ ns, NoDup ns ∧
         (∀ a, a ∈ ns ↔ reaches (nodes example_world) (root second_queue) a) ∧
         released assigned_world ≡ₚ ns ++ released example_world ∧
         (∀ a, a ∈ ns → nodes assigned_world !! a = None) ∧
         (∀ a, a ∉ ns → is_Some (nodes example_world !! a) →
               nodes assigned_world !! a = nodes example_world !! a) ∧
         (∀ q0, q0 ≠ 2%positive → queues assigned_world !! q0 = queues example_world !! q0)).
Proof.
  assert (2%positive ≠ 1%positive) as Hne by discriminate.
  assert (assign 2%positive 1%positive example_world = Ret 2%positive assigned_world)
    as Hrun by (vm_compute; reflexivity).
  refine (conj example_world_reachable (conj Hne (conj example_world_second (conj Hrun _)))).
  apply (assignment_releases_old_tree less_Z example_world 2%positive 1%positive
           second_queue assigned_world
           example_world_reachable Hne example_world_second Hrun).
Defined.

Lemma X10_witness :
  reachable less_Z short_of_memory ∧
  (∀ q, q ∈ operands (CopyConstruct (T:=Z) 1%positive) →
        is_Some (queues short_of_memory !! q)) ∧
  (perform less_Z (CopyConstruct 1%positive) short_of_memory ≠ OutOfFuel ∧
   ∀ f, perform less_Z (CopyConstruct 1%positive) short_of_memory = Fault f →
        copies (CopyConstruct (T:=Z) 1%positive) = true ∧ ∃ a, f = DoubleDelete a).
Proof.
  assert (∀ q, q ∈ operands (CopyConstruct (T:=Z) 1%positive) →
               is_Some (queues short_of_memory !! q)) as Hlive.
  { intros q [->|[]%elem_of_nil]%elem_of_cons. vm_compute. by eexists. }
  refine (conj short_of_memory_reachable (conj Hlive _)).
  apply (calls_are_memory_safe less_Z (CopyConstruct 1%positive) short_of_memory
           short_of_memory_reachable Hlive).
Defined.

Lemma X11_witness :
  reachable less_Z example_world ∧
  push 1%positive 6 example_world = Ret () pushed_world ∧
  ((top 1%positive example_world = Throw container_is_empty example_world →
    top 1%positive pushed_world = Ret 6 pushed_world) ∧
   (∀ x, top 1%positive example_world = Ret x example_world →
         top 1%positive pushed_world =
         Ret (if less_Z x 6 is Some true then 6 else x) pushed_world)).
Proof.
  assert (push 1%positive 6 example_world = Ret () pushed_world)
    as Hrun by (vm_compute; reflexivity).
  refine (conj example_world_reachable (conj Hrun _)).
  apply (top_after_push less_Z example_world 1%positive 6 pushed_world
           example_world_reachable Hrun).
Defined.

Lemma X12_witness :
  reachable less_Z example_world ∧ 1%positive ≠ 2%positive ∧
  queues example_world !! 1%positive = Some first_queue ∧
  queues example_world !! 2%positive = Some second_queue ∧
  merge 1%positive 2%positive example_world = Ret () merged_world ∧
  ((∃ pq', queues merged_world !! 1%positive = Some pq' ∧
           ∀ a, reaches (nodes merged_world) (root pq') a ↔
                reaches (nodes example_world) (root first_queue) a ∨
                reaches (nodes example_world) (root second_queue) a) ∧
   (∀ a, data <$> nodes merged_world !! a = data <$> nodes example_world !! a) ∧
   released merged_world = released example_world ∧
   new_ok merged_world = new_ok example_world ∧
   (∀ q0, q0 ≠ 1%positive → q0 ≠ 2%positive →
          queues merged_world !! q0 = queues example_world !! q0)).
Proof.
  assert (1%positive ≠ 2%positive) as Hne by discriminate.
  assert (merge 1%positive 2%positive example_world = Ret () merged_world)
    as Hrun by (vm_compute; reflexivity).
  refine (conj example_world_reachable
            (conj Hne (conj example_world_first (conj example_world_second (conj Hrun _))))).
  apply (merge_transfers_nodes less_Z example_world 1%positive 2%positive
           first_queue second_queue merged_world
           example_world_reachable Hne example_world_first example_world_second Hrun).
Defined.

Lemma X14_witness :
  reachable less_Z example_world ∧
  queues example_world !! 1%positive = Some first_queue ∧
  Forall (eq true) (new_ok example_world) ∧
  Z.of_nat (base.size (nodes example_world)) + count first_queue ≤ SIZE_MAX ∧
  ((∃ q w', copy_construct 1%positive example_world = Ret q w') ∧
   (∀ q, is_Some (queues example_world !! q) →
         ∃ w', assign q 1%positive example_world = Ret q w')).
Proof.
  assert (Forall (eq true) (new_ok example_world)) as Hok by (vm_compute; constructor).
  assert (Z.of_nat (base.size (nodes example_world)) + count first_queue ≤ SIZE_MAX)
    as Hcap by (vm_compute; discriminate).
  refine (conj example_world_reachable (conj example_world_first (conj Hok (conj Hcap _)))).
  apply (copy_returns_when_memory_suffices less_Z example_world 1%positive first_queue
           example_world_reachable example_world_first Hok Hcap).
Defined.

Lemma X15_witness :
  reachable less_Z example_world ∧
  queues example_world !! 1%positive = Some first_queue ∧
  reaches (nodes example_world) (root first_queue) 3%positive ∧
  nodes example_world !! 3%positive = Some (mkNode 8 (Some 1%positive) (Some 4%positive) 1) ∧
  (∃ t, rootp t = Some 3%positive ∧ own (nodes example_world) t ∧
        npl (mkNode 8 (Some 1%positive) (Some 4%positive) 1) =
          null_path_length (shape_of t) ∧
        2 ^ (npl (mkNode 8 (Some 1%positive) (Some 4%positive) 1) + 1) ≤
          Z.of_nat (weight (shape_of t)) + 1 ∧
        Z.of_nat (weight (shape_of t)) ≤ count first_queue).
Proof.
  assert (nodes example_world !! 3%positive =
          Some (mkNode 8 (Some 1%positive) (Some 4%positive) 1))
    as Hn by (vm_compute; reflexivity).
  assert (reaches (nodes example_world) (root first_queue) 3%positive)
    as Hreach by (eapply reaches_here; exact Hn).
  refine (conj example_world_reachable (conj example_world_first (conj Hreach (conj Hn _)))).
  apply (npl_is_null_path_length less_Z example_world 1%positive first_queue 3%positive _
           example_world_reachable example_world_first Hreach Hn).
Defined.

Lemma X16_witness :
  reachable less_Z short_of_memory ∧
  queues short_of_memory !! 1%positive = Some short_queue ∧
  Z.of_nat (base.size (nodes short_of_memory)) + count short_queue ≤ SIZE_MAX ∧
  (∀ i, (i < 2)%nat → new_ok short_of_memory !! i ≠ Some false) ∧
  new_ok short_of_memory !! 2%nat = Some false ∧
  (∃ t, rootp t = root short_queue ∧ own (nodes short_of_memory) t ∧
        ∀ op : M Z qid,
          op = copy_construct 1%positive ∨
          (∃ q, q ≠ 1%positive ∧ is_Some (queues short_of_memory !! q) ∧
                op = assign q 1%positive) →
          (count short_queue ≤ Z.of_nat 2 → ∃ q w', op short_of_memory = Ret q w') ∧
          ((2 < left_spine (shape_of t))%nat →
           ∃ w' cs, op short_of_memory = Throw bad_alloc w' ∧
                    nodes w' = nodes short_of_memory ∧ queues w' = queues short_of_memory ∧
                    released w' = cs ++ released short_of_memory ∧ length cs = 2%nat ∧
                    NoDup cs ∧ ∀ c, c ∈ cs → nodes short_of_memory !! c = None) ∧
          ((left_spine (shape_of t) ≤ 2)%nat → Z.of_nat 2 < count short_queue →
           ∃ a, op short_of_memory = Fault (DoubleDelete a))).
Proof.
  assert (queues short_of_memory !! 1%positive = Some short_queue)
    as Hq by (vm_compute; reflexivity).
  assert (Z.of_nat (base.size (nodes short_of_memory)) + count short_queue ≤ SIZE_MAX)
    as Hcap by (vm_compute; discriminate).
  assert (∀ i, (i < 2)%nat → new_ok short_of_memory !! i ≠ Some false) as Hgrant.
  { intros [|[|i]] Hi; [vm_compute; discriminate..|lia]. }
  assert (new_ok short_of_memory !! 2%nat = Some false) as Hk by (vm_compute; reflexivity).
  refine (conj short_of_memory_reachable (conj Hq (conj Hcap (conj Hgrant (conj Hk _))))).
  apply (copy_outcome_by_first_refusal less_Z short_of_memory 1%positive short_queue 2
           short_of_memory_reachable Hq Hcap Hgrant Hk).
Defined.

End more_examples.

End sjtu.
